(** * TechNova function router: a shallow embedding of [main.py]

    The router answers [GET /execute?q=...]: it strips the query, tries the five
    templates of [PATTERNS] in order, then one relaxed ticket pattern, and
    answers with a function name and a JSON-encoded argument string, or with
    an HTTP error.

    Modelling choices.
    - A Python [str] is a list of 8-bit characters, read as the code points
      U+0000 to U+00FF.  The classes behind [\s], [\d], [\b], [str.strip] and
      [re.IGNORECASE] are those of Python's Unicode tables on that range.
    - [re] is embedded as a backtracking matcher that lists the ways a pattern
      can match at a position in the order in which Python tries them; the
      match that [search] reports is the first one at the leftmost position.
    - Python integers are [Z].  [int] and [repr] of an integer obey the
      interpreter's limit on decimal conversions
      ([sys.get_int_max_str_digits()], 4300 unless reconfigured, 0 to disable).
    - The module globals read by the handler ([PATTERNS] and the interpreter
      setting above) and the cache of compiled patterns of [re], which
      [re.compile] and [re.search] with a pattern text fill (as in CPython
      3.11), form an explicit state that every request threads. *)

From Stdlib Require Import Ascii String List Bool Arith NArith ZArith Lia.
Import ListNotations.
Local Open Scope list_scope.

(** * Definitions *)

(** ** Text and character classes *)

Definition str := list ascii.

Definition L (s : string) : str := list_ascii_of_string s.

Definition code (c : ascii) : N := N_of_ascii c.

Definition in_range (lo hi : N) (c : ascii) : bool :=
  ((lo <=? code c) && (code c <=? hi))%N.

Definition is_code (n : N) (c : ascii) : bool := (code c =? n)%N.

(** [str.isspace] for one character, which is also [\s] and what [strip]
    removes: TAB..CR, FS..US, space, NEL and NBSP. *)
Definition is_space (c : ascii) : bool :=
  in_range 9 13 c || in_range 28 32 c || is_code 133 c || is_code 160 c.

(** [str.isdecimal], which is [\d] and what [int] accepts as a digit. *)
Definition is_decimal (c : ascii) : bool := in_range 48 57 c.

Definition digit_value (c : ascii) : N := (code c - 48)%N.

(** [str.isalpha] on U+0000..U+00FF. *)
Definition is_alpha (c : ascii) : bool :=
  in_range 65 90 c || in_range 97 122 c
  || is_code 170 c || is_code 181 c || is_code 186 c
  || in_range 192 214 c || in_range 216 246 c || in_range 248 255 c.

(** [isdecimal or isdigit or isnumeric]: the digits, the superscripts
    U+00B2, U+00B3, U+00B9 and the fractions U+00BC..U+00BE. *)
Definition is_numeric (c : ascii) : bool :=
  is_decimal c || is_code 178 c || is_code 179 c || is_code 185 c
  || in_range 188 190 c.

(** A word character of [\w] and [\b]: alphanumeric or underscore. *)
Definition is_word (c : ascii) : bool :=
  is_alpha c || is_numeric c || is_code 95 c.

(** Simple lower and upper case mappings inside U+0000..U+00FF. *)
Definition to_lower (c : ascii) : ascii :=
  if in_range 65 90 c || in_range 192 214 c || in_range 216 222 c
  then ascii_of_N (code c + 32) else c.

Definition to_upper (c : ascii) : ascii :=
  if in_range 97 122 c || in_range 224 246 c || in_range 248 254 c
  then ascii_of_N (code c - 32) else c.

Definition eq_ascii (a b : ascii) : bool := (code a =? code b)%N.

(** [str.strip()] *)
Fixpoint lstrip (s : str) : str :=
  match s with
  | c :: s' => if is_space c then lstrip s' else s
  | [] => []
  end.

Definition rstrip (s : str) : str :=
  rev_append (lstrip (rev_append s [])) [].

Definition strip (s : str) : str := rstrip (lstrip s).

(** ** Regular expressions

    The fragment of [re] syntax that the patterns of [main.py] use, compiled
    with [re.IGNORECASE] and without [MULTILINE] or [DOTALL]. *)

(** The fragment of [re] syntax that the patterns of [main.py] use, compiled
    with [re.IGNORECASE] and without [MULTILINE] or [DOTALL]. *)
Inductive cset : Type :=
| CDigit                      (* \d *)
| CSpace                      (* \s *)
| CAny                        (* .  *)
| CRange (lo hi : ascii).     (* [lo-hi] *)

Definition cset_mem (cs : cset) (c : ascii) : bool :=
  match cs with
  | CDigit => is_decimal c
  | CSpace => is_space c
  | CAny => negb (is_code 10 c)
  | CRange lo hi =>
      in_range (code lo) (code hi) c
      || in_range (code lo) (code hi) (to_lower c)
      || in_range (code lo) (code hi) (to_upper c)
  end.

Inductive regex : Type :=
| Lit (s : string)                                   (* literal text *)
| Rep (cs : cset) (lo : nat) (hi : option nat) (greedy : bool)
                                                     (* cs{lo,hi}, cs+, cs+? *)
| WordB                                              (* \b *)
| Eos                                                (* $ *)
| Cat (r1 r2 : regex)
| Alt (r1 r2 : regex)                                (* r1|r2 *)
| Opt (r : regex)                                    (* (?:r)? *)
| Group (r : regex).                                 (* (r) *)

Fixpoint ngroups (r : regex) : nat :=
  match r with
  | Lit _ | Rep _ _ _ _ | WordB | Eos => 0
  | Cat r1 r2 | Alt r1 r2 => ngroups r1 + ngroups r2
  | Opt r => ngroups r
  | Group r => S (ngroups r)
  end.

(** A position in the subject: its index, the character before it and the
    text from it on. *)
Record cursor : Type := mkCursor { pos : nat; prev : option ascii; rest : str }.

(** Group number to the span (start, end) it last matched; newest first. *)
Definition marks := list (nat * (nat * nat)).

Definition mstate : Type := cursor * marks.

Fixpoint lit (s : str) (c : cursor) : option cursor :=
  match s with
  | [] => Some c
  | x :: s' =>
      match rest c with
      | y :: r =>
          if eq_ascii (to_lower y) (to_lower x)
          then lit s' (mkCursor (S (pos c)) (Some y) r)
          else None
      | [] => None
      end
  end.

(** The cursors reached from ([p], [pv], [s]) by consuming 0, 1, 2, ... and
    at most [n] characters that satisfy [f]. *)
Fixpoint walk (f : ascii -> bool) (n : nat) (p : nat) (pv : option ascii)
  (s : str) : list cursor :=
  mkCursor p pv s ::
  match n, s with
  | S n', c :: s' => if f c then walk f n' (S p) (Some c) s' else []
  | _, _ => []
  end.

Definition word_before (c : cursor) : bool :=
  match prev c with Some x => is_word x | None => false end.

Definition word_after (c : cursor) : bool :=
  match rest c with x :: _ => is_word x | [] => false end.

Definition at_boundary (c : cursor) : bool :=
  negb (Bool.eqb (word_before c) (word_after c)).

(** [$] without [MULTILINE]: the end, or just before a final newline. *)
Definition at_end (c : cursor) : bool :=
  match rest c with
  | [] => true
  | [x] => is_code 10 x
  | _ => false
  end.

(** [ms r base st] lists the states in which a match of [r] started in [st]
    can end, in the order of Python's backtracking.  [base] is the number of
    groups opened to the left of [r]. *)
Fixpoint ms (r : regex) (base : nat) (st : mstate) : list mstate :=
  match r with
  | Lit s =>
      match lit (L s) (fst st) with
      | Some c' => [(c', snd st)]
      | None => []
      end
  | Rep cs lo hi greedy =>
      let c := fst st in
      let n := match hi with Some h => h | None => length (rest c) end in
      let all := skipn lo (walk (cset_mem cs) n (pos c) (prev c) (rest c)) in
      map (fun c' => (c', snd st)) (if greedy then rev_append all [] else all)
  | WordB => if at_boundary (fst st) then [st] else []
  | Eos => if at_end (fst st) then [st] else []
  | Cat r1 r2 => flat_map (ms r2 (base + ngroups r1)) (ms r1 base st)
  | Alt r1 r2 => ms r1 base st ++ ms r2 (base + ngroups r1) st
  | Opt r => ms r base st ++ [st]
  | Group r =>
      map (fun st' => (fst st', (S base, (pos (fst st), pos (fst st'))) :: snd st'))
          (ms r (S base) st)
  end.

(** A match object: the subject, the span of the whole match, the marks and
    the number of groups of the pattern. *)
Record rmatch : Type := mkMatch {
  m_string : str;
  m_start : nat;
  m_end : nat;
  m_marks : marks;
  m_ngroups : nat
}.

Fixpoint scan (r : regex) (p : nat) (pv : option ascii) (s : str)
  : option (nat * mstate) :=
  match ms r 0 (mkCursor p pv s, []) with
  | st :: _ => Some (p, st)
  | [] =>
      match s with
      | c :: s' => scan r (S p) (Some c) s'
      | [] => None
      end
  end.

(** [pattern.search(text)] *)
Definition re_search (r : regex) (text : str) : option rmatch :=
  match scan r 0 None text with
  | Some (p, st) => Some (mkMatch text p (pos (fst st)) (snd st) (ngroups r))
  | None => None
  end.

Fixpoint mark_of (i : nat) (mk : marks) : option (nat * nat) :=
  match mk with
  | [] => None
  | (j, sp) :: mk' => if Nat.eqb i j then Some sp else mark_of i mk'
  end.

Definition slice (s : str) (a b : nat) : str := firstn (b - a) (skipn a s).

(** [m.group(i)] for [i >= 1]; [None] for a group that took no part. *)
Definition group (m : rmatch) (i : nat) : option str :=
  match mark_of i (m_marks m) with
  | Some (a, b) => Some (slice (m_string m) a b)
  | None => None
  end.

(** [m.groups()] *)
Definition groups (m : rmatch) : list (option str) :=
  map (group m) (seq 1 (m_ngroups m)).

(** Concatenation of a non-empty list of pattern items. *)
Fixpoint cat (rs : list regex) : regex :=
  match rs with
  | [] => Lit ""
  | [r] => r
  | r :: rs' => Cat r (cat rs')
  end.

Definition plus (cs : cset) : regex := Rep cs 1 None true.

Definition exactly (cs : cset) (n : nat) : regex := Rep cs n (Some n) true.

Definition digit09 : cset := CRange "0" "9".

(** ** Python values: integers, ordered dictionaries, JSON text *)

Inductive pyval : Type :=
| VInt (z : Z)
| VStr (s : str).

(** An [OrderedDict] with string keys: its items in insertion order. *)
Definition odict := list (str * pyval).

Definition str_eqb (a b : str) : bool :=
  if list_eq_dec ascii_dec a b then true else false.

(** [d[key] = v]: overwrite in place, or append. *)
Fixpoint od_set (d : odict) (key : str) (v : pyval) : odict :=
  match d with
  | [] => [(key, v)]
  | (k, w) :: d' =>
      if str_eqb k key then (k, v) :: d' else (k, w) :: od_set d' key v
  end.

Fixpoint od_get (d : odict) (key : str) : option pyval :=
  match d with
  | [] => None
  | (k, w) :: d' => if str_eqb k key then Some w else od_get d' key
  end.

(** Decimal conversions are refused beyond [lim] digits when [lim] is
    positive; conversions of at most 640 digits are never checked. *)
Definition over_limit (lim len n : nat) : bool :=
  (640 <? len) && (0 <? lim) && (lim <? n).

(** The digits-and-underscores part of an integer literal: its number of
    digits, when it is well formed.  An underscore must stand between two
    digits. *)
Fixpoint int_digits (s : str) (after_digit : bool) (n : nat) : option nat :=
  match s with
  | [] => if after_digit then Some n else None
  | c :: s' =>
      if is_decimal c then int_digits s' true (S n)
      else if is_code 95 c && after_digit then int_digits s' false n
      else None
  end.

(** Its value in base 10, underscores skipped. *)
Fixpoint int_value (s : str) (acc : N) : N :=
  match s with
  | [] => acc
  | c :: s' =>
      if is_decimal c then int_value s' (10 * acc + digit_value c)%N
      else int_value s' acc
  end.

(** [int(s)] for a string [s]: surrounding whitespace and a sign are
    allowed, the digits are counted and checked against the limit, then
    converted.  [None] stands for [ValueError]. *)
Definition py_int (lim : nat) (s : str) : option Z :=
  let t := strip s in
  let '(neg, body) :=
    match t with
    | c :: t' =>
        if is_code 45 c then (true, t')
        else if is_code 43 c then (false, t')
        else (false, t)
    | [] => (false, t)
    end in
  match int_digits body false 0 with
  | Some n =>
      if over_limit lim n n then None
      else Some (if neg then (- Z.of_N (int_value body 0))%Z
                 else Z.of_N (int_value body 0))
  | None => None
  end.

(** Decimal digits of a natural number, most significant first. *)
Fixpoint dec_digits (fuel : nat) (n : N) : str :=
  let d := ascii_of_N (48 + n mod 10) in
  match fuel with
  | O => [d]
  | S fuel' => if (n <? 10)%N then [d] else dec_digits fuel' (n / 10) ++ [d]
  end.

Definition repr_N (n : N) : str := dec_digits (N.size_nat n) n.

(** [repr(z)] of an integer, as [json.dumps] writes it; [None] stands for
    [ValueError]. *)
Definition py_repr_int (lim : nat) (z : Z) : option str :=
  let ds := repr_N (Z.abs_N z) in
  let sign := if (z <? 0)%Z then L "-" else [] in
  if over_limit lim (length sign + length ds) (length ds) then None
  else Some (sign ++ ds).

Definition dquote : ascii := ascii_of_N 34.

Definition backslash : ascii := ascii_of_N 92.

Definition hex_digit (n : N) : ascii :=
  if (n <? 10)%N then ascii_of_N (48 + n) else ascii_of_N (87 + n).

(** One character of a JSON string under [ensure_ascii=False]. *)
Definition escape_char (c : ascii) : str :=
  if is_code 34 c then [backslash; dquote]
  else if is_code 92 c then [backslash; backslash]
  else if is_code 10 c then backslash :: L "n"
  else if is_code 13 c then backslash :: L "r"
  else if is_code 9 c then backslash :: L "t"
  else if is_code 8 c then backslash :: L "b"
  else if is_code 12 c then backslash :: L "f"
  else if (code c <? 32)%N
       then backslash :: L "u00" ++ [hex_digit (code c / 16); hex_digit (code c mod 16)]
  else [c].

Definition encode_basestring (s : str) : str :=
  dquote :: flat_map escape_char s ++ [dquote].

Definition json_value (lim : nat) (v : pyval) : option str :=
  match v with
  | VInt z => py_repr_int lim z
  | VStr s => Some (encode_basestring s)
  end.

Fixpoint json_items (lim : nat) (d : odict) : option (list str) :=
  match d with
  | [] => Some []
  | (k, v) :: d' =>
      match json_value lim v, json_items lim d' with
      | Some e, Some es => Some ((encode_basestring k ++ L ": " ++ e) :: es)
      | _, _ => None
      end
  end.

Fixpoint join (sep : str) (xs : list str) : str :=
  match xs with
  | [] => []
  | [x] => x
  | x :: xs' => x ++ sep ++ join sep xs'
  end.

(** [json.dumps(d, ensure_ascii=False)] for an ordered dictionary of
    integers and strings. *)
Definition json_dumps (lim : nat) (d : odict) : option str :=
  match json_items lim d with
  | Some es => Some (L "{" ++ join (L ", ") es ++ L "}")
  | None => None
  end.

(** ** The handler's state and control flow *)

Inductive argtype : Type := T_int | T_str.

Record rule : Type := mkRule {
  name : str;
  pattern : regex;
  arg_keys : list str;
  arg_types : list argtype
}.

(** What the handler reads from its surroundings, and the cache of compiled
    patterns that the module [re] keeps: its keys are a pattern text with
    the flags it was compiled with, the oldest first. *)
Record globals : Type := mkGlobals {
  g_PATTERNS : list rule;
  g_int_max_str_digits : nat;
  g_re_cache : list (str * Z)
}.

Inductive exn : Type := ValueError | TypeError | AttributeError.

(** How a call ends: with a value, with an [HTTPException] that FastAPI turns
    into a response with that status and [{"detail": ...}], or with an
    exception that nothing catches (the server answers 500). *)
Inductive outcome (A : Type) : Type :=
| Return (a : A)
| HTTPException (status_code : nat) (detail : str)
| Uncaught (e : exn).

Arguments Return {A} a.

Arguments HTTPException {A} status_code detail.

Arguments Uncaught {A} e.

Definition M (A : Type) : Type := globals -> outcome A * globals.

Definition ret {A} (a : A) : M A := fun g => (Return a, g).

Definition bind {A B} (m : M A) (k : A -> M B) : M B :=
  fun g =>
    match m g with
    | (Return a, g') => k a g'
    | (HTTPException sc d, g') => (HTTPException sc d, g')
    | (Uncaught e, g') => (Uncaught e, g')
    end.

Definition raise_http {A} (sc : nat) (d : str) : M A :=
  fun g => (HTTPException sc d, g).

Definition raise {A} (e : exn) : M A := fun g => (Uncaught e, g).

Definition read_PATTERNS : M (list rule) := fun g => (Return (g_PATTERNS g), g).

Definition read_limit : M nat := fun g => (Return (g_int_max_str_digits g), g).

(** [re.IGNORECASE] and [re._MAXCACHE] *)
Definition re_IGNORECASE : Z := 2.

Definition re_MAXCACHE : nat := 512.

Definition key_eqb (k k' : str * Z) : bool :=
  str_eqb (fst k) (fst k') && (snd k =? snd k')%Z.

(** What [re._compile(pattern, flags)] does to the cache: a key that is
    there stays where it is; a new one goes to the end, after the oldest
    has been dropped from a full cache. *)
Definition cache_put (key : str * Z) (cache : list (str * Z)) : list (str * Z) :=
  if existsb (key_eqb key) cache then cache
  else (if re_MAXCACHE <=? length cache then tl cache else cache) ++ [key].

Definition compiled (pattern : str) (flags : Z) (g : globals) : globals :=
  mkGlobals (g_PATTERNS g) (g_int_max_str_digits g)
            (cache_put (pattern, flags) (g_re_cache g)).

(** [try: m except ValueError: h] *)
Definition except_ValueError {A} (m : M A) (h : M A) : M A :=
  fun g =>
    match m g with
    | (Uncaught ValueError, g') => h g'
    | r => r
    end.

Notation "x <- m ;; k" := (bind m (fun x => k))
  (at level 61, m at next level, right associativity).

(** [int(val)] on a group: [None] is not a string. *)
Definition int_of (val : option str) : M Z :=
  match val with
  | None => raise TypeError
  | Some s =>
      lim <- read_limit ;;
      match py_int lim s with
      | Some z => ret z
      | None => raise ValueError
      end
  end.

(** [val.strip()] on a group. *)
Definition strip_of (val : option str) : M str :=
  match val with
  | None => raise AttributeError
  | Some s => ret (strip s)
  end.

Record response : Type := mkResponse { r_name : str; r_arguments : str }.

Definition build_response (func_name : str) (ordered_args : odict) : M response :=
  lim <- read_limit ;;
  match json_dumps lim ordered_args with
  | Some args_str => ret (mkResponse func_name args_str)
  | None => raise ValueError
  end.

(** [zip(keys, types, vals)] *)
Fixpoint zip3 {A B C} (xs : list A) (ys : list B) (zs : list C)
  : list (A * B * C) :=
  match xs, ys, zs with
  | x :: xs', y :: ys', z :: zs' => (x, y, z) :: zip3 xs' ys' zs'
  | _, _, _ => []
  end.

(** The loop that fills [ordered]. *)
Fixpoint coerce (items : list (str * argtype * option str)) (ordered : odict)
  : M odict :=
  match items with
  | [] => ret ordered
  | (key, typ, val) :: items' =>
      match typ with
      | T_int =>
          z <- except_ValueError (int_of val)
                 (raise_http 400 (L "Invalid integer for " ++ key)) ;;
          coerce items' (od_set ordered key (VInt z))
      | T_str =>
          s <- strip_of val ;;
          coerce items' (od_set ordered key (VStr s))
      end
  end.

(** The body of the loop for a rule that matched. *)
Definition on_match (p : rule) (m : rmatch) : M response :=
  let gs := groups m in
  if negb (length gs =? length (arg_keys p))
  then raise_http 500 (L "Parsing error: group count mismatch")
  else
    ordered <- coerce (zip3 (arg_keys p) (arg_types p) gs) [] ;;
    build_response (name p) ordered.

(** [for p in PATTERNS: ...]; [None] when the loop runs to its end. *)
Fixpoint for_patterns (ps : list rule) (text : str) : M (option response) :=
  match ps with
  | [] => ret None
  | p :: ps' =>
      match re_search (pattern p) text with
      | Some m => r <- on_match p m ;; ret (Some r)
      | None => for_patterns ps' text
      end
  end.

(** [re.search(pattern, string, flags)], the function of the module: the
    pattern text is compiled, or its compiled form [r] is taken from the
    cache, the cache keeps it, and the search is [r.search(string)]. *)
Definition re_module_search (pattern : str) (flags : Z) (r : regex) (text : str)
  : M (option rmatch) :=
  fun g => (Return (re_search r text), compiled pattern flags g).

(** [r"ticket\s+(\d+)"] with [re.IGNORECASE] *)
Definition fallback_pattern : regex :=
  cat [Lit "ticket"; plus CSpace; Group (plus CDigit)].

Definition fallback_text : str := L "ticket\s+(\d+)".

Definition fallback (text : str) : M response :=
  found <- re_module_search fallback_text re_IGNORECASE fallback_pattern text ;;
  match found with
  | Some fallback_ticket =>
      ticket_id <- int_of (group fallback_ticket 1) ;;
      build_response (L "get_ticket_status") [(L "ticket_id", VInt ticket_id)]
  | None =>
      raise_http 400
        (L "Could not map query to any pre-defined function. Make sure the question follows one of the templated formats.")
  end.

(** [execute(q)]; [q] is [None] when the request has no parameter [q]. *)
Definition execute (q : option str) : M response :=
  match q with
  | None | Some [] => raise_http 400 (L "Missing query parameter q")
  | Some q' =>
      let text := strip q' in
      ps <- read_PATTERNS ;;
      r <- for_patterns ps text ;;
      match r with
      | Some resp => ret resp
      | None => fallback text
      end
  end.

(** ** The rule table *)

Definition PATTERNS : list rule :=
  [ mkRule (L "get_ticket_status")
      (cat [WordB; Lit "status of ticket"; plus CSpace; Group (plus CDigit); WordB])
      [L "ticket_id"] [T_int];
    mkRule (L "schedule_meeting")
      (cat [WordB; Lit "schedule a meeting on"; plus CSpace;
            Group (cat [exactly digit09 4; Lit "-"; exactly digit09 2; Lit "-";
                        exactly digit09 2]);
            plus CSpace; Lit "at"; plus CSpace;
            Group (cat [Rep digit09 1 (Some 2) true; Lit ":"; exactly digit09 2]);
            plus CSpace; Lit "in"; plus CSpace;
            Group (plus CAny); Eos])
      [L "date"; L "time"; L "meeting_room"] [T_str; T_str; T_str];
    mkRule (L "get_expense_balance")
      (cat [WordB; Lit "expense balance for employee"; plus CSpace;
            Group (plus CDigit); WordB])
      [L "employee_id"] [T_int];
    mkRule (L "calculate_performance_bonus")
      (cat [WordB; Lit "performance bonus for employee"; plus CSpace;
            Group (plus CDigit); plus CSpace; Lit "for"; plus CSpace;
            Group (exactly CDigit 4); WordB])
      [L "employee_id"; L "current_year"] [T_int; T_int];
    mkRule (L "report_office_issue")
      (cat [WordB; Lit "report "; Opt (Alt (Lit "an ") (Lit "the "));
            Lit "office issue"; plus CSpace; Group (plus CDigit); plus CSpace;
            Lit "for the"; plus CSpace; Group (Rep CAny 1 None false);
            plus CSpace; Lit "department"; WordB])
      [L "issue_code"; L "department"] [T_int; T_str] ].

(** The pattern texts of the table, which [re.compile] has compiled with
    [re.IGNORECASE] when the module was loaded. *)
Definition PATTERNS_texts : list str :=
  [ L "\bstatus of ticket\s+(\d+)\b";
    L "\bschedule a meeting on\s+([0-9]{4}-[0-9]{2}-[0-9]{2})\s+at\s+([0-9]{1,2}:[0-9]{2})\s+in\s+(.+)$";
    L "\bexpense balance for employee\s+(\d+)\b";
    L "\bperformance bonus for employee\s+(\d+)\s+for\s+(\d{4})\b";
    L "\breport (?:an |the )?office issue\s+(\d+)\s+for the\s+(.+?)\s+department\b" ].

(** The state in which requests are served: the table above, the
    interpreter's conversion limit and the cache as loading the module
    leaves it. *)
Definition boot (lim : nat) : globals :=
  mkGlobals PATTERNS lim
            (fold_left (fun cache t => cache_put (t, re_IGNORECASE) cache)
                       PATTERNS_texts []).

Definition default_int_max_str_digits : nat := 4300.

(** The outcome of one request in a freshly started process. *)
Definition route (lim : nat) (q : str) : outcome response :=
  fst (execute (Some q) (boot lim)).

(** ** Notions of the specification *)

(** The integer that a digit sequence denotes in base 10. *)
Fixpoint denoted (w : str) : N :=
  match w with
  | [] => 0
  | c :: w' => (digit_value c * 10 ^ N.of_nat (length w') + denoted w')%N
  end.

(** The first rule of the table, in declaration order, whose pattern is
    found in the text. *)
Definition matches (text : str) (p : rule) : bool :=
  match re_search (pattern p) text with Some _ => true | None => false end.

Definition matching_rule (ps : list rule) (text : str) : option rule :=
  find (matches text) ps.

(** ** Invariants of the matcher *)

(** A cursor lies in [text] when the text from its index on is its rest. *)
Definition valid (text : str) (c : cursor) : Prop := skipn (pos c) text = rest c.

(** What is known of a group from the shape of the pattern alone: a group on
    the spine of concatenations takes part in every match, and when it is a
    repetition of one class with a positive lower bound it captures a
    non-empty run of that class. *)
Inductive gkind : Type :=
| GRun (cs : cset)
| GAny
| GOptional.

Fixpoint gkinds (r : regex) : list gkind :=
  match r with
  | Lit _ | Rep _ _ _ _ | WordB | Eos => []
  | Cat r1 r2 => gkinds r1 ++ gkinds r2
  | Alt r1 r2 => repeat GOptional (ngroups r1 + ngroups r2)
  | Opt r => repeat GOptional (ngroups r)
  | Group r =>
      match r with Rep cs (S _) _ _ => GRun cs | _ => GAny end :: gkinds r
  end.

Definition mark_ok (text : str) (k : gkind) (mk : option (nat * nat)) : Prop :=
  match k with
  | GRun cs =>
      exists a b, mk = Some (a, b) /\ slice text a b <> [] /\
                  forallb (cset_mem cs) (slice text a b) = true
  | GAny => exists a b, mk = Some (a, b)
  | GOptional => True
  end.

Definition ms_post (text : str) (r : regex) (base : nat) (st st' : mstate) : Prop :=
  valid text (fst st') /\ pos (fst st) <= pos (fst st') /\
  (forall j, j <= base \/ base + ngroups r < j ->
             mark_of j (snd st') = mark_of j (snd st)) /\
  (forall k, k < ngroups r ->
             mark_ok text (nth k (gkinds r) GOptional)
                     (mark_of (S (base + k)) (snd st'))).

Definition group_ok (k : gkind) (g : option str) : Prop :=
  match k with
  | GRun cs => exists w, g = Some w /\ w <> [] /\ forallb (cset_mem cs) w = true
  | GAny => exists w, g = Some w
  | GOptional => True
  end.

(** ** The argument loop and well-formed rules *)

Fixpoint nodupb (l : list str) : bool :=
  match l with
  | [] => true
  | x :: l' => negb (existsb (str_eqb x) l') && nodupb l'
  end.

(** The value stored for a capture [w] of a parameter of kind [t]. *)
Definition value_of (t : argtype) (w : str) : pyval :=
  match t with
  | T_int => VInt (Z.of_N (denoted w))
  | T_str => VStr (strip w)
  end.

(** The dictionary that the loop builds from the captures [ws]. *)
Definition arguments_of (p : rule) (ws : list str) : odict :=
  map (fun it : str * argtype * str =>
         let '(k, t, w) := it in (k, value_of t w))
      (zip3 (arg_keys p) (arg_types p) ws).

(** An Integer-kind capture longer than [int] accepts. *)
Definition too_long (lim : nat) (it : str * argtype * str) : bool :=
  match it with
  | (_, T_int, w) => over_limit lim (length w) (length w)
  | (_, T_str, _) => false
  end.

Definition some_item (it : str * argtype * str) : str * argtype * option str :=
  let '(k, t, w) := it in (k, t, Some w).

Definition digits_if_int (it : str * argtype * str) : Prop :=
  let '(_, t, w) := it in
  t = T_int -> w <> [] /\ forallb is_decimal w = true.

Definition store (od : odict) (it : str * argtype * str) : odict :=
  let '(k, t, w) := it in od_set od k (value_of t w).

Definition kind_fits (t : argtype) (k : gkind) : bool :=
  match t, k with
  | T_int, GRun CDigit => true
  | T_str, GRun _ => true
  | T_str, GAny => true
  | _, _ => false
  end.

(** A rule declares as many parameters as its pattern has groups, under
    distinct names; every group takes part in every match, and the groups of
    Integer-kind parameters are non-empty runs of [\d]. *)
Definition rule_ok (p : rule) : bool :=
  let n := length (arg_keys p) in
  (ngroups (pattern p) =? n) && (length (arg_types p) =? n)
  && nodupb (arg_keys p)
  && forallb (fun k => kind_fits (nth k (arg_types p) T_str)
                                 (nth k (gkinds (pattern p)) GOptional))
             (seq 0 n).

(** The texts captured by the groups of a rule at its match in [text]. *)
Definition captures (p : rule) (text : str) : list str :=
  match re_search (pattern p) text with
  | Some m =>
      flat_map (fun g : option str => match g with Some w => [w] | None => [] end)
               (groups m)
  | None => []
  end.

Definition items (p : rule) (text : str) : list (str * argtype * str) :=
  zip3 (arg_keys p) (arg_types p) (captures p text).

(** Some Integer-kind capture of the rule is longer than [int] accepts. *)
Definition digits_over_limit (lim : nat) (p : rule) (text : str) : bool :=
  existsb (too_long lim) (items p text).

(** ** Outcomes and example queries *)

(** The details of the HTTP errors. *)
Definition missing_q : str := L "Missing query parameter q".

Definition could_not_map : str :=
  L "Could not map query to any pre-defined function. Make sure the question follows one of the templated formats.".

Definition invalid_integer (key : str) : str := L "Invalid integer for " ++ key.





(** A literal between quotation marks. *)
Definition quoted (s : string) : str := dquote :: L s ++ [dquote].

(** The second scenario of the specification and its expected arguments. *)
Definition schedule_query : str :=
  L "Schedule a meeting on 2025-02-15 at 14:00 in Room A.".

Definition schedule_arguments : str :=
  L "{" ++ quoted "date" ++ L ": " ++ quoted "2025-02-15" ++ L ", "
  ++ quoted "time" ++ L ": " ++ quoted "14:00" ++ L ", "
  ++ quoted "meeting_room" ++ L ": " ++ quoted "Room A." ++ L "}".

(** Queries with one digit more than [int] accepts by default. *)
Definition long_expense_query : str :=
  L "expense balance for employee " ++ repeat "1"%char 4301.

(** [x] stands in a literal on the spine of concatenations of the pattern:
    every match reads it, in either case. *)
Fixpoint requires (r : regex) (x : ascii) : bool :=
  match r with
  | Lit s => existsb (eq_ascii x) (L s)
  | Cat r1 r2 => requires r1 x || requires r2 x
  | Group r => requires r x
  | Rep _ _ _ _ | WordB | Eos | Alt _ _ | Opt _ => false
  end.

(** The text holds [x], in either case. *)
Definition has_letter (x : ascii) (s : str) : bool :=
  existsb (fun y => eq_ascii (to_lower y) (to_lower x)) s.

(** The rule at an index of the table. *)
Definition rule_at (i : nat) : rule := nth i PATTERNS (mkRule [] Eos [] []).

Definition long_ticket_query : str :=
  L "status of ticket " ++ repeat "1"%char 4301.

(** [text] splits into [a], the word "ticket" in any case, whitespace,
    digits and a rest [b]. *)
Definition ticket_number_at (text a t ws ds b : str) : Prop :=
  text = a ++ t ++ ws ++ ds ++ b /\
  map to_lower t = L "ticket" /\
  ws <> [] /\ forallb is_space ws = true /\
  ds <> [] /\ forallb is_decimal ds = true.

(** The text holds the word "ticket" in any case, then whitespace, then
    digits. *)
Definition contains_ticket_number (text : str) : Prop :=
  exists a t ws ds b, ticket_number_at text a t ws ds b.

(** The text of [{"ticket_id": n}]. *)
Definition ticket_arguments (n : N) : str :=
  L "{" ++ quoted "ticket_id" ++ L ": " ++ repr_N n ++ L "}".

Definition long_fallback_query : str := L "ticket " ++ repeat "1"%char 4301.

(** ** Reading JSON text *)

(** A reader for JSON objects whose members are strings and integers,
    after RFC 8259: whitespace is allowed around the six structural
    characters, a string may not hold a raw control character, quotation
    mark or backslash, and an integer has no leading zero. *)
Definition is_json_ws (c : ascii) : bool :=
  is_code 32 c || is_code 9 c || is_code 10 c || is_code 13 c.

Fixpoint skip_ws (s : str) : str :=
  match s with
  | c :: s' => if is_json_ws c then skip_ws s' else s
  | [] => []
  end.

Definition hex_value (c : ascii) : option N :=
  if is_decimal c then Some (code c - 48)%N
  else if in_range 97 102 c then Some (code c - 87)%N
  else if in_range 65 70 c then Some (code c - 55)%N
  else None.

Definition unescape (e : ascii) : option ascii :=
  if is_code 34 e then Some dquote
  else if is_code 92 e then Some backslash
  else if is_code 47 e then Some (ascii_of_N 47)
  else if is_code 98 e then Some (ascii_of_N 8)
  else if is_code 102 e then Some (ascii_of_N 12)
  else if is_code 110 e then Some (ascii_of_N 10)
  else if is_code 114 e then Some (ascii_of_N 13)
  else if is_code 116 e then Some (ascii_of_N 9)
  else None.

Definition cons_fst (c : ascii) (r : option (str * str)) : option (str * str) :=
  match r with
  | Some (v, s) => Some (c :: v, s)
  | None => None
  end.

(** The characters of a string after its opening quotation mark: the
    string read and the text after the closing quotation mark. *)
Fixpoint loads_string (s : str) : option (str * str) :=
  match s with
  | [] => None
  | c :: s1 =>
      if is_code 34 c then Some ([], s1)
      else if is_code 92 c then
        match s1 with
        | [] => None
        | e :: s2 =>
            if is_code 117 e then
              match s2 with
              | h1 :: h2 :: h3 :: h4 :: s3 =>
                  match hex_value h1, hex_value h2, hex_value h3, hex_value h4 with
                  | Some a, Some b, Some x, Some y =>
                      let n := (((a * 16 + b) * 16 + x) * 16 + y)%N in
                      if (n <? 256)%N then cons_fst (ascii_of_N n) (loads_string s3)
                      else None
                  | _, _, _, _ => None
                  end
              | _ => None
              end
            else
              match unescape e with
              | Some x => cons_fst x (loads_string s2)
              | None => None
              end
        end
      else if (code c <? 32)%N then None
      else cons_fst c (loads_string s1)
  end.

Fixpoint span_digits (s : str) : str * str :=
  match s with
  | c :: s' =>
      if is_decimal c
      then let '(d, r) := span_digits s' in (c :: d, r)
      else ([], s)
  | [] => ([], [])
  end.

(** An integer: an optional minus sign and digits without a leading zero,
    not followed by a fraction or an exponent. *)
Definition loads_int (s : str) : option (Z * str) :=
  let '(neg, s1) :=
    match s with
    | c :: s' => if is_code 45 c then (true, s') else (false, s)
    | [] => (false, s)
    end in
  let '(ds, r) := span_digits s1 in
  let more :=
    match r with
    | c :: _ => is_code 46 c || is_code 101 c || is_code 69 c
    | [] => false
    end in
  match ds with
  | [] => None
  | d :: ds' =>
      if is_code 48 d && negb (match ds' with [] => true | _ => false end)
      then None
      else if more then None
      else Some (if neg then (- Z.of_N (denoted ds))%Z else Z.of_N (denoted ds), r)
  end.

Definition loads_value (s : str) : option (pyval * str) :=
  match s with
  | c :: s' =>
      if is_code 34 c
      then match loads_string s' with
           | Some (v, r) => Some (VStr v, r)
           | None => None
           end
      else match loads_int s with
           | Some (z, r) => Some (VInt z, r)
           | None => None
           end
  | [] => None
  end.

(** The members of an object, from the first one to the closing brace. *)
Fixpoint loads_members (fuel : nat) (s : str) : option odict :=
  match fuel with
  | O => None
  | S fuel' =>
      match s with
      | c :: s1 =>
          if is_code 34 c then
            match loads_string s1 with
            | Some (k, s2) =>
                match skip_ws s2 with
                | c2 :: s3 =>
                    if is_code 58 c2 then
                      match loads_value (skip_ws s3) with
                      | Some (v, s4) =>
                          match skip_ws s4 with
                          | c4 :: s5 =>
                              if is_code 44 c4 then
                                match loads_members fuel' (skip_ws s5) with
                                | Some d => Some ((k, v) :: d)
                                | None => None
                                end
                              else if is_code 125 c4 then
                                match skip_ws s5 with
                                | [] => Some [(k, v)]
                                | _ :: _ => None
                                end
                              else None
                          | [] => None
                          end
                      | None => None
                      end
                    else None
                | [] => None
                end
            | None => None
            end
          else None
      | [] => None
      end
  end.

(** [json.loads] on the text of such an object. *)
Definition json_loads (s : str) : option odict :=
  match skip_ws s with
  | c :: s1 =>
      if is_code 123 c then
        match skip_ws s1 with
        | c2 :: s2 =>
            if is_code 125 c2
            then match skip_ws s2 with [] => Some [] | _ :: _ => None end
            else loads_members (length s) (c2 :: s2)
        | [] => None
        end
      else None
  | [] => None
  end.

Definition non_ascii (c : ascii) : bool := (128 <=? code c)%N.

(** The characters outside ASCII of the String-kind values of a
    dictionary, in order. *)
Definition non_ascii_of_values (d : odict) : str :=
  flat_map (fun kv : str * pyval =>
              match snd kv with
              | VStr s => filter non_ascii s
              | VInt _ => []
              end) d.

(** What may follow a value inside an object: a comma or the closing
    brace. *)
Definition ends_value (rest : str) : Prop :=
  exists c r, rest = c :: r /\ (is_code 44 c || is_code 125 c) = true.

Definition ascii_only (s : str) : bool := forallb (fun c => negb (non_ascii c)) s.

Definition non_ascii_of_member (kv : str * pyval) : str :=
  filter non_ascii (fst kv)
  ++ match snd kv with VStr s => filter non_ascii s | VInt _ => [] end.

Definition long_bonus_query : str :=
  L "performance bonus for employee " ++ repeat "1"%char 4301 ++ L " for 2025".

Definition e_acute : ascii := ascii_of_N 233.

(** A meeting room whose name ends in U+00E9, and the arguments expected
    for it. *)
Definition cafe_query : str :=
  L "Schedule a meeting on 2025-02-15 at 14:00 in Caf" ++ [e_acute].

Definition cafe_arguments : str :=
  L "{" ++ quoted "date" ++ L ": " ++ quoted "2025-02-15" ++ L ", "
  ++ quoted "time" ++ L ": " ++ quoted "14:00" ++ L ", "
  ++ quoted "meeting_room" ++ L ": "
  ++ dquote :: L "Caf" ++ [e_acute; dquote] ++ L "}".

(** ** Surrounding whitespace and letter case *)

(** The text begins with a whitespace character; it ends with one. *)
Definition starts_with_space (s : str) : bool :=
  match s with c :: _ => is_space c | [] => false end.

Definition ends_with_space (s : str) : bool :=
  starts_with_space (rev_append s []).

(** A text in lower case, and the cursor, the matcher state and the match
    object over it. *)
Definition lower (s : str) : str := map to_lower s.

Definition lower_cursor (c : cursor) : cursor :=
  mkCursor (pos c) (option_map to_lower (prev c)) (lower (rest c)).

Definition lower_state (st : mstate) : mstate := (lower_cursor (fst st), snd st).

Definition lower_match (m : rmatch) : rmatch :=
  mkMatch (lower (m_string m)) (m_start m) (m_end m) (m_marks m) (m_ngroups m).

(** A value and a dictionary with their strings in lower case. *)
Definition lower_value (v : pyval) : pyval :=
  match v with
  | VInt z => VInt z
  | VStr s => VStr (lower s)
  end.

Definition lower_odict (d : odict) : odict :=
  map (fun kv : str * pyval => (lower (fst kv), lower_value (snd kv))) d.

(** An outcome with the letters of the argument text in lower case. *)
Definition lower_outcome (o : outcome response) : outcome response :=
  match o with
  | Return resp => Return (mkResponse (r_name resp) (lower (r_arguments resp)))
  | HTTPException sc d => HTTPException sc d
  | Uncaught e => Uncaught e
  end.

(** ** What a pattern accepts *)

(** [accepts r pv w after gs]: the pattern [r] can match the text [w] when
    [pv] is the character before it and [after] the text behind it, and its
    groups then capture [gs].  The order in which the matcher tries the ways
    to match plays no part here. *)
Fixpoint accepts (r : regex) (pv : option ascii) (w after : str)
  (gs : list (option str)) : Prop :=
  match r with
  | Lit s => lower w = lower (L s) /\ gs = []
  | Rep cs lo hi _ =>
      forallb (cset_mem cs) w = true /\ lo <= length w /\
      (match hi with Some h => length w <= h | None => True end) /\ gs = []
  | WordB => w = [] /\ at_boundary (mkCursor 0 pv after) = true /\ gs = []
  | Eos => w = [] /\ at_end (mkCursor 0 pv after) = true /\ gs = []
  | Cat r1 r2 =>
      exists w1 w2 gs1 gs2,
        w = w1 ++ w2 /\ gs = gs1 ++ gs2 /\
        accepts r1 pv w1 (w2 ++ after) gs1 /\
        accepts r2 (last (map Some w1) pv) w2 after gs2
  | Alt r1 r2 =>
      (exists gs1, accepts r1 pv w after gs1 /\
                   gs = gs1 ++ repeat None (ngroups r2)) \/
      (exists gs2, accepts r2 pv w after gs2 /\
                   gs = repeat None (ngroups r1) ++ gs2)
  | Opt r => accepts r pv w after gs \/ (w = [] /\ gs = repeat None (ngroups r))
  | Group r => exists gs', accepts r pv w after gs' /\ gs = Some w :: gs'
  end.

(** The cursor [c'] lies [w] behind the cursor [c]. *)
Definition moved (c c' : cursor) (w : str) : Prop :=
  rest c = w ++ rest c' /\ pos c' = pos c + length w /\
  prev c' = last (map Some w) (prev c).

(** The cursor lies in [text], after the part [a] of it. *)
Definition placed (text : str) (c : cursor) : Prop :=
  exists a, text = a ++ rest c /\ pos c = length a /\
            prev c = last (map Some a) None.

(** The mark of a group after a match, given what the group captured and the
    mark before. *)
Definition marked (text : str) (g : option str) (old new : option (nat * nat))
  : Prop :=
  match g with
  | Some w => exists a b, new = Some (a, b) /\ slice text a b = w
  | None => new = old
  end.

(** ** The forms of the five templates *)

(** The text ends with a word character; it begins with one. *)
Definition ends_with_word (a : str) : bool :=
  match last (map Some a) None with Some x => is_word x | None => false end.

Definition starts_with_word (b : str) : bool :=
  match b with x :: _ => is_word x | [] => false end.

(** [text] splits into [a], the phrase in any case, whitespace, digits and
    a rest [b]; no word character stands just before the phrase or just
    after the digits. *)
Definition phrase_number_at (phrase : string) (text a t ws ds b : str) : Prop :=
  text = a ++ t ++ ws ++ ds ++ b /\
  lower t = lower (L phrase) /\
  ws <> [] /\ forallb is_space ws = true /\
  ds <> [] /\ forallb is_decimal ds = true /\
  ends_with_word a = false /\ starts_with_word b = false.

(** [text] splits into [a], the phrase, whitespace, the digits [e],
    whitespace, the word "for", whitespace, the four digits [y] and a rest
    [b]; no word character stands just before the phrase or just after
    [y]. *)
Definition bonus_at (text a t ws1 e ws2 f ws3 y b : str) : Prop :=
  text = a ++ t ++ ws1 ++ e ++ ws2 ++ f ++ ws3 ++ y ++ b /\
  lower t = lower (L "performance bonus for employee") /\
  lower f = lower (L "for") /\
  (ws1 <> [] /\ forallb is_space ws1 = true) /\
  (ws2 <> [] /\ forallb is_space ws2 = true) /\
  (ws3 <> [] /\ forallb is_space ws3 = true) /\
  (e <> [] /\ forallb is_decimal e = true) /\
  (length y = 4 /\ forallb is_decimal y = true) /\
  ends_with_word a = false /\ starts_with_word b = false.

(** A non-empty run of whitespace. *)
Definition spaces (ws : str) : Prop := ws <> [] /\ forallb is_space ws = true.

(** Four digits, a hyphen, two digits, a hyphen, two digits. *)
Definition date_shaped (w : str) : bool :=
  match w with
  | [y1; y2; y3; y4; h1; m1; m2; h2; d1; d2] =>
      forallb is_decimal [y1; y2; y3; y4; m1; m2; d1; d2]
      && is_code 45 h1 && is_code 45 h2
  | _ => false
  end.

(** One or two digits, a colon, two digits. *)
Definition time_shaped (w : str) : bool :=
  match w with
  | [h1; c; m1; m2] => forallb is_decimal [h1; m1; m2] && is_code 58 c
  | [h1; h2; c; m1; m2] => forallb is_decimal [h1; h2; m1; m2] && is_code 58 c
  | _ => false
  end.

(** The patterns of the first two groups of the second template. *)
Definition date_pattern : regex :=
  cat [exactly digit09 4; Lit "-"; exactly digit09 2; Lit "-"; exactly digit09 2].

Definition time_pattern : regex :=
  cat [Rep digit09 1 (Some 2) true; Lit ":"; exactly digit09 2].

(** [text] splits into [a], the phrase, a date, "at", a time, "in" and a
    room that runs to the end of the text, with whitespace between them. *)
Definition schedule_at (text a t ws1 d ws2 w_at ws3 tm ws4 w_in ws5 room : str)
  : Prop :=
  text = a ++ t ++ ws1 ++ d ++ ws2 ++ w_at ++ ws3 ++ tm ++ ws4 ++ w_in ++ ws5
           ++ room /\
  lower t = lower (L "schedule a meeting on") /\
  lower w_at = lower (L "at") /\ lower w_in = lower (L "in") /\
  spaces ws1 /\ spaces ws2 /\ spaces ws3 /\ spaces ws4 /\ spaces ws5 /\
  date_shaped d = true /\ time_shaped tm = true /\
  (room <> [] /\ forallb (fun c => negb (is_code 10 c)) room = true) /\
  ends_with_word a = false.

(** A non-empty run of digits. *)
Definition digits (ds : str) : Prop := ds <> [] /\ forallb is_decimal ds = true.

(** The optional article of the fifth template, [(?:an |the )?]. *)
Definition article_pattern : regex := Opt (Alt (Lit "an ") (Lit "the ")).

(** [text] splits into [a], "report ", an optional article, "office
    issue", digits, "for the", a department and the word "department", with
    whitespace between them and a rest [b]; no word character stands just
    before "report" or just after "department". *)
Definition report_at (text a t1 art t2 ws1 code ws2 t3 ws3 dept ws4 t4 b : str)
  : Prop :=
  text = a ++ t1 ++ art ++ t2 ++ ws1 ++ code ++ ws2 ++ t3 ++ ws3 ++ dept ++ ws4
           ++ t4 ++ b /\
  lower t1 = lower (L "report ") /\
  (lower art = lower (L "an ") \/ lower art = lower (L "the ") \/ art = []) /\
  lower t2 = lower (L "office issue") /\
  lower t3 = lower (L "for the") /\ lower t4 = lower (L "department") /\
  spaces ws1 /\ spaces ws2 /\ spaces ws3 /\ spaces ws4 /\
  digits code /\
  (dept <> [] /\ forallb (fun c => negb (is_code 10 c)) dept = true) /\
  ends_with_word a = false /\ starts_with_word b = false.

(** A query whose first Integer-kind capture has 641 digits, one more than
    the lowest limit that the interpreter can be set to. *)
Definition refused_bonus_query : str :=
  L "performance bonus for employee " ++ repeat "1"%char 641 ++ L " for 2025".

(** ** Characters of the argument text *)


(** ** Parts of the fifth template *)

(** The group of the department, [(.+?)], and what follows it,
    [\s+department\b]. *)
Definition department_group : regex := Group (Rep CAny 1 None false).

Definition department_tail : regex :=
  Cat (plus CSpace) (Cat (Lit "department") WordB).

(** * Properties *)

(** ** Characters and stripping *)

Ltac each_char c :=
  destruct c as [[] [] [] [] [] [] [] []]; vm_compute; try reflexivity;
  try discriminate; try (intros; discriminate); try (intros; reflexivity).

Lemma decimal_not_space c : is_decimal c = true -> is_space c = false.
Proof. each_char c. Qed.

Lemma decimal_not_sign c :
  is_decimal c = true -> is_code 45 c = false /\ is_code 43 c = false.
Proof. each_char c; intros; split; reflexivity. Qed.

Lemma digit_value_lt c : is_decimal c = true -> (digit_value c < 10)%N.
Proof. each_char c. Qed.

Lemma forallb_app_iff {A} (f : A -> bool) (u v : list A) :
  forallb f (u ++ v) = true <-> forallb f u = true /\ forallb f v = true.
Proof. rewrite forallb_app, andb_true_iff. tauto. Qed.

Lemma rev_append_nil {A} (l : list A) : rev_append l [] = rev l.
Proof. symmetry. apply rev_alt. Qed.

Lemma lstrip_spaces s : forallb is_space s = true -> lstrip s = [].
Proof.
  induction s as [|c s IH]; simpl; [reflexivity|].
  intro H. apply andb_true_iff in H as [Hc Hs]. rewrite Hc. auto.
Qed.

Lemma strip_spaces s : forallb is_space s = true -> strip s = [].
Proof. intro H. unfold strip. rewrite (lstrip_spaces s H). reflexivity. Qed.

Lemma lstrip_length s : length (lstrip s) <= length s.
Proof.
  induction s as [|c s IH]; simpl; [lia|].
  destruct (is_space c); simpl; lia.
Qed.

Lemma strip_length s : length (strip s) <= length s.
Proof.
  unfold strip, rstrip. rewrite !rev_append_nil, length_rev.
  etransitivity; [apply lstrip_length|]. rewrite length_rev.
  apply lstrip_length.
Qed.

Lemma lstrip_nospace s :
  forallb (fun c => negb (is_space c)) s = true -> lstrip s = s.
Proof.
  destruct s as [|c s]; simpl; [reflexivity|].
  intro H. apply andb_true_iff in H as [Hc _].
  apply negb_true_iff in Hc. rewrite Hc. reflexivity.
Qed.

Lemma strip_nospace s :
  forallb (fun c => negb (is_space c)) s = true -> strip s = s.
Proof.
  intro H. unfold strip, rstrip. rewrite (lstrip_nospace s H).
  rewrite !rev_append_nil.
  rewrite lstrip_nospace; [apply rev_involutive|].
  rewrite forallb_forall in *. intros x Hx. apply H. now apply in_rev.
Qed.

Lemma digits_nospace w :
  forallb is_decimal w = true ->
  forallb (fun c => negb (is_space c)) w = true.
Proof.
  rewrite !forallb_forall. intros H x Hx.
  now rewrite (decimal_not_space x (H x Hx)).
Qed.

(** ** Integer conversion *)

Lemma denoted_app u v :
  denoted (u ++ v) = (denoted u * 10 ^ N.of_nat (length v) + denoted v)%N.
Proof.
  induction u as [|c u IH]; [simpl; lia|].
  cbn [app denoted]. rewrite IH, length_app, Nat2N.inj_add, N.pow_add_r. ring.
Qed.

Lemma denoted_snoc u c :
  denoted (u ++ [c]) = (10 * denoted u + digit_value c)%N.
Proof.
  rewrite denoted_app. cbn [length denoted].
  change (N.of_nat 1) with 1%N. change (N.of_nat 0) with 0%N.
  rewrite N.pow_1_r, N.pow_0_r. ring.
Qed.

Lemma denoted_lt w :
  forallb is_decimal w = true -> (denoted w < 10 ^ N.of_nat (length w))%N.
Proof.
  induction w as [|c w IH]; simpl length; intro H.
  - simpl. lia.
  - simpl in H. apply andb_true_iff in H as [Hc Hw].
    specialize (IH Hw). pose proof (digit_value_lt c Hc).
    cbn [denoted]. rewrite Nat2N.inj_succ, N.pow_succ_r'. nia.
Qed.

Lemma int_digits_run w : forall b n,
  forallb is_decimal w = true -> b = true \/ w <> [] ->
  int_digits w b n = Some (n + length w).
Proof.
  induction w as [|c w IH]; intros b n H Hb.
  - destruct Hb as [->|Hb]; [|congruence]. simpl. f_equal. lia.
  - simpl in H. apply andb_true_iff in H as [Hc Hw].
    cbn [int_digits]. rewrite Hc, (IH true _ Hw (or_introl eq_refl)).
    f_equal. simpl. lia.
Qed.

Lemma int_value_run w : forall acc,
  forallb is_decimal w = true ->
  int_value w acc = (acc * 10 ^ N.of_nat (length w) + denoted w)%N.
Proof.
  induction w as [|c w IH]; intros acc H.
  - simpl. lia.
  - simpl in H. apply andb_true_iff in H as [Hc Hw].
    cbn [int_value]. rewrite Hc, (IH _ Hw).
    cbn [length denoted]. rewrite Nat2N.inj_succ, N.pow_succ_r'. ring.
Qed.

(** [int] on a non-empty run of digits: the denoted integer, unless the run
    is longer than the interpreter allows. *)
Lemma py_int_digits lim w :
  w <> [] -> forallb is_decimal w = true ->
  py_int lim w =
    if over_limit lim (length w) (length w) then None
    else Some (Z.of_N (denoted w)).
Proof.
  intros Hne Hd. unfold py_int.
  rewrite (strip_nospace w (digits_nospace w Hd)).
  destruct w as [|c w]; [congruence|].
  pose proof Hd as Hd'. simpl in Hd'. apply andb_true_iff in Hd' as [Hc _].
  destruct (decimal_not_sign c Hc) as [H1 H2]. rewrite H1, H2.
  rewrite (int_digits_run (c :: w) false 0 Hd) by (right; discriminate).
  rewrite (int_value_run (c :: w) 0%N Hd).
  simpl Nat.add. rewrite N.mul_0_l, N.add_0_l. reflexivity.
Qed.

(** ** The matcher *)

Lemma eq_ascii_true a b : eq_ascii a b = true -> a = b.
Proof.
  unfold eq_ascii, code. intro H. apply N.eqb_eq in H.
  rewrite <- (ascii_N_embedding a), <- (ascii_N_embedding b). now f_equal.
Qed.

Lemma eq_ascii_refl a : eq_ascii a a = true.
Proof. apply N.eqb_refl. Qed.

Lemma valid_step text c w s' :
  valid text c -> rest c = w ++ s' ->
  skipn (pos c + length w) text = s' /\ slice text (pos c) (pos c + length w) = w.
Proof.
  unfold valid, slice. intros Hv Hr. split.
  - rewrite Nat.add_comm, <- skipn_skipn, Hv, Hr, skipn_app, skipn_all.
    now rewrite Nat.sub_diag.
  - replace (pos c + length w - pos c) with (length w) by lia.
    rewrite Hv, Hr, firstn_app, firstn_all, Nat.sub_diag. simpl.
    apply app_nil_r.
Qed.

Lemma lit_sound s : forall c c',
  lit s c = Some c' ->
  exists w, rest c = w ++ rest c' /\ pos c' = pos c + length w /\
            map to_lower w = map to_lower s.
Proof.
  induction s as [|x s IH]; intros c c' H; simpl in H.
  - injection H as <-. exists []. simpl. auto.
  - destruct (rest c) as [|y r] eqn:Hr; [discriminate|].
    destruct (eq_ascii (to_lower y) (to_lower x)) eqn:He; [|discriminate].
    apply IH in H as (w & H1 & H2 & H3). simpl in H1, H2.
    exists (y :: w). simpl. rewrite H1, H2, H3, (eq_ascii_true _ _ He).
    repeat split; lia.
Qed.

Lemma lit_complete s : forall c w s',
  rest c = w ++ s' -> map to_lower w = map to_lower s ->
  exists c', lit s c = Some c' /\ rest c' = s' /\ pos c' = pos c + length w.
Proof.
  induction s as [|x s IH]; intros c w s' Hr Hm.
  - destruct w; [|discriminate]. exists c. simpl. auto.
  - destruct w as [|y w]; [discriminate|]. simpl in Hm.
    injection Hm as Hy Hw. simpl. rewrite Hr. simpl.
    rewrite Hy, eq_ascii_refl.
    destruct (IH (mkCursor (S (pos c)) (Some y) (w ++ s')) w s' eq_refl Hw)
      as (c' & H1 & H2 & H3).
    exists c'. simpl in H3. repeat split; auto. lia.
Qed.

(** The [i]-th cursor of a walk has consumed [i] characters of the class. *)
Lemma walk_nth f i : forall n p pv s c',
  nth_error (walk f n p pv s) i = Some c' ->
  exists w, s = w ++ rest c' /\ length w = i /\ forallb f w = true /\
            pos c' = p + i /\ i <= n.
Proof.
  induction i as [|i IH]; intros n p pv s c' H.
  - assert (Hc : c' = mkCursor p pv s)
      by (destruct n; simpl in H; congruence).
    subst c'. exists []. simpl. repeat split; lia.
  - destruct n as [|n]; [simpl in H; destruct i; discriminate|].
    simpl in H. destruct s as [|x s]; [destruct i; discriminate|].
    destruct (f x) eqn:Hx; [|destruct i; discriminate].
    apply IH in H as (w & H1 & H2 & H3 & H4 & H5).
    exists (x :: w). simpl. rewrite Hx, H3, H2, <- H1.
    repeat split; lia.
Qed.

Lemma walk_complete f w : forall n p pv s',
  forallb f w = true -> length w <= n ->
  exists c', nth_error (walk f n p pv (w ++ s')) (length w) = Some c' /\
             rest c' = s' /\ pos c' = p + length w.
Proof.
  induction w as [|x w IH]; intros n p pv s' Hf Hn.
  - exists (mkCursor p pv s'). destruct n; simpl; repeat split; lia.
  - simpl in Hf. apply andb_true_iff in Hf as [Hx Hw].
    destruct n as [|n]; [simpl in Hn; lia|]. simpl in Hn.
    destruct (IH n (S p) (Some x) s' Hw ltac:(lia)) as (c' & H1 & H2 & H3).
    exists c'. simpl. rewrite Hx. repeat split; auto. lia.
Qed.

Lemma in_skipn_nth {A} (x : A) lo l :
  In x (skipn lo l) <-> exists i, lo <= i /\ nth_error l i = Some x.
Proof.
  split.
  - intro H. apply In_nth_error in H as [i H].
    rewrite nth_error_skipn in H. exists (lo + i). split; [lia|auto].
  - intros (i & Hi & H). apply nth_error_In with (n := i - lo).
    rewrite nth_error_skipn. now replace (lo + (i - lo)) with i by lia.
Qed.

(** What a repetition consumes. *)
Lemma rep_sound cs lo hi greedy base st st' :
  In st' (ms (Rep cs lo hi greedy) base st) ->
  snd st' = snd st /\
  exists w, rest (fst st) = w ++ rest (fst st') /\ lo <= length w /\
            forallb (cset_mem cs) w = true /\
            pos (fst st') = pos (fst st) + length w.
Proof.
  simpl. rewrite in_map_iff. intros (c' & <- & H). split; [reflexivity|].
  assert (H' : In c' (skipn lo (walk (cset_mem cs)
                 match hi with Some h => h | None => length (rest (fst st)) end
                 (pos (fst st)) (prev (fst st)) (rest (fst st))))).
  { destruct greedy; [rewrite rev_append_nil in H; now apply in_rev|assumption]. }
  apply in_skipn_nth in H' as (i & Hi & H').
  apply walk_nth in H' as (w & H1 & H2 & H3 & H4 & _).
  exists w. simpl. rewrite H2. auto.
Qed.

Lemma rep_complete cs lo greedy base st w s' :
  rest (fst st) = w ++ s' -> lo <= length w ->
  forallb (cset_mem cs) w = true ->
  exists st', In st' (ms (Rep cs lo None greedy) base st) /\
              rest (fst st') = s' /\ snd st' = snd st /\
              pos (fst st') = pos (fst st) + length w.
Proof.
  intros Hr Hlo Hf.
  destruct (walk_complete (cset_mem cs) w (length (rest (fst st)))
              (pos (fst st)) (prev (fst st)) s' Hf) as (c' & H1 & H2 & H3).
  { rewrite Hr, length_app. lia. }
  exists (c', snd st). simpl. repeat split; auto.
  apply (in_map (fun c : cursor => (c, snd st))). rewrite <- Hr in H1.
  assert (In c' (skipn lo (walk (cset_mem cs) (length (rest (fst st)))
                  (pos (fst st)) (prev (fst st)) (rest (fst st))))).
  { apply in_skipn_nth. eauto. }
  destruct greedy; [rewrite rev_append_nil; now apply -> in_rev|assumption].
Qed.

(** ** Groups *)

Lemma gkinds_length r : length (gkinds r) = ngroups r.
Proof.
  induction r; simpl; try reflexivity;
    try (rewrite length_app; congruence); try apply repeat_length.
  now rewrite IHr.
Qed.

Lemma nth_repeat_same {A} (x : A) n k : nth k (repeat x n) x = x.
Proof.
  revert k. induction n as [|n IH]; intros [|k]; simpl; auto.
Qed.

Lemma mark_of_cons_eq i sp mk : mark_of i ((i, sp) :: mk) = Some sp.
Proof. simpl. now rewrite Nat.eqb_refl. Qed.

Lemma mark_of_cons_ne j i sp mk :
  j <> i -> mark_of j ((i, sp) :: mk) = mark_of j mk.
Proof. intro H. simpl. now destruct (Nat.eqb_spec j i). Qed.

Lemma last_cons {A} (l : list A) : forall x d, last (x :: l) d = last l x.
Proof.
  induction l as [|y l IH]; intros x d; [reflexivity|].
  change (last (x :: y :: l) d) with (last (y :: l) d).
  now rewrite (IH y d), (IH y x).
Qed.

Section Invariant.

Variable text : str.

Lemma ms_post_refl r base st :
  ngroups r = 0 \/ (forall k, nth k (gkinds r) GOptional = GOptional) ->
  valid text (fst st) -> ms_post text r base st st.
Proof.
  intros Hg Hv. repeat split; auto.
  intros k Hk. destruct Hg as [Hg|Hg]; [lia|]. now rewrite Hg.
Qed.

Lemma ms_post_move r base st c' w :
  ngroups r = 0 -> valid text (fst st) ->
  rest (fst st) = w ++ rest c' -> pos c' = pos (fst st) + length w ->
  ms_post text r base st (c', snd st).
Proof.
  intros Hg Hv Hr Hp. destruct (valid_step text (fst st) w (rest c') Hv Hr) as [H1 _].
  repeat split; simpl; try lia.
  unfold valid. now rewrite Hp.
Qed.

Lemma ms_inv r : forall base st st',
  In st' (ms r base st) -> valid text (fst st) -> ms_post text r base st st'.
Proof.
  induction r as [s|cs lo hi gr| | |r1 IH1 r2 IH2|r1 IH1 r2 IH2|r IH|r IH];
    intros base st st' Hin Hv.
  - (* Lit *)
    simpl in Hin. destruct (lit (L s) (fst st)) as [c'|] eqn:Hl; [|contradiction].
    destruct Hin as [<-|[]].
    apply lit_sound in Hl as (w & H1 & H2 & _).
    now apply ms_post_move with (w := w).
  - (* Rep *)
    apply rep_sound in Hin as (Hm & w & H1 & _ & _ & H2).
    destruct st' as [c' mk']. simpl in *. subst mk'.
    now apply ms_post_move with (w := w).
  - (* WordB *)
    simpl in Hin. destruct (at_boundary (fst st)); [|contradiction].
    destruct Hin as [<-|[]]. apply ms_post_refl; auto.
  - (* Eos *)
    simpl in Hin. destruct (at_end (fst st)); [|contradiction].
    destruct Hin as [<-|[]]. apply ms_post_refl; auto.
  - (* Cat *)
    simpl in Hin. apply in_flat_map in Hin as (s1 & Hin1 & Hin2).
    destruct (IH1 _ _ _ Hin1 Hv) as (V1 & P1 & F1 & G1).
    destruct (IH2 _ _ _ Hin2 V1) as (V2 & P2 & F2 & G2).
    repeat split; auto; [lia| |].
    + intros j Hj. simpl in Hj. rewrite F2 by lia. apply F1. lia.
    + intros k Hk. simpl in Hk. simpl gkinds.
      destruct (Nat.lt_ge_cases k (ngroups r1)) as [Hlt|Hge].
      * rewrite app_nth1 by (rewrite gkinds_length; lia).
        rewrite F2 by lia. now apply G1.
      * rewrite app_nth2 by (rewrite gkinds_length; lia).
        rewrite gkinds_length.
        replace (S (base + k)) with (S (base + ngroups r1 + (k - ngroups r1)))
          by lia.
        apply G2. lia.
  - (* Alt *)
    simpl in Hin. apply in_app_or in Hin as [Hin|Hin].
    + destruct (IH1 _ _ _ Hin Hv) as (V1 & P1 & F1 & _).
      repeat split; auto.
      * intros j Hj. simpl in Hj. apply F1. lia.
      * intros k _. simpl gkinds. now rewrite nth_repeat_same.
    + destruct (IH2 _ _ _ Hin Hv) as (V1 & P1 & F1 & _).
      repeat split; auto.
      * intros j Hj. simpl in Hj. apply F1. lia.
      * intros k _. simpl gkinds. now rewrite nth_repeat_same.
  - (* Opt *)
    simpl in Hin. apply in_app_or in Hin as [Hin|[<-|[]]].
    + destruct (IH _ _ _ Hin Hv) as (V1 & P1 & F1 & _).
      repeat split; auto.
      intros k _. simpl gkinds. now rewrite nth_repeat_same.
    + apply ms_post_refl; auto. right. intro k. simpl.
      apply nth_repeat_same.
  - (* Group *)
    simpl in Hin. apply in_map_iff in Hin as (s1 & <- & Hin).
    destruct (IH _ _ _ Hin Hv) as (V1 & P1 & F1 & G1).
    repeat split; auto.
    + intros j Hj. simpl in Hj. simpl snd.
      rewrite mark_of_cons_ne by lia. apply F1. lia.
    + intros [|k] Hk; simpl in Hk.
      * simpl snd. rewrite Nat.add_0_r, mark_of_cons_eq. simpl nth.
        destruct r as [s|cs [|lo] hi gr| | |r1 r2|r1 r2|r|r];
          try (simpl; eauto).
        apply rep_sound in Hin as (_ & w & H1 & H2 & H3 & H4).
        destruct (valid_step text (fst st) w _ Hv H1) as [_ Hs].
        exists (pos (fst st)), (pos (fst st) + length w).
        simpl fst. rewrite Hs.
        split; [do 2 f_equal; exact H4|].
        split; auto. destruct w; [simpl in H2; lia|discriminate].
      * simpl snd. rewrite mark_of_cons_ne by lia. simpl nth.
        replace (S (base + S k)) with (S (S base + k)) by lia.
        apply G1. lia.
Qed.

Lemma skipn_cons_inv {A} p (l : list A) x s :
  skipn p l = x :: s -> skipn (S p) l = s.
Proof.
  intro H. replace (S p) with (1 + p) by lia.
  now rewrite <- skipn_skipn, H.
Qed.

(** The match that [scan] reports starts at a cursor of the text and is the
    first way the pattern matches there; no match starts further left. *)
Lemma scan_sound r : forall s p pv p' st,
  skipn p text = s -> scan r p pv s = Some (p', st) ->
  exists c l, valid text c /\ pos c = p' /\ ms r 0 (c, []) = st :: l.
Proof.
  induction s as [|x s IH]; intros p pv p' st Hs H; simpl in H.
  - destruct (ms r 0 (mkCursor p pv [], [])) as [|st0 l] eqn:Hm; [discriminate|].
    injection H as <- <-. exists (mkCursor p pv []), l. auto.
  - destruct (ms r 0 (mkCursor p pv (x :: s), [])) as [|st0 l] eqn:Hm.
    + apply IH in H; auto. now apply skipn_cons_inv in Hs.
    + injection H as <- <-. exists (mkCursor p pv (x :: s)), l. auto.
Qed.

Lemma scan_complete r : forall u p pv s,
  ms r 0 (mkCursor (p + length u) (last (map Some u) pv) s, []) <> [] ->
  scan r p pv (u ++ s) <> None.
Proof.
  induction u as [|x u IH]; intros p pv s H.
  - simpl in *. rewrite Nat.add_0_r in H.
    destruct s; simpl;
      destruct (ms r 0 _) eqn:E; congruence.
  - simpl app. simpl scan.
    destruct (ms r 0 (mkCursor p pv (x :: u ++ s), [])); [|discriminate].
    apply IH. simpl length in H. rewrite Nat.add_succ_r in H.
    change (map Some (x :: u)) with (Some x :: map Some u) in H.
    now rewrite last_cons in H.
Qed.

End Invariant.

Lemma re_search_inv r text m :
  re_search r text = Some m ->
  m_string m = text /\ m_ngroups m = ngroups r /\
  forall k, k < ngroups r ->
            group_ok (nth k (gkinds r) GOptional) (group m (S k)).
Proof.
  unfold re_search. destruct (scan r 0 None text) as [[p st]|] eqn:Hs; [|discriminate].
  intro H. injection H as <-. simpl. repeat split.
  intros k Hk. apply scan_sound with (text := text) in Hs as (c & l & Hv & _ & Hm);
    [|reflexivity].
  assert (Hin : In st (ms r 0 (c, []))) by (rewrite Hm; now left).
  destruct (ms_inv text r 0 (c, []) st Hin Hv) as (_ & _ & _ & G).
  specialize (G k Hk). unfold group. simpl m_marks. simpl m_string.
  simpl in G. destruct (nth k (gkinds r) GOptional); simpl in *.
  - destruct G as (a & b & -> & H1 & H2). eauto.
  - destruct G as (a & b & ->). eauto.
  - exact I.
Qed.

Lemma groups_length m : length (groups m) = m_ngroups m.
Proof. unfold groups. now rewrite length_map, length_seq. Qed.

Lemma groups_nth m k :
  k < m_ngroups m -> nth_error (groups m) k = Some (group m (S k)).
Proof.
  intro H. unfold groups.
  rewrite nth_error_map, nth_error_seq.
  destruct (Nat.ltb_spec k (m_ngroups m)); [reflexivity|lia].
Qed.

(** ** Decimal output *)

Lemma dec_digits_length fuel : forall n k,
  (n < 10 ^ N.of_nat k)%N -> 1 <= k -> length (dec_digits fuel n) <= k.
Proof.
  induction fuel as [|fuel IH]; intros n k Hn Hk; simpl; [lia|].
  destruct (N.ltb_spec n 10); simpl; [lia|].
  rewrite length_app. simpl.
  destruct k as [|[|k]]; [lia| |].
  - change (N.of_nat 1) with 1%N in Hn. rewrite N.pow_1_r in Hn. lia.
  - assert (length (dec_digits fuel (n / 10)) <= S k); [|lia].
    apply IH; [|lia].
    rewrite Nat2N.inj_succ, N.pow_succ_r' in Hn.
    apply N.Div0.div_lt_upper_bound. exact Hn.
Qed.

Lemma repr_N_length n k :
  (n < 10 ^ N.of_nat k)%N -> 1 <= k -> length (repr_N n) <= k.
Proof. apply dec_digits_length. Qed.

Lemma over_limit_mono lim a b :
  b <= a -> over_limit lim a a = false -> over_limit lim b b = false.
Proof.
  unfold over_limit. intros Hba H.
  destruct (Nat.ltb_spec 640 b), (Nat.ltb_spec 0 lim), (Nat.ltb_spec lim b);
    simpl; try reflexivity.
  destruct (Nat.ltb_spec 640 a), (Nat.ltb_spec 0 lim), (Nat.ltb_spec lim a);
    simpl in H; try discriminate; lia.
Qed.

(** The integer read from a run of digits that [int] accepted can be
    written back. *)
Lemma py_repr_denoted lim w :
  w <> [] -> forallb is_decimal w = true ->
  over_limit lim (length w) (length w) = false ->
  py_repr_int lim (Z.of_N (denoted w)) = Some (repr_N (denoted w)).
Proof.
  intros Hne Hd Hl. unfold py_repr_int.
  rewrite Zabs2N.id.
  destruct (Z.ltb_spec (Z.of_N (denoted w)) 0) as [Hneg|_]; [lia|].
  cbn [length app Nat.add].
  rewrite (over_limit_mono lim (length w) (length (repr_N (denoted w)))); auto.
  apply repr_N_length; [now apply denoted_lt|].
  destruct w; [congruence|simpl; lia].
Qed.

(** ** Ordered dictionaries *)

Lemma str_eqb_eq a b : str_eqb a b = true <-> a = b.
Proof.
  unfold str_eqb. destruct (list_eq_dec ascii_dec a b); split; congruence.
Qed.

Lemma str_eqb_refl a : str_eqb a a = true.
Proof. now apply str_eqb_eq. Qed.

Lemma od_set_fresh d key v :
  ~ In key (map fst d) -> od_set d key v = d ++ [(key, v)].
Proof.
  induction d as [|[k w] d IH]; simpl; intro H; [reflexivity|].
  destruct (str_eqb k key) eqn:E.
  - apply str_eqb_eq in E. tauto.
  - rewrite IH; tauto.
Qed.

Lemma nodupb_NoDup l : nodupb l = true -> NoDup l.
Proof.
  induction l as [|x l IH]; simpl; intro H; constructor;
    apply andb_true_iff in H as [H1 H2]; auto.
  intro Hin. apply negb_true_iff in H1.
  assert (existsb (str_eqb x) l = true); [|congruence].
  apply existsb_exists. exists x. split; [auto|apply str_eqb_refl].
Qed.

(** ** The argument loop *)

Lemma coerce_spec lim ps c its : forall ordered,
  Forall digits_if_int its ->
  coerce (map some_item its) ordered (mkGlobals ps lim c) =
    match find (too_long lim) its with
    | Some (key, _, _) =>
        (HTTPException 400 (L "Invalid integer for " ++ key), mkGlobals ps lim c)
    | None => (Return (fold_left store its ordered), mkGlobals ps lim c)
    end.
Proof.
  induction its as [|[[k t] w] its IH]; intros ordered Hall; [reflexivity|].
  inversion Hall as [|? ? Hd Hall']; subst.
  cbn [map some_item coerce find too_long fold_left store].
  destruct t.
  - destruct (Hd eq_refl) as [Hne Hdig].
    cbv [bind except_ValueError int_of read_limit ret raise raise_http
         g_int_max_str_digits].
    rewrite (py_int_digits lim w Hne Hdig).
    destruct (over_limit lim (length w) (length w)); [reflexivity|].
    apply IH, Hall'.
  - cbv [bind strip_of ret]. apply IH, Hall'.
Qed.

Lemma store_fresh its : forall ordered,
  NoDup (map (fun it : str * argtype * str => fst (fst it)) its) ->
  (forall it, In it its -> ~ In (fst (fst it)) (map fst ordered)) ->
  fold_left store its ordered =
    ordered ++ map (fun it : str * argtype * str =>
                      let '(k, t, w) := it in (k, value_of t w)) its.
Proof.
  induction its as [|[[k t] w] its IH]; intros ordered Hnd Hfresh; simpl.
  - now rewrite app_nil_r.
  - inversion Hnd as [|? ? Hk Hnd']; subst.
    rewrite od_set_fresh by (apply (Hfresh (k, t, w)); now left).
    rewrite IH; auto.
    + now rewrite <- app_assoc.
    + intros it Hit. rewrite map_app, in_app_iff. simpl.
      intros [H|[H|[]]].
      * apply (Hfresh it); [now right|exact H].
      * apply Hk. rewrite H. now apply (in_map (fun it => fst (fst it))).
Qed.

Lemma zip3_keys {A B C} (xs : list A) : forall (ys : list B) (zs : list C),
  length ys = length xs -> length zs = length xs ->
  map (fun it : A * B * C => fst (fst it)) (zip3 xs ys zs) = xs.
Proof.
  induction xs as [|x xs IH]; intros [|y ys] [|z zs]; simpl; intros H1 H2;
    try discriminate; try reflexivity.
  f_equal. apply IH; lia.
Qed.

Lemma zip3_some (xs : list str) : forall (ys : list argtype) (ws : list str),
  zip3 xs ys (map Some ws) = map some_item (zip3 xs ys ws).
Proof.
  induction xs as [|x xs IH]; intros [|y ys] [|w ws]; simpl; try reflexivity.
  now rewrite IH.
Qed.

(** ** Well-formed rules *)

Lemma PATTERNS_ok : forallb rule_ok PATTERNS = true.
Proof. vm_compute. reflexivity. Qed.

Lemma rule_ok_inv p :
  rule_ok p = true ->
  ngroups (pattern p) = length (arg_keys p) /\
  length (arg_types p) = length (arg_keys p) /\
  NoDup (arg_keys p) /\
  forall k, k < length (arg_keys p) ->
            kind_fits (nth k (arg_types p) T_str)
                      (nth k (gkinds (pattern p)) GOptional) = true.
Proof.
  unfold rule_ok. rewrite !andb_true_iff, !Nat.eqb_eq, forallb_forall.
  intros [[[H1 H2] H3] H4]. repeat split; auto using nodupb_NoDup.
  intros k Hk. apply H4, in_seq. lia.
Qed.

Lemma all_some (gs : list (option str)) :
  (forall g, In g gs -> exists w, g = Some w) ->
  gs = map Some
         (flat_map (fun g : option str => match g with Some w => [w] | None => [] end) gs).
Proof.
  induction gs as [|g gs IH]; intro H; [reflexivity|].
  destruct (H g (or_introl eq_refl)) as [w ->]. simpl.
  f_equal. apply IH. intros g' Hg'. apply H. now right.
Qed.

Lemma zip3_nth_error {A B C} (xs : list A) :
  forall (ys : list B) (zs : list C) k x y z,
  nth_error (zip3 xs ys zs) k = Some (x, y, z) ->
  nth_error xs k = Some x /\ nth_error ys k = Some y /\ nth_error zs k = Some z.
Proof.
  induction xs as [|x0 xs IH]; intros [|y0 ys] [|z0 zs] [|k] x y z H;
    simpl in H; try discriminate.
  - injection H as <- <- <-. auto.
  - simpl. now apply IH.
Qed.

Lemma kind_fits_group t k g :
  kind_fits t k = true -> group_ok k g ->
  exists w, g = Some w /\
            (t = T_int -> w <> [] /\ forallb is_decimal w = true).
Proof.
  destruct t, k as [[]| |]; simpl; try discriminate; intros _ H.
  - destruct H as (w & -> & H1 & H2). exists w. auto.
  - destruct H as (w & -> & _). exists w. split; [auto|discriminate].
  - destruct H as (w & -> & _). exists w. split; [auto|discriminate].
  - destruct H as (w & -> & _). exists w. split; [auto|discriminate].
  - destruct H as (w & -> & _). exists w. split; [auto|discriminate].
  - destruct H as (w & ->). exists w. split; [auto|discriminate].
Qed.

(** At a match of a well-formed rule every group has captured a text, and
    the captures of Integer-kind parameters are non-empty runs of digits. *)
Lemma captures_spec p text m :
  rule_ok p = true -> re_search (pattern p) text = Some m ->
  groups m = map Some (captures p text) /\
  length (captures p text) = length (arg_keys p) /\
  Forall digits_if_int (items p text).
Proof.
  intros Hok Hm. apply rule_ok_inv in Hok as (Hn & Ht & _ & Hk).
  destruct (re_search_inv _ _ _ Hm) as (_ & Hng & Hg).
  assert (Hgk : forall k, k < length (arg_keys p) ->
            exists w, group m (S k) = Some w /\
              (nth k (arg_types p) T_str = T_int ->
               w <> [] /\ forallb is_decimal w = true)).
  { intros k Hlt. apply kind_fits_group with (k := nth k (gkinds (pattern p)) GOptional).
    - now apply Hk.
    - apply Hg. lia. }
  assert (Hall : groups m = map Some (captures p text)).
  { unfold captures. rewrite Hm. apply all_some.
    intros g Hin. apply In_nth_error in Hin as [k Hk'].
    assert (Hlt : k < m_ngroups m).
    { rewrite <- groups_length. apply nth_error_Some. congruence. }
    rewrite groups_nth in Hk' by exact Hlt. injection Hk' as <-.
    destruct (Hgk k) as (w & Hw & _); [lia|]. eauto. }
  assert (Hlen : length (captures p text) = length (arg_keys p)).
  { rewrite <- (length_map Some), <- Hall, groups_length. lia. }
  repeat split; auto.
  apply Forall_forall. intros [[key t] w] Hin.
  apply In_nth_error in Hin as [k Hk'].
  apply zip3_nth_error in Hk' as (K1 & K2 & K3).
  assert (Hlt : k < length (arg_keys p)).
  { apply nth_error_Some. congruence. }
  destruct (Hgk k Hlt) as (w' & Hw' & Hd).
  assert (nth_error (groups m) k = Some (Some w)).
  { rewrite Hall, nth_error_map, K3. reflexivity. }
  rewrite groups_nth in H by lia. injection H as H. rewrite Hw' in H.
  injection H as ->.
  intro Hint. apply Hd. rewrite <- Hint.
  now apply nth_error_nth.
Qed.

Lemma arguments_keys p ws :
  length (arg_types p) = length (arg_keys p) ->
  length ws = length (arg_keys p) ->
  map fst (arguments_of p ws) = arg_keys p.
Proof.
  intros H1 H2. unfold arguments_of. rewrite map_map.
  rewrite <- (zip3_keys (arg_keys p) (arg_types p) ws H1 H2) at 2.
  apply map_ext. now intros [[k t] w].
Qed.

Lemma find_existsb {A} (f : A -> bool) l :
  existsb f l = false -> find f l = None.
Proof.
  induction l as [|x l IH]; simpl; [reflexivity|].
  destruct (f x); simpl; [discriminate|exact IH].
Qed.

Lemma find_existsb_true {A} (f : A -> bool) l :
  existsb f l = true -> exists x, find f l = Some x /\ In x l /\ f x = true.
Proof.
  induction l as [|x l IH]; simpl; [discriminate|].
  destruct (f x) eqn:E; simpl.
  - intros _. exists x. auto.
  - intro H. destruct (IH H) as (y & H1 & H2 & H3). exists y. auto.
Qed.

(** Writing the arguments back never fails. *)
Lemma json_items_args lim its :
  Forall digits_if_int its -> existsb (too_long lim) its = false ->
  json_items lim
    (map (fun it : str * argtype * str =>
            let '(k, t, w) := it in (k, value_of t w)) its) <> None.
Proof.
  induction its as [|[[k t] w] its IH]; intros Hall Hex; [discriminate|].
  inversion Hall as [|? ? Hd Hall']; subst.
  simpl in Hex. apply orb_false_iff in Hex as [Hw Hex].
  specialize (IH Hall' Hex). cbn [map json_items].
  destruct (json_items lim _); [|congruence].
  destruct t; cbn [value_of json_value]; [|discriminate].
  destruct (Hd eq_refl) as [Hne Hdig].
  rewrite (py_repr_denoted lim w Hne Hdig Hw). discriminate.
Qed.

Lemma json_dumps_args lim p text :
  Forall digits_if_int (items p text) ->
  digits_over_limit lim p text = false ->
  exists args, json_dumps lim (arguments_of p (captures p text)) = Some args.
Proof.
  intros Hall Hex. unfold json_dumps, arguments_of.
  pose proof (json_items_args lim _ Hall Hex) as H. unfold items in H.
  destruct (json_items lim _); [eauto|congruence].
Qed.

(** ** One request *)

Lemma for_patterns_none ps text g :
  matching_rule ps text = None -> for_patterns ps text g = (Return None, g).
Proof.
  unfold matching_rule. induction ps as [|p ps IH]; simpl; [reflexivity|].
  unfold matches at 1. destruct (re_search (pattern p) text); [discriminate|].
  exact IH.
Qed.

Lemma for_patterns_first ps text g p :
  matching_rule ps text = Some p ->
  In p ps /\
  exists m, re_search (pattern p) text = Some m /\
            for_patterns ps text g = (r <- on_match p m ;; ret (Some r)) g.
Proof.
  unfold matching_rule. induction ps as [|p0 ps IH]; simpl; [discriminate|].
  unfold matches at 1.
  destruct (re_search (pattern p0) text) as [m|] eqn:Hm.
  - intro H. injection H as <-. split; [now left|]. exists m. auto.
  - intro H. destruct (IH H) as (Hin & m & H1 & H2). split; [now right|].
    exists m. auto.
Qed.


(** What the loop body does for a well-formed rule that matched. *)
Lemma on_match_spec p text m ps lim c :
  rule_ok p = true -> re_search (pattern p) text = Some m ->
  on_match p m (mkGlobals ps lim c) =
    match find (too_long lim) (items p text) with
    | Some (key, _, _) =>
        (HTTPException 400 (L "Invalid integer for " ++ key), mkGlobals ps lim c)
    | None =>
        build_response (name p) (arguments_of p (captures p text))
                       (mkGlobals ps lim c)
    end.
Proof.
  intros Hok Hm.
  destruct (captures_spec p text m Hok Hm) as (Hg & Hlen & Hall).
  destruct (rule_ok_inv p Hok) as (Hn & Ht & Hnd & _).
  unfold on_match. rewrite groups_length.
  destruct (re_search_inv _ _ _ Hm) as (_ & -> & _).
  rewrite Hn, Nat.eqb_refl. cbn [negb].
  rewrite Hg, zip3_some. unfold bind at 1.
  fold (items p text). rewrite (coerce_spec lim ps c (items p text) [] Hall).
  destruct (find (too_long lim) (items p text)) as [[[key t] w]|]; [reflexivity|].
  rewrite store_fresh; [reflexivity| |intros it _ []].
  unfold items. now rewrite zip3_keys.
Qed.

Lemma execute_nonempty (q : str) g :
  q <> [] ->
  execute (Some q) g =
    (r <- for_patterns (g_PATTERNS g) (strip q) ;;
     match r with
     | Some resp => ret resp
     | None => fallback (strip q)
     end) g.
Proof. destruct q; [congruence|reflexivity]. Qed.

(** The fallback: the search leaves its pattern in the cache, and the rest
    runs in that state. *)
Lemma fallback_eq text g :
  fallback text g =
    match re_search fallback_pattern text with
    | Some m =>
        (ticket_id <- int_of (group m 1) ;;
         build_response (L "get_ticket_status") [(L "ticket_id", VInt ticket_id)])
          (compiled fallback_text re_IGNORECASE g)
    | None =>
        (HTTPException 400 could_not_map, compiled fallback_text re_IGNORECASE g)
    end.
Proof.
  unfold fallback. unfold bind at 1. unfold re_module_search.
  destruct (re_search fallback_pattern text); reflexivity.
Qed.

Lemma no_rule_on_empty : matching_rule PATTERNS [] = None.
Proof. vm_compute. reflexivity. Qed.

Lemma matching_rule_ok ps text p :
  forallb rule_ok ps = true -> matching_rule ps text = Some p ->
  In p ps /\ rule_ok p = true.
Proof.
  intros Hok H. apply find_some in H as [Hin _]. split; [exact Hin|].
  rewrite forallb_forall in Hok. now apply Hok.
Qed.

(** The outcome of a request whose text some rule matches. *)
Lemma route_primary lim q p :
  matching_rule PATTERNS (strip q) = Some p ->
  q <> [] /\ rule_ok p = true /\
  Forall digits_if_int (items p (strip q)) /\
  length (captures p (strip q)) = length (arg_keys p) /\
  route lim q =
    match find (too_long lim) (items p (strip q)) with
    | Some (key, _, _) => HTTPException 400 (invalid_integer key)
    | None =>
        match json_dumps lim (arguments_of p (captures p (strip q))) with
        | Some args => Return (mkResponse (name p) args)
        | None => Uncaught ValueError
        end
    end.
Proof.
  intro Hp.
  assert (Hq : q <> []).
  { intros ->. change (strip []) with (@nil ascii) in Hp.
    rewrite no_rule_on_empty in Hp. discriminate. }
  destruct (matching_rule_ok _ _ _ PATTERNS_ok Hp) as [Hin Hok].
  destruct (for_patterns_first PATTERNS (strip q) (boot lim) p Hp)
    as (_ & m & Hm & Hfor).
  destruct (captures_spec p (strip q) m Hok Hm) as (_ & Hlen & Hall).
  repeat split; auto.
  unfold route. rewrite (execute_nonempty q (boot lim) Hq).
  unfold bind at 1. cbn [boot g_PATTERNS]. fold (boot lim). rewrite Hfor.
  unfold bind at 1. unfold boot.
  rewrite (on_match_spec p (strip q) m PATTERNS lim _ Hok Hm).
  destruct (find (too_long lim) (items p (strip q))) as [[[key t] w]|];
    [reflexivity|].
  cbv [build_response bind read_limit ret raise g_int_max_str_digits].
  destruct (json_dumps lim _); reflexivity.
Qed.

(** The outcome of a request that no rule matches. *)
Lemma route_fallback lim q :
  q <> [] -> matching_rule PATTERNS (strip q) = None ->
  route lim q = fst (fallback (strip q) (boot lim)).
Proof.
  intros Hq Hp. unfold route. rewrite (execute_nonempty q (boot lim) Hq).
  unfold bind at 1. cbn [boot g_PATTERNS]. fold (boot lim).
  now rewrite (for_patterns_none PATTERNS (strip q) (boot lim) Hp).
Qed.

Lemma slice_length s a b : length (slice s a b) <= length s.
Proof.
  unfold slice. rewrite length_firstn, length_skipn. lia.
Qed.

Lemma captures_short p text w :
  In w (captures p text) -> length w <= length text.
Proof.
  unfold captures. destruct (re_search (pattern p) text) as [m|] eqn:Hm;
    [|contradiction].
  rewrite in_flat_map. intros (g & Hg & Hw).
  destruct g as [w'|]; [|contradiction]. destruct Hw as [<-|[]].
  unfold groups in Hg. apply in_map_iff in Hg as (i & Hi & _).
  unfold group in Hi. destruct (mark_of i (m_marks m)) as [[a b]|]; [|discriminate].
  injection Hi as <-. destruct (re_search_inv _ _ _ Hm) as (-> & _).
  apply slice_length.
Qed.

Lemma zip3_in_third {A B C} (xs : list A) :
  forall (ys : list B) (zs : list C) x y z,
  In (x, y, z) (zip3 xs ys zs) -> In z zs.
Proof.
  induction xs as [|x0 xs IH]; intros [|y0 ys] [|z0 zs] x y z H;
    simpl in H; try contradiction.
  destruct H as [H|H]; [injection H as _ _ ->; now left|].
  right. eapply IH; eauto.
Qed.

(** No capture is too long when the limit is off or the query is within it. *)
Lemma within_limit lim q p :
  lim = 0 \/ length q <= lim -> digits_over_limit lim p (strip q) = false.
Proof.
  intro H. unfold digits_over_limit.
  destruct (existsb (too_long lim) (items p (strip q))) eqn:E; [|reflexivity].
  apply existsb_exists in E as ([[k t] w] & Hin & Hl).
  apply zip3_in_third, captures_short in Hin.
  pose proof (strip_length q).
  destruct t; [|discriminate]. simpl in Hl. unfold over_limit in Hl.
  destruct (Nat.ltb_spec 0 lim), (Nat.ltb_spec lim (length w));
    rewrite ?andb_false_r in Hl; try discriminate; lia.
Qed.

(** ** What a request reads and what it changes *)




































(** C7.  A query whose trimmed text is not empty, that no rule of the table
    matches and in which the fallback pattern is not found either, ends in
    HTTP 400 with the "could not map" detail; no descriptor is returned. *)
Theorem no_rule_matched (lim : nat) (q : str) :
  strip q <> [] ->
  matching_rule PATTERNS (strip q) = None ->
  re_search fallback_pattern (strip q) = None ->
  route lim q = HTTPException 400 could_not_map.
Proof.
  intros Hne Hp Hf.
  assert (Hq : q <> []) by (intros ->; now apply Hne).
  now rewrite (route_fallback lim q Hq Hp), fallback_eq, Hf.
Qed.

Lemma no_rule_matched_witness :
  route default_int_max_str_digits (L "hello world")
  = HTTPException 400 could_not_map.
Proof.
  apply (no_rule_matched default_int_max_str_digits (L "hello world"));
    vm_compute; congruence.
Defined.

(** C2, as the code has it.  A request without [q], or with the empty [q],
    ends in HTTP 400 "Missing query parameter q".  A [q] that is not empty
    but holds only whitespace is stripped and tried against the rules, and
    ends in HTTP 400 with the "could not map" detail.  None of them returns
    a descriptor. *)
Theorem empty_or_blank_query (lim : nat) :
  fst (execute None (boot lim)) = HTTPException 400 missing_q /\
  fst (execute (Some []) (boot lim)) = HTTPException 400 missing_q /\
  forall q : str,
    q <> [] -> forallb is_space q = true ->
    route lim q = HTTPException 400 could_not_map.
Proof.
  split; [reflexivity|]. split; [reflexivity|].
  intros q Hq Hs.
  assert (Ht : strip q = []) by now apply strip_spaces.
  rewrite (route_fallback lim q Hq); rewrite Ht; [reflexivity|].
  apply no_rule_on_empty.
Qed.

Lemma empty_or_blank_query_witness :
  route default_int_max_str_digits (L "   ") = HTTPException 400 could_not_map.
Proof.
  apply (proj2 (proj2 (empty_or_blank_query default_int_max_str_digits)));
    [discriminate|reflexivity].
Defined.

(** C2 as stated fails: the one-space query is whitespace only, yet the
    answer is not "Missing query parameter q". *)
Lemma blank_query_is_not_missing :
  forallb is_space (L " ") = true /\
  route default_int_max_str_digits (L " ") = HTTPException 400 could_not_map /\
  route default_int_max_str_digits (L " ") <> HTTPException 400 missing_q.
Proof.
  split; [reflexivity|]. split; [reflexivity|].
  vm_compute. discriminate.
Qed.

Lemma missing_q_ne key : missing_q <> invalid_integer key.
Proof. intro H. vm_compute in H. discriminate. Qed.

(** How the fallback can end. *)
Lemma fallback_outcome lim text :
  (exists resp, fst (fallback text (boot lim)) = Return resp) \/
  (exists e, fst (fallback text (boot lim)) = Uncaught e) \/
  fst (fallback text (boot lim)) = HTTPException 400 could_not_map.
Proof.
  rewrite fallback_eq. destruct (re_search fallback_pattern text) as [m|];
    [|right; right; reflexivity].
  cbv [bind int_of read_limit build_response ret raise boot compiled
       g_int_max_str_digits].
  destruct (group m 1) as [w|]; [|right; left; eexists; reflexivity].
  destruct (py_int lim w) as [z|]; [|right; left; eexists; reflexivity].
  destruct (json_dumps lim _);
    [left; eexists; reflexivity|right; left; eexists; reflexivity].
Qed.

Lemma od_get_arguments keys : forall types (ws : list str) k key t w,
  NoDup keys ->
  nth_error keys k = Some key -> nth_error types k = Some t ->
  nth_error ws k = Some w ->
  od_get (map (fun it : str * argtype * str =>
                 let '(k, t, w) := it in (k, value_of t w))
              (zip3 keys types ws)) key = Some (value_of t w).
Proof.
  induction keys as [|k0 keys IH]; intros [|t0 types] [|w0 ws] [|k] key t w Hnd H1 H2 H3;
    simpl in *; try discriminate.
  - injection H1 as ->. injection H2 as ->. injection H3 as ->.
    now rewrite str_eqb_refl.
  - inversion Hnd as [|? ? Hk0 Hnd']; subst.
    destruct (str_eqb k0 key) eqn:E.
    + apply str_eqb_eq in E. subst. exfalso. apply Hk0.
      eapply nth_error_In; eauto.
    + eapply IH; eauto.
Qed.

Lemma zip3_nth_error_intro {A B C} (xs : list A) :
  forall (ys : list B) (zs : list C) k x y z,
  nth_error xs k = Some x -> nth_error ys k = Some y ->
  nth_error zs k = Some z ->
  nth_error (zip3 xs ys zs) k = Some (x, y, z).
Proof.
  induction xs as [|x0 xs IH]; intros [|y0 ys] [|z0 zs] [|k] x y z H1 H2 H3;
    simpl in *; try discriminate.
  - congruence.
  - now apply IH.
Qed.

(** C4.  The second scenario of the spec: the query is answered with
    [schedule_meeting] and the argument string
    [{"date": "2025-02-15", "time": "14:00", "meeting_room": "Room A."}];
    the rule's match runs to the end of the text and its third group holds
    the final full stop. *)
Theorem schedule_meeting_scenario (lim : nat) :
  route lim schedule_query
  = Return (mkResponse (L "schedule_meeting") schedule_arguments) /\
  option_map (fun p => (name p, captures p (strip schedule_query)))
             (matching_rule PATTERNS (strip schedule_query))
  = Some (L "schedule_meeting", [L "2025-02-15"; L "14:00"; L "Room A."]) /\
  option_map m_end
             (re_search (pattern (rule_at 1))
                        (strip schedule_query))
  = Some (length schedule_query).
Proof. vm_compute. repeat split. Qed.

(** The descriptor returned for the first matching rule. *)
Lemma primary_descriptor (lim : nat) (q : str) (p : rule) :
  matching_rule PATTERNS (strip q) = Some p ->
  digits_over_limit lim p (strip q) = false ->
  exists args,
    route lim q = Return (mkResponse (name p) args) /\
    json_dumps lim (arguments_of p (captures p (strip q))) = Some args /\
    map fst (arguments_of p (captures p (strip q))) = arg_keys p.
Proof.
  intros Hp Hlim.
  destruct (route_primary lim q p Hp) as (_ & Hok & Hall & Hlen & Hr).
  destruct (json_dumps_args lim p (strip q) Hall Hlim) as [args Hargs].
  exists args. rewrite Hr, (find_existsb _ _ Hlim), Hargs.
  repeat split. apply arguments_keys; [|exact Hlen].
  now destruct (rule_ok_inv p Hok) as (_ & Ht & _).
Qed.

(** ** Letters that a match must read *)

Lemma has_letter_app x u v : has_letter x (u ++ v) = has_letter x u || has_letter x v.
Proof. apply existsb_app. Qed.

Lemma has_letter_repeat x c n :
  eq_ascii (to_lower c) (to_lower x) = false -> has_letter x (repeat c n) = false.
Proof.
  intro H. induction n as [|n IH]; simpl; [reflexivity|]. now rewrite H.
Qed.

Lemma ms_suffix r base st st' :
  In st' (ms r base st) -> exists w, rest (fst st) = w ++ rest (fst st').
Proof.
  intro Hin.
  set (text := repeat "a"%char (pos (fst st)) ++ rest (fst st)).
  assert (Hv : valid text (fst st)).
  { unfold valid, text. rewrite skipn_app, repeat_length, Nat.sub_diag.
    now rewrite skipn_all2 by (rewrite repeat_length; lia). }
  destruct (ms_inv text r base st st' Hin Hv) as (Hv' & Hpos & _).
  unfold valid in Hv, Hv'.
  exists (firstn (pos (fst st') - pos (fst st)) (rest (fst st))).
  assert (Hr : rest (fst st')
               = skipn (pos (fst st') - pos (fst st)) (rest (fst st))).
  { rewrite <- Hv', <- Hv, skipn_skipn. f_equal. lia. }
  rewrite Hr. symmetry. apply firstn_skipn.
Qed.

Lemma requires_read r x : forall base st st',
  requires r x = true -> In st' (ms r base st) ->
  has_letter x (rest (fst st)) = true.
Proof.
  induction r as [s|cs lo hi gr| | |r1 IH1 r2 IH2|r1 IH1 r2 IH2|r IH|r IH];
    intros base st st' Hreq Hin; try discriminate.
  - (* Lit *)
    cbn [ms] in Hin. destruct (lit (L s) (fst st)) as [c'|] eqn:Hl; [|contradiction].
    apply lit_sound in Hl as (w & H1 & _ & H3).
    cbn [requires] in Hreq. apply existsb_exists in Hreq as (y & Hy & Heq).
    apply eq_ascii_true in Heq. subst y.
    assert (Hlow : In (to_lower x) (map to_lower w))
      by (rewrite H3; now apply in_map).
    apply in_map_iff in Hlow as (y & Hy1 & Hy2).
    unfold has_letter. apply existsb_exists. exists y. split.
    + rewrite H1. apply in_or_app. now left.
    + rewrite Hy1. apply eq_ascii_refl.
  - (* Cat *)
    cbn [ms] in Hin. apply in_flat_map in Hin as (s1 & Hin1 & Hin2).
    cbn [requires] in Hreq. apply orb_true_iff in Hreq as [Hreq|Hreq].
    + now apply (IH1 base st s1).
    + destruct (ms_suffix _ _ _ _ Hin1) as [w Hw].
      rewrite Hw, has_letter_app, (IH2 _ s1 st' Hreq Hin2).
      apply orb_true_r.
  - (* Group *)
    cbn [ms] in Hin. apply in_map_iff in Hin as (s1 & _ & Hin).
    now apply (IH (S base) st s1).
Qed.

Lemma has_letter_skipn x n s :
  has_letter x (skipn n s) = true -> has_letter x s = true.
Proof.
  intro H. rewrite <- (firstn_skipn n s), has_letter_app, H.
  apply orb_true_r.
Qed.

(** A pattern is not found in a text that lacks one of its letters. *)
Lemma requires_search r x text :
  requires r x = true -> has_letter x text = false ->
  re_search r text = None.
Proof.
  intros Hreq Hno. unfold re_search.
  destruct (scan r 0 None text) as [[p st]|] eqn:Hs; [|reflexivity].
  apply scan_sound with (text := text) in Hs as (c & l & Hv & _ & Hm);
    [|reflexivity].
  assert (Hin : In st (ms r 0 (c, []))) by (rewrite Hm; now left).
  apply (requires_read r x 0 (c, []) st Hreq) in Hin. cbn [fst] in Hin.
  rewrite <- Hv in Hin. apply has_letter_skipn in Hin. congruence.
Qed.

Lemma matching_rule_skip x p ps text :
  requires (pattern p) x = true -> has_letter x text = false ->
  matching_rule (p :: ps) text = matching_rule ps text.
Proof.
  intros Hreq Hno. unfold matching_rule. cbn [find]. unfold matches at 1.
  now rewrite (requires_search _ x text Hreq Hno).
Qed.

Lemma long_expense_query_stripped : strip long_expense_query = long_expense_query.
Proof. vm_compute. reflexivity. Qed.

Ltac no_letter :=
  unfold long_expense_query, long_fallback_query;
  rewrite has_letter_app, has_letter_repeat by reflexivity; reflexivity.

(** C1 as stated fails: the third rule is the first to match this query,
    yet no descriptor is returned. *)
Lemma first_match_without_descriptor :
  option_map name (matching_rule PATTERNS (strip long_expense_query))
  = Some (L "get_expense_balance") /\
  route default_int_max_str_digits long_expense_query
  = HTTPException 400 (invalid_integer (L "employee_id")).
Proof.
  assert (Hp : matching_rule PATTERNS (strip long_expense_query) = Some (rule_at 2)).
  { rewrite long_expense_query_stripped. unfold PATTERNS.
    rewrite (matching_rule_skip "t") by first [no_letter | reflexivity].
    rewrite (matching_rule_skip "h") by first [no_letter | reflexivity].
    vm_compute. reflexivity. }
  split; [now rewrite Hp|].
  destruct (route_primary default_int_max_str_digits _ _ Hp) as (_ & _ & _ & _ & ->).
  vm_compute. reflexivity.
Qed.

(** How a request can end: every [HTTPException] has status 400. *)
Lemma execute_outcome lim (q : option str) :
  (exists resp, fst (execute q (boot lim)) = Return resp) \/
  (exists e, fst (execute q (boot lim)) = Uncaught e) \/
  (exists d, fst (execute q (boot lim)) = HTTPException 400 d).
Proof.
  destruct q as [q|]; [|right; right; eexists; reflexivity].
  destruct q as [|c q]; [right; right; eexists; reflexivity|].
  change (fst (execute (Some (c :: q)) (boot lim))) with (route lim (c :: q)).
  destruct (matching_rule PATTERNS (strip (c :: q))) as [p|] eqn:Hp.
  - destruct (route_primary lim _ p Hp) as (_ & _ & _ & _ & ->).
    destruct (find _ _) as [[[key t] w]|]; [right; right; eauto|].
    destruct (json_dumps _ _); [left; eauto|right; left; eauto].
  - rewrite (route_fallback lim (c :: q) ltac:(discriminate) Hp).
    destruct (fallback_outcome lim (strip (c :: q))) as [H|[H|H]]; eauto.
Qed.

(** C9.  Every rule of the table declares as many parameter names as its
    pattern has groups, a match object of a rule reports exactly that many
    groups, and no request ends in HTTP 500 "Parsing error: group count
    mismatch" (nor in any other [HTTPException] with status 500). *)
Theorem group_count_never_mismatches :
  forallb (fun p => ngroups (pattern p) =? length (arg_keys p)) PATTERNS = true /\
  (forall (p : rule) (text : str) (m : rmatch),
     In p PATTERNS -> re_search (pattern p) text = Some m ->
     length (groups m) = length (arg_keys p)) /\
  (forall (lim : nat) (q : option str) (d : str),
     fst (execute q (boot lim)) <> HTTPException 500 d).
Proof.
  split; [reflexivity|]. split.
  - intros p text m Hin Hm.
    pose proof PATTERNS_ok as Hok. rewrite forallb_forall in Hok.
    destruct (rule_ok_inv p (Hok p Hin)) as (Hn & _).
    destruct (re_search_inv _ _ _ Hm) as (_ & Hg & _).
    now rewrite groups_length, Hg.
  - intros lim q d.
    destruct (execute_outcome lim q) as [[r ->]|[[e ->]|[d' ->]]];
      discriminate.
Qed.

Lemma group_count_never_mismatches_witness :
  option_map (fun m => length (groups m))
    (re_search (pattern (rule_at 3))
               (L "performance bonus for employee 7 for 2024"))
  = Some 2.
Proof.
  destruct (re_search (pattern (rule_at 3))
               (L "performance bonus for employee 7 for 2024")) as [m|] eqn:Hm;
    [|vm_compute in Hm; discriminate Hm].
  simpl. f_equal.
  apply (proj1 (proj2 group_count_never_mismatches)
           (rule_at 3)
           (L "performance bonus for employee 7 for 2024") m);
    [vm_compute; tauto|exact Hm].
Defined.

(** C10, as the code has it.  Every Integer-kind capture of the first
    matching rule is a non-empty run of digits.  A request ends in HTTP 400
    "Invalid integer for <key>" exactly when some such capture has more
    digits than [int] accepts; this never happens when the limit is
    switched off or the query is no longer than the limit. *)
Theorem invalid_integer_iff (lim : nat) (q : str) :
  (forall p key w,
     matching_rule PATTERNS (strip q) = Some p ->
     In (key, T_int, w) (items p (strip q)) ->
     w <> [] /\ forallb is_decimal w = true) /\
  ((exists key, route lim q = HTTPException 400 (invalid_integer key)) <->
   (exists p, matching_rule PATTERNS (strip q) = Some p /\
              digits_over_limit lim p (strip q) = true)) /\
  (lim = 0 \/ length q <= lim ->
   forall key, route lim q <> HTTPException 400 (invalid_integer key)).
Proof.
  assert (Hiff :
    (exists key, route lim q = HTTPException 400 (invalid_integer key)) <->
    (exists p, matching_rule PATTERNS (strip q) = Some p /\
               digits_over_limit lim p (strip q) = true)).
  { split.
    - intros [key Hr].
      destruct (matching_rule PATTERNS (strip q)) as [p|] eqn:Hp.
      + exists p. split; [reflexivity|].
        destruct (route_primary lim q p Hp) as (_ & _ & _ & _ & Hr').
        rewrite Hr in Hr'. unfold digits_over_limit.
        destruct (existsb (too_long lim) (items p (strip q))) eqn:E;
          [reflexivity|].
        rewrite (find_existsb _ _ E) in Hr'.
        destruct (json_dumps _ _); discriminate.
      + destruct q as [|c q].
        * change (route lim []) with (@HTTPException response 400 missing_q) in Hr.
          exfalso. apply (missing_q_ne key). congruence.
        * rewrite (route_fallback lim (c :: q) ltac:(discriminate) Hp) in Hr.
          destruct (fallback_outcome lim (strip (c :: q))) as [[r H]|[[e H]|H]];
            rewrite H in Hr; discriminate.
    - intros (p & Hp & Hlim).
      destruct (route_primary lim q p Hp) as (_ & _ & _ & _ & ->).
      apply find_existsb_true in Hlim as ([[key t] w] & -> & _).
      exists key. reflexivity. }
  split; [|split; [exact Hiff|]].
  - intros p key w Hp Hin.
    destruct (route_primary lim q p Hp) as (_ & _ & Hall & _).
    rewrite Forall_forall in Hall. exact (Hall _ Hin eq_refl).
  - intros Hlim key Hr.
    destruct (proj1 Hiff (ex_intro _ key Hr)) as (p & _ & Hover).
    rewrite (within_limit lim q p Hlim) in Hover. discriminate.
Qed.

Lemma invalid_integer_iff_witness :
  (exists key,
     route default_int_max_str_digits long_ticket_query
     = HTTPException 400 (invalid_integer key)) /\
  route default_int_max_str_digits (L "What is the status of ticket 83742?")
  <> HTTPException 400 (invalid_integer (L "ticket_id")).
Proof.
  split.
  - apply (proj2 (proj1 (proj2 (invalid_integer_iff default_int_max_str_digits
                                  long_ticket_query)))).
    exists (rule_at 0). split; vm_compute; reflexivity.
  - apply (proj2 (proj2 (invalid_integer_iff default_int_max_str_digits
                           (L "What is the status of ticket 83742?")))).
    right. vm_compute. lia.
Defined.

(** The first rule matches the long ticket query and [int] refuses its
    capture. *)
Lemma long_ticket_route :
  route default_int_max_str_digits long_ticket_query
  = HTTPException 400 (invalid_integer (L "ticket_id")).
Proof.
  assert (Hp : matching_rule PATTERNS (strip long_ticket_query) = Some (rule_at 0))
    by (vm_compute; reflexivity).
  destruct (route_primary default_int_max_str_digits _ _ Hp) as (_ & _ & _ & _ & ->).
  vm_compute. reflexivity.
Qed.

(** C10 as stated fails: with more digits than [int] accepts the branch is
    taken. *)
Lemma invalid_integer_reached :
  route default_int_max_str_digits long_ticket_query
  = HTTPException 400 (invalid_integer (L "ticket_id")).
Proof. exact long_ticket_route. Qed.

(** ** The fallback pattern *)

Lemma hd_flat_map {A B} (f : A -> list B) xs y l :
  flat_map f xs = y :: l -> exists x l', In x xs /\ f x = y :: l'.
Proof.
  induction xs as [|x xs IH]; simpl; [discriminate|].
  destruct (f x) as [|y' l'] eqn:E.
  - intro H. destruct (IH H) as (x' & l'' & H1 & H2). eauto.
  - intro H. injection H as -> _. eauto.
Qed.

Lemma last_skipn {A} lo : forall (l : list A) d,
  skipn lo l <> [] -> last (skipn lo l) d = last l d.
Proof.
  induction lo as [|lo IH]; intros [|x l] d H; simpl in *; try congruence.
  rewrite (IH l d H). destruct l; [now destruct lo|reflexivity].
Qed.

(** A walk over the whole rest stops at the end or before a character that
    is outside the class. *)
Lemma walk_last_stop f s : forall n p pv d,
  length s <= n ->
  match rest (last (walk f n p pv s) d) with
  | x :: _ => f x = false
  | [] => True
  end.
Proof.
  induction s as [|x s IH]; intros n p pv d Hn.
  - destruct n; exact I.
  - destruct n as [|n]; [simpl in Hn; lia|]. simpl in Hn.
    cbn [walk]. destruct (f x) eqn:Hx; [|exact Hx].
    rewrite last_cons.
    apply (IH n (S p) (Some x) (mkCursor p pv (x :: s))). lia.
Qed.

Lemma greedy_head f lo s p pv c' l :
  rev (skipn lo (walk f (length s) p pv s)) = c' :: l ->
  (exists w, s = w ++ rest c' /\ lo <= length w /\ forallb f w = true /\
             pos c' = p + length w) /\
  match rest c' with x :: _ => f x = false | [] => True end.
Proof.
  intro H. split.
  - assert (Hin : In c' (skipn lo (walk f (length s) p pv s))).
    { apply in_rev. rewrite H. now left. }
    apply in_skipn_nth in Hin as (i & Hi & Hn).
    apply walk_nth in Hn as (w & H1 & H2 & H3 & H4 & _).
    exists w. rewrite H2. auto.
  - assert (Hs : skipn lo (walk f (length s) p pv s) = rev l ++ [c']).
    { rewrite <- (rev_involutive (skipn lo _)), H. reflexivity. }
    assert (Hl : last (walk f (length s) p pv s) c' = c').
    { rewrite <- last_skipn with (lo := lo); [|rewrite Hs; now destruct (rev l)].
      rewrite Hs. apply last_last. }
    rewrite <- Hl. apply walk_last_stop. lia.
Qed.

Lemma ms_fallback st :
  ms fallback_pattern 0 st =
  flat_map (fun s1 => flat_map (ms (Group (plus CDigit)) 0)
                               (ms (plus CSpace) 0 s1))
           (ms (Lit "ticket") 0 st).
Proof. reflexivity. Qed.

Lemma scan_leftmost r : forall u p pv s p' st,
  scan r p pv (u ++ s) = Some (p', st) ->
  ms r 0 (mkCursor (p + length u) (last (map Some u) pv) s, []) <> [] ->
  p' <= p + length u.
Proof.
  induction u as [|x u IH]; intros p pv s p' st Hs Hm.
  - simpl in Hm. rewrite Nat.add_0_r in Hm. simpl app in Hs.
    destruct s; simpl in Hs;
      destruct (ms r 0 _) eqn:E; try congruence;
      injection Hs as <- _; lia.
  - simpl app in Hs. simpl scan in Hs.
    destruct (ms r 0 (mkCursor p pv (x :: u ++ s), [])).
    + apply IH in Hs; [simpl; lia|].
      simpl length in Hm. rewrite Nat.add_succ_r in Hm.
      change (map Some (x :: u)) with (Some x :: map Some u) in Hm.
      now rewrite last_cons in Hm.
    + injection Hs as <- _. lia.
Qed.

(** The fallback pattern matches where such a split begins. *)
Lemma fallback_at p pv t ws ds b :
  map to_lower t = L "ticket" ->
  ws <> [] -> forallb is_space ws = true ->
  ds <> [] -> forallb is_decimal ds = true ->
  ms fallback_pattern 0 (mkCursor p pv (t ++ ws ++ ds ++ b), []) <> [].
Proof.
  intros Ht Hws Hsp Hds Hdg. rewrite ms_fallback.
  set (c := mkCursor p pv (t ++ ws ++ ds ++ b)).
  destruct (lit_complete (L "ticket") c t (ws ++ ds ++ b) eq_refl)
    as (c1 & L1 & L2 & _); [rewrite Ht; reflexivity|].
  destruct (rep_complete CSpace 1 true 0 (c1, []) ws (ds ++ b))
    as (s2 & S1 & S2 & _); auto.
  { destruct ws; [congruence|simpl; lia]. }
  destruct (rep_complete CDigit 1 true 1 s2 ds b)
    as (s3 & D1 & _); auto.
  { destruct ds; [congruence|simpl; lia]. }
  intro Hnil.
  assert (Hin : In (fst s3, (1, (pos (fst s2), pos (fst s3))) :: snd s3)
                   (flat_map (fun s1 => flat_map (ms (Group (plus CDigit)) 0)
                                          (ms (plus CSpace) 0 s1))
                             (ms (Lit "ticket") 0 (c, [])))).
  { apply in_flat_map. exists (c1, []). split.
    - cbn [ms fst snd]. rewrite L1. now left.
    - apply in_flat_map. exists s2. split; [exact S1|].
      cbn [ms]. apply in_map_iff. exists s3. auto. }
  rewrite Hnil in Hin. contradiction.
Qed.

(** What a match of the fallback pattern looks like: it starts at the first
    place where "ticket", whitespace and digits follow one another, and its
    group is the longest run of digits there. *)
Lemma fallback_found text m :
  re_search fallback_pattern text = Some m ->
  exists a t ws ds b,
    ticket_number_at text a t ws ds b /\
    group m 1 = Some ds /\
    match b with c :: _ => is_decimal c = false | [] => True end /\
    forall a' t' ws' ds' b',
      ticket_number_at text a' t' ws' ds' b' -> length a <= length a'.
Proof.
  unfold re_search.
  destruct (scan fallback_pattern 0 None text) as [[p st]|] eqn:Hs; [|discriminate].
  intro H. injection H as <-. pose proof Hs as Hscan.
  apply scan_sound with (text := text) in Hs as (c & l & Hv & Hpos & Hm);
    [|reflexivity].
  rewrite ms_fallback in Hm.
  apply hd_flat_map in Hm as (s1 & l1 & Hin1 & Hm).
  apply hd_flat_map in Hm as (s2 & l2 & Hin2 & Hm).
  pose proof (ms_inv text _ _ _ _ Hin1 Hv) as (V1 & _).
  pose proof (ms_inv text _ _ _ _ Hin2 V1) as (V2 & _).
  cbn [ms fst snd] in Hin1.
  destruct (lit (L "ticket") c) as [c1|] eqn:Hl; [|contradiction].
  destruct Hin1 as [<-|[]].
  apply lit_sound in Hl as (t & T1 & T2 & T3).
  apply rep_sound in Hin2 as (_ & ws & W1 & W2 & W3 & W4).
  cbn [ms plus] in Hm. rewrite rev_append_nil in Hm.
  destruct (rev (skipn 1 (walk (cset_mem CDigit) (length (rest (fst s2)))
                            (pos (fst s2)) (prev (fst s2)) (rest (fst s2)))))
    as [|c3 l3] eqn:Hw; [discriminate|].
  apply greedy_head in Hw as ((ds & D1 & D2 & D3 & D4) & Hmax).
  cbn [map fst snd] in Hm. injection Hm as <- _.
  exists (firstn (pos c) text), t, ws, ds, (rest c3).
  simpl fst in *.
  split; [|split; [|split]].
  - repeat split; auto.
    + rewrite <- D1, <- W1, <- T1, <- Hv. symmetry. apply firstn_skipn.
    + destruct ws; [simpl in W2; lia|discriminate].
    + destruct ds; [simpl in D2; lia|discriminate].
  - unfold group. cbn [m_marks m_string snd mark_of Nat.eqb].
    f_equal. rewrite D4.
    now destruct (valid_step text (fst s2) ds (rest c3) V2 D1) as [_ ->].
  - exact Hmax.
  - intros a' t' ws' ds' b' (E & Ht' & Hws' & Hsp' & Hds' & Hdg').
    rewrite E in Hscan.
    pose proof (scan_leftmost fallback_pattern a' 0 None _ p _ Hscan
                  (fallback_at _ _ t' ws' ds' b' Ht' Hws' Hsp' Hds' Hdg')) as Hle.
    rewrite length_firstn. lia.
Qed.

Lemma fallback_complete text :
  contains_ticket_number text -> re_search fallback_pattern text <> None.
Proof.
  intros (a & t & ws & ds & b & -> & Ht & Hws & Hsp & Hds & Hdg).
  assert (Hscan : scan fallback_pattern 0 None (a ++ t ++ ws ++ ds ++ b) <> None).
  { apply scan_complete. now apply fallback_at. }
  unfold re_search.
  destruct (scan fallback_pattern 0 None _) as [[p st]|]; congruence.
Qed.

Lemma fallback_returns lim text m ds :
  re_search fallback_pattern text = Some m -> group m 1 = Some ds ->
  ds <> [] -> forallb is_decimal ds = true ->
  fst (fallback text (boot lim)) =
    if over_limit lim (length ds) (length ds) then Uncaught ValueError
    else Return (mkResponse (L "get_ticket_status")
                            (ticket_arguments (denoted ds))).
Proof.
  intros Hm Hg Hne Hd. rewrite fallback_eq, Hm, Hg.
  cbv [bind int_of read_limit build_response ret raise boot compiled
       g_int_max_str_digits].
  rewrite (py_int_digits lim ds Hne Hd).
  destruct (over_limit lim (length ds) (length ds)) eqn:Hl; [reflexivity|].
  unfold json_dumps. cbn [json_items json_value].
  rewrite (py_repr_denoted lim ds Hne Hd Hl). reflexivity.
Qed.

(** C3.  The query is "ticket " followed by 4301 digits.  No rule of the
    table matches it and it holds "ticket", whitespace and digits, so the
    fallback is what answers it; [int] refuses the digits, the call on
    line 121 stands in no [try], and the request ends in the [ValueError]
    instead of the descriptor [get_ticket_status].  The loop over the rules
    catches the same refusal (lines 107 to 111): "status of ticket "
    followed by the same digits is answered with HTTP 400. *)
Theorem fallback_conversion_not_guarded :
  matching_rule PATTERNS (strip long_fallback_query) = None /\
  contains_ticket_number (strip long_fallback_query) /\
  route default_int_max_str_digits long_fallback_query = Uncaught ValueError /\
  route default_int_max_str_digits long_ticket_query
  = HTTPException 400 (invalid_integer (L "ticket_id")).
Proof.
  assert (Hs : strip long_fallback_query = long_fallback_query)
    by (vm_compute; reflexivity).
  assert (Hp : matching_rule PATTERNS (strip long_fallback_query) = None).
  { rewrite Hs. unfold PATTERNS.
    rewrite (matching_rule_skip "s") by first [no_letter | reflexivity].
    rewrite (matching_rule_skip "s") by first [no_letter | reflexivity].
    rewrite (matching_rule_skip "s") by first [no_letter | reflexivity].
    rewrite (matching_rule_skip "p") by first [no_letter | reflexivity].
    rewrite (matching_rule_skip "r") by first [no_letter | reflexivity].
    reflexivity. }
  split; [exact Hp|]. split; [|split].
  - rewrite Hs. exists [], (L "ticket"), (L " "), (repeat "1"%char 4301), [].
    split; [now rewrite app_nil_r|].
    split; [reflexivity|]. split; [discriminate|]. split; [reflexivity|].
    split; [discriminate|]. vm_compute. reflexivity.
  - rewrite (route_fallback _ long_fallback_query ltac:(discriminate) Hp).
    rewrite Hs. vm_compute. reflexivity.
  - exact long_ticket_route.
Qed.

(** ** Writing JSON and reading it back *)

Lemma digit_char d :
  (d < 10)%N ->
  is_decimal (ascii_of_N (48 + d)) = true /\
  digit_value (ascii_of_N (48 + d)) = d /\
  (is_code 48 (ascii_of_N (48 + d)) = true -> d = 0%N).
Proof.
  intro H. rewrite <- (N2Nat.id d).
  assert (Hk : N.to_nat d < 10) by lia.
  destruct (N.to_nat d) as [|[|[|[|[|[|[|[|[|[|k]]]]]]]]]]; try lia;
    vm_compute; repeat split; congruence.
Qed.

Lemma size_nat_bound n : (n < 2 ^ N.of_nat (N.size_nat n))%N.
Proof.
  destruct n as [|p]; [reflexivity|]. simpl N.size_nat.
  induction p as [p IH|p IH|]; cbn [Pos.size_nat];
    rewrite ?Nat2N.inj_succ, ?N.pow_succ_r'; lia.
Qed.

Lemma dec_digits_spec fuel : forall n,
  (n < 2 ^ N.of_nat fuel)%N ->
  forallb is_decimal (dec_digits fuel n) = true /\
  denoted (dec_digits fuel n) = n /\
  exists c r, dec_digits fuel n = c :: r /\
              (is_code 48 c = true -> n = 0%N /\ r = []).
Proof.
  induction fuel as [|fuel IH]; intros n Hn.
  - assert (n = 0%N) by (simpl in Hn; lia). subst n.
    vm_compute. repeat split; eauto.
  - cbn [dec_digits]. destruct (N.ltb_spec n 10) as [Hlt|Hge].
    + destruct (digit_char (n mod 10)) as (D1 & D2 & D3);
        [apply N.mod_lt; lia|].
      rewrite (N.mod_small n 10 Hlt) in *.
      cbn [forallb denoted length]. rewrite D1, D2. repeat split.
      * change (N.of_nat 0) with 0%N. rewrite N.pow_0_r. lia.
      * exists (ascii_of_N (48 + n)), []. split; [reflexivity|].
        intro H. split; [now apply D3|reflexivity].
    + destruct (digit_char (n mod 10)) as (D1 & D2 & _);
        [apply N.mod_lt; lia|].
      assert (Hdiv : (n / 10 < 2 ^ N.of_nat fuel)%N).
      { rewrite Nat2N.inj_succ, N.pow_succ_r' in Hn.
        apply N.Div0.div_lt_upper_bound. lia. }
      destruct (IH _ Hdiv) as (I1 & I2 & c & r & I3 & I4).
      repeat split.
      * apply forallb_app_iff. split; [exact I1|]. cbn [forallb].
        now rewrite D1.
      * rewrite denoted_snoc, I2, D2. symmetry. apply N.div_mod. lia.
      * exists c, (r ++ [ascii_of_N (48 + n mod 10)]). rewrite I3.
        split; [reflexivity|]. intro H. destruct (I4 H) as [H0 _].
        assert (1 <= n / 10)%N; [|lia].
        apply N.div_le_lower_bound; lia.
Qed.

Lemma repr_N_spec n :
  forallb is_decimal (repr_N n) = true /\
  denoted (repr_N n) = n /\
  exists c r, repr_N n = c :: r /\ (is_code 48 c = true -> r = []).
Proof.
  destruct (dec_digits_spec (N.size_nat n) n (size_nat_bound n))
    as (H1 & H2 & c & r & H3 & H4).
  repeat split; auto. exists c, r. split; [exact H3|]. intro H. now apply H4.
Qed.

Lemma after_value c :
  (is_code 44 c || is_code 125 c) = true ->
  is_decimal c = false /\ is_json_ws c = false /\
  (is_code 46 c || is_code 101 c || is_code 69 c) = false.
Proof. each_char c; intros; repeat split. Qed.

Lemma decimal_starts c :
  is_decimal c = true ->
  is_code 45 c = false /\ is_code 34 c = false /\ is_json_ws c = false.
Proof. each_char c; intros; repeat split. Qed.

Lemma span_digits_app ds r :
  forallb is_decimal ds = true ->
  match r with c :: _ => is_decimal c = false | [] => True end ->
  span_digits (ds ++ r) = (ds, r).
Proof.
  intros Hd Hr. induction ds as [|d ds IH]; simpl.
  - destruct r as [|c r]; [reflexivity|]. simpl. now rewrite Hr.
  - simpl in Hd. apply andb_true_iff in Hd as [H1 H2].
    now rewrite H1, (IH H2).
Qed.

Lemma loads_int_digits (neg : bool) d ds rest :
  forallb is_decimal (d :: ds) = true ->
  (is_code 48 d = true -> ds = []) ->
  ends_value rest ->
  loads_int ((if neg then L "-" else []) ++ (d :: ds) ++ rest)
  = Some (if neg then (- Z.of_N (denoted (d :: ds)))%Z
          else Z.of_N (denoted (d :: ds)), rest).
Proof.
  intros Hd Hz (c & r & -> & Hc).
  destruct (after_value c Hc) as (C1 & _ & C3).
  assert (Hspan : span_digits ((d :: ds) ++ c :: r) = (d :: ds, c :: r))
    by now apply span_digits_app.
  assert (Hlead : (is_code 48 d
                   && negb (match ds with [] => true | _ => false end)) = false).
  { destruct (is_code 48 d); [|reflexivity]. now rewrite (Hz eq_refl). }
  pose proof Hd as Hd'. cbn [forallb] in Hd'.
  apply andb_true_iff in Hd' as [Hd0 _].
  destruct (decimal_starts d Hd0) as (D1 & _ & _).
  unfold loads_int. destruct neg.
  - change (L "-" ++ (d :: ds) ++ c :: r)
      with ("-"%char :: (d :: ds) ++ c :: r).
    cbn iota. change (is_code 45 "-"%char) with true. cbn beta iota zeta.
    now rewrite Hspan, Hlead, C3.
  - change ([] ++ (d :: ds) ++ c :: r) with (d :: (ds ++ c :: r)).
    cbn iota. rewrite D1. cbn beta iota zeta.
    change (d :: (ds ++ c :: r)) with ((d :: ds) ++ c :: r).
    now rewrite Hspan, Hlead, C3.
Qed.

Lemma loads_int_repr lim z e rest :
  py_repr_int lim z = Some e -> ends_value rest ->
  loads_int (e ++ rest) = Some (z, rest) /\
  exists c s, e = c :: s /\ is_code 34 c = false /\ is_json_ws c = false.
Proof.
  unfold py_repr_int. destruct (over_limit _ _ _); [discriminate|].
  intros H He. injection H as <-.
  destruct (repr_N_spec (Z.abs_N z)) as (Hd & Hden & d & ds & Hr & Hz).
  rewrite Hr in *.
  pose proof Hd as Hd'. cbn [forallb] in Hd'.
  apply andb_true_iff in Hd' as [Hd0 _].
  destruct (decimal_starts d Hd0) as (_ & D2 & D3).
  rewrite <- app_assoc.
  destruct (Z.ltb_spec z 0) as [Hneg|Hpos].
  - split.
    + etransitivity; [exact (loads_int_digits true d ds rest Hd Hz He)|].
      rewrite Hden. f_equal. f_equal. lia.
    + exists "-"%char, (d :: ds). repeat split.
  - split.
    + etransitivity; [exact (loads_int_digits false d ds rest Hd Hz He)|].
      rewrite Hden. f_equal. f_equal. lia.
    + exists d, ds. repeat split; auto.
Qed.

Lemma loads_string_escape c t :
  loads_string (escape_char c ++ t) = cons_fst c (loads_string t).
Proof. destruct c as [[] [] [] [] [] [] [] []]; reflexivity. Qed.

Lemma loads_string_enc s rest :
  loads_string (flat_map escape_char s ++ dquote :: rest) = Some (s, rest).
Proof.
  induction s as [|c s IH]; [reflexivity|].
  cbn [flat_map]. rewrite <- app_assoc, loads_string_escape, IH. reflexivity.
Qed.

Lemma encode_basestring_app s rest :
  encode_basestring s ++ rest
  = dquote :: flat_map escape_char s ++ dquote :: rest.
Proof. unfold encode_basestring. cbn [app]. now rewrite <- app_assoc. Qed.

Lemma loads_value_enc lim v e rest :
  json_value lim v = Some e -> ends_value rest ->
  loads_value (e ++ rest) = Some (v, rest) /\ skip_ws (e ++ rest) = e ++ rest.
Proof.
  destruct v as [z|s]; cbn [json_value]; intros H He.
  - destruct (loads_int_repr lim z e rest H He) as (H1 & c & t & -> & C1 & C2).
    cbn [app] in *. split.
    + unfold loads_value. now rewrite C1, H1.
    + cbn [skip_ws]. now rewrite C2.
  - injection H as <-. rewrite encode_basestring_app. split; [|reflexivity].
    unfold loads_value. change (is_code 34 dquote) with true. cbn iota.
    now rewrite loads_string_enc.
Qed.

Lemma ends_value_comma s : ends_value (L ", " ++ s).
Proof. exists ","%char, (" "%char :: s). split; reflexivity. Qed.

Lemma ends_value_brace : ends_value (L "}").
Proof. exists "}"%char, []. split; reflexivity. Qed.

Lemma json_items_cons lim k v d es :
  json_items lim ((k, v) :: d) = Some es ->
  exists e es', json_value lim v = Some e /\ json_items lim d = Some es' /\
                es = (encode_basestring k ++ L ": " ++ e) :: es'.
Proof.
  cbn [json_items]. destruct (json_value lim v) as [e|]; [|discriminate].
  destruct (json_items lim d) as [es'|]; [|discriminate].
  intro H. injection H as <-. eauto.
Qed.

Lemma json_items_length lim d : forall es,
  json_items lim d = Some es -> length es = length d.
Proof.
  induction d as [|[k v] d IH]; intros es H.
  - injection H as <-. reflexivity.
  - apply json_items_cons in H as (e & es' & _ & H & ->).
    simpl. now rewrite (IH es' H).
Qed.

(** Reading the members that [json.dumps] wrote gives the dictionary back. *)
Lemma loads_members_items lim d : forall es fuel,
  d <> [] -> json_items lim d = Some es -> length d <= fuel ->
  loads_members fuel (join (L ", ") es ++ L "}") = Some d.
Proof.
  induction d as [|[k v] d IH]; intros es fuel Hne H Hfuel; [congruence|].
  apply json_items_cons in H as (e & es' & Hv & Hes & ->).
  destruct fuel as [|fuel]; [simpl in Hfuel; lia|]. simpl in Hfuel.
  assert (Hstep : forall rest, ends_value rest ->
    loads_members (S fuel) ((encode_basestring k ++ L ": " ++ e) ++ rest)
    = match rest with
      | c4 :: s5 =>
          if is_code 44 c4 then
            match loads_members fuel (skip_ws s5) with
            | Some d' => Some ((k, v) :: d')
            | None => None
            end
          else if is_code 125 c4 then
            match skip_ws s5 with [] => Some [(k, v)] | _ :: _ => None end
          else None
      | [] => None
      end).
  { intros rest Hrest.
    destruct (loads_value_enc lim v e rest Hv Hrest) as [Hval Hskip].
    rewrite <- app_assoc, encode_basestring_app.
    cbn [loads_members]. change (is_code 34 dquote) with true. cbn iota.
    rewrite loads_string_enc. rewrite <- app_assoc.
    change (skip_ws (L ": " ++ e ++ rest)) with (":"%char :: " "%char :: e ++ rest).
    cbn iota. change (is_code 58 ":"%char) with true. cbn iota.
    change (skip_ws (" "%char :: e ++ rest)) with (skip_ws (e ++ rest)).
    rewrite Hskip, Hval.
    destruct Hrest as (c & r & -> & Hc).
    destruct (after_value c Hc) as (_ & Hws & _).
    cbn [skip_ws]. rewrite Hws. reflexivity. }
  set (x := encode_basestring k ++ L ": " ++ e) in *. clearbody x.
  destruct d as [|kv d].
  - injection Hes as <-. cbn [join].
    rewrite (Hstep _ ends_value_brace). reflexivity.
  - destruct es' as [|e' es''];
      [apply json_items_length in Hes; discriminate|].
    change (join (L ", ") (x :: e' :: es''))
      with (x ++ L ", " ++ join (L ", ") (e' :: es'')).
    rewrite <- app_assoc, <- app_assoc.
    rewrite (Hstep _ (ends_value_comma _)).
    cbn [app L list_ascii_of_string]. change (is_code 44 ","%char) with true.
    cbn iota.
    assert (Hnext : skip_ws (" "%char :: join (L ", ") (e' :: es'') ++ L "}")
                    = join (L ", ") (e' :: es'') ++ L "}").
    { destruct kv as [k' v'].
      apply json_items_cons in Hes as (e0 & es0 & _ & _ & Heq).
      injection Heq as -> ->. destruct es0; reflexivity. }
    cbn [app L list_ascii_of_string] in Hnext. rewrite Hnext.
    pose proof (IH (e' :: es'') fuel ltac:(discriminate) Hes ltac:(simpl in *; lia)) as HIH.
    cbn [app L list_ascii_of_string] in HIH. now rewrite HIH.
Qed.

Lemma join_length x es : length es <= length (join (L ", ") (x :: es)).
Proof.
  revert x. induction es as [|e es IH]; intro x; [simpl; lia|].
  change (join (L ", ") (x :: e :: es)) with (x ++ L ", " ++ join (L ", ") (e :: es)).
  rewrite !length_app. specialize (IH e). simpl in *. lia.
Qed.

(** The arguments text is a JSON object: reading it gives back the
    dictionary that was written, member for member and in order. *)
Lemma json_loads_dumps lim d args :
  json_dumps lim d = Some args -> json_loads args = Some d.
Proof.
  unfold json_dumps. destruct (json_items lim d) as [es|] eqn:Hes; [|discriminate].
  intro H. injection H as <-.
  destruct d as [|[k v] d].
  - injection Hes as <-. reflexivity.
  - pose proof (loads_members_items lim ((k, v) :: d) es
                  (length (L "{" ++ join (L ", ") es ++ L "}"))
                  ltac:(discriminate) Hes) as Hm.
    apply json_items_cons in Hes as (e & es' & _ & Hes' & ->).
    assert (Hhead : exists t,
              join (L ", ") ((encode_basestring k ++ L ": " ++ e) :: es') ++ L "}"
              = dquote :: t).
    { destruct es'; cbn [join]; rewrite <- ?app_assoc;
        rewrite encode_basestring_app; eauto. }
    destruct Hhead as [t Ht].
    change (json_loads (L "{" ++ (join (L ", ")
              ((encode_basestring k ++ L ": " ++ e) :: es') ++ L "}"))
            = Some ((k, v) :: d)).
    rewrite Ht in *.
    change (loads_members (length (L "{" ++ dquote :: t)) (dquote :: t)
            = Some ((k, v) :: d)).
    apply Hm. apply json_items_length in Hes'.
    pose proof (join_length (encode_basestring k ++ L ": " ++ e) es') as Hj.
    apply (f_equal (@length ascii)) in Ht. rewrite length_app in Ht.
    simpl in *. lia.
Qed.

(** [matching_rule] finds the first rule in declaration order whose
    pattern is found in the text. *)
Lemma matching_rule_first ps text p :
  matching_rule ps text = Some p <->
  exists before after,
    ps = before ++ p :: after /\
    (forall p', In p' before -> re_search (pattern p') text = None) /\
    re_search (pattern p) text <> None.
Proof.
  unfold matching_rule. split.
  - induction ps as [|p0 ps IH]; simpl; [discriminate|].
    unfold matches at 1.
    destruct (re_search (pattern p0) text) as [m|] eqn:Hm.
    + intro H. injection H as <-. exists [], ps.
      repeat split; [intros p' []|congruence].
    + intro H. destruct (IH H) as (before & after & -> & Hb & Hp).
      exists (p0 :: before), after. repeat split; auto.
      intros p' [<-|Hin]; auto.
  - intros (before & after & -> & Hb & Hp).
    induction before as [|p0 before IH]; simpl; unfold matches at 1.
    + destruct (re_search (pattern p) text); congruence.
    + rewrite (Hb p0 (or_introl eq_refl)). apply IH.
      intros p' Hin. apply Hb. now right.
Qed.

(** C1, within the interpreter's conversion limit.  The rules are declared
    in the order get_ticket_status, schedule_meeting, get_expense_balance,
    calculate_performance_bonus, report_office_issue.  When [p] is the first
    of them that matches the trimmed query (no rule declared before it
    matches) and none of its Integer-kind captures has more digits than
    [int] accepts, the answer is a descriptor with the name of [p]; its
    arguments are the JSON text of the dictionary built from the captures
    of [p], and read back as JSON they hold exactly the parameter names of
    [p], in their declared order. *)
Theorem first_match_descriptor (lim : nat) :
  map name PATTERNS
  = [L "get_ticket_status"; L "schedule_meeting"; L "get_expense_balance";
     L "calculate_performance_bonus"; L "report_office_issue"] /\
  forall (q : str) (before : list rule) (p : rule) (after : list rule),
    PATTERNS = before ++ p :: after ->
    (forall p', In p' before -> re_search (pattern p') (strip q) = None) ->
    re_search (pattern p) (strip q) <> None ->
    digits_over_limit lim p (strip q) = false ->
    exists args,
      route lim q = Return (mkResponse (name p) args) /\
      json_dumps lim (arguments_of p (captures p (strip q))) = Some args /\
      option_map (map fst) (json_loads args) = Some (arg_keys p).
Proof.
  split; [reflexivity|]. intros q before p after Hps Hb Hm Hlim.
  assert (Hp : matching_rule PATTERNS (strip q) = Some p).
  { apply matching_rule_first. exists before, after. auto. }
  destruct (primary_descriptor lim q p Hp Hlim) as (args & H1 & H2 & H3).
  exists args. repeat split; auto.
  now rewrite (json_loads_dumps lim _ args H2), <- H3.
Qed.

Lemma first_match_descriptor_witness :
  exists args,
    route default_int_max_str_digits
          (L "Calculate performance bonus for employee 10056 for 2025.")
    = Return (mkResponse (L "calculate_performance_bonus") args) /\
    option_map (map fst) (json_loads args)
    = Some [L "employee_id"; L "current_year"].
Proof.
  destruct (proj2 (first_match_descriptor default_int_max_str_digits)
              (L "Calculate performance bonus for employee 10056 for 2025.")
              [rule_at 0; rule_at 1; rule_at 2] (rule_at 3) [rule_at 4])
    as (args & H1 & _ & H2).
  - reflexivity.
  - intros p' [<-|[<-|[<-|[]]]]; vm_compute; reflexivity.
  - vm_compute. discriminate.
  - vm_compute. reflexivity.
  - exists args. exact (conj H1 H2).
Defined.

(** ** Characters outside ASCII *)

Lemma ascii_only_filter s : ascii_only s = true -> filter non_ascii s = [].
Proof.
  induction s as [|c s IH]; simpl; [reflexivity|].
  intro H. apply andb_true_iff in H as [Hc Hs].
  apply negb_true_iff in Hc. rewrite Hc. auto.
Qed.

Lemma decimal_ascii c : is_decimal c = true -> non_ascii c = false.
Proof. each_char c. Qed.

Lemma digits_ascii ds : forallb is_decimal ds = true -> filter non_ascii ds = [].
Proof.
  induction ds as [|c ds IH]; simpl; [reflexivity|].
  intro H. apply andb_true_iff in H as [Hc Hs].
  rewrite (decimal_ascii c Hc). auto.
Qed.

Lemma filter_escape c :
  filter non_ascii (escape_char c) = if non_ascii c then [c] else [].
Proof. destruct c as [[] [] [] [] [] [] [] []]; reflexivity. Qed.

Lemma filter_escaped s :
  filter non_ascii (flat_map escape_char s) = filter non_ascii s.
Proof.
  induction s as [|c s IH]; [reflexivity|].
  cbn [flat_map filter]. rewrite filter_app, filter_escape, IH.
  now destruct (non_ascii c).
Qed.

(** A JSON string holds the characters outside ASCII of its value as they
    are, and no other. *)
Lemma filter_encoded s :
  filter non_ascii (encode_basestring s) = filter non_ascii s.
Proof.
  unfold encode_basestring.
  change (filter non_ascii (dquote :: flat_map escape_char s ++ [dquote]))
    with (filter non_ascii (flat_map escape_char s ++ [dquote])).
  rewrite filter_app, filter_escaped. apply app_nil_r.
Qed.

Lemma filter_repr lim z e :
  py_repr_int lim z = Some e -> filter non_ascii e = [].
Proof.
  unfold py_repr_int. destruct (over_limit _ _ _); [discriminate|].
  intro H. injection H as <-. rewrite filter_app.
  destruct (repr_N_spec (Z.abs_N z)) as (Hd & _).
  rewrite (digits_ascii _ Hd). now destruct (z <? 0)%Z.
Qed.

Lemma filter_items lim d : forall es,
  json_items lim d = Some es ->
  filter non_ascii (join (L ", ") es) = flat_map non_ascii_of_member d.
Proof.
  induction d as [|[k v] d IH]; intros es H.
  - injection H as <-. reflexivity.
  - apply json_items_cons in H as (e & es' & Hv & Hes & ->).
    specialize (IH es' Hes).
    assert (He : filter non_ascii (encode_basestring k ++ L ": " ++ e)
                 = non_ascii_of_member (k, v)).
    { rewrite !filter_app, filter_encoded. unfold non_ascii_of_member.
      cbn [fst snd]. f_equal. destruct v as [z|s]; cbn [json_value] in Hv.
      - now rewrite (filter_repr lim z e Hv).
      - injection Hv as <-. now rewrite filter_encoded. }
    cbn [flat_map]. rewrite <- He, <- IH.
    destruct es' as [|e' es'']; cbn [join].
    + now rewrite app_nil_r.
    + now rewrite !filter_app.
Qed.

Lemma filter_dumps lim d args :
  json_dumps lim d = Some args ->
  filter non_ascii args = flat_map non_ascii_of_member d.
Proof.
  unfold json_dumps. destruct (json_items lim d) as [es|] eqn:Hes; [|discriminate].
  intro H. injection H as <-.
  change (filter non_ascii (L "{" ++ (join (L ", ") es ++ L "}"))
          = flat_map non_ascii_of_member d).
  rewrite !filter_app, (filter_items lim d es Hes). apply app_nil_r.
Qed.

Lemma ascii_keys_values d :
  forallb ascii_only (map fst d) = true ->
  flat_map non_ascii_of_member d = non_ascii_of_values d.
Proof.
  induction d as [|[k v] d IH]; [reflexivity|].
  cbn [map fst forallb]. intro H. apply andb_true_iff in H as [Hk Hd].
  unfold non_ascii_of_values in *. cbn [flat_map]. rewrite (IH Hd).
  unfold non_ascii_of_member. cbn [fst snd].
  now rewrite (ascii_only_filter k Hk).
Qed.

Lemma PATTERNS_ascii_keys :
  forallb (fun p => forallb ascii_only (arg_keys p)) PATTERNS = true.
Proof. vm_compute. reflexivity. Qed.

(** The fourth rule is the first to match the long bonus query. *)
Lemma long_bonus_rule :
  matching_rule PATTERNS (strip long_bonus_query) = Some (rule_at 3).
Proof.
  assert (Hs : strip long_bonus_query = long_bonus_query)
    by (vm_compute; reflexivity).
  assert (Hno : forall x,
            has_letter x (L "performance bonus for employee ") = false ->
            eq_ascii (to_lower "1"%char) (to_lower x) = false ->
            has_letter x (L " for 2025") = false ->
            has_letter x long_bonus_query = false).
  { intros x H1 H2 H3. unfold long_bonus_query.
    now rewrite !has_letter_app, H1, (has_letter_repeat x _ _ H2), H3. }
  rewrite Hs. unfold PATTERNS.
  rewrite (matching_rule_skip "t") by first [apply Hno; reflexivity | reflexivity].
  rewrite (matching_rule_skip "t") by first [apply Hno; reflexivity | reflexivity].
  rewrite (matching_rule_skip "x") by first [apply Hno; reflexivity | reflexivity].
  vm_compute. reflexivity.
Qed.

(** [int] refuses the first capture of the long bonus query. *)
Lemma long_bonus_route :
  route default_int_max_str_digits long_bonus_query
  = HTTPException 400 (invalid_integer (L "employee_id")).
Proof.
  destruct (route_primary default_int_max_str_digits _ _ long_bonus_rule)
    as (_ & _ & _ & _ & ->).
  vm_compute. reflexivity.
Qed.

(** C6, within the interpreter's conversion limit.  [int] turns a
    non-empty run of digits that is not longer than the limit into the
    integer it denotes.  Every Integer-kind capture of the first matching
    rule is such a run of digits; when none of them is longer than the
    limit, a descriptor is returned and its argument text, read back, holds
    under the parameter's name the integer that the capture denotes; when
    one of them is longer, no descriptor is returned and nothing is stored
    for any of them. *)
Theorem integer_capture_round_trip (lim : nat) :
  (forall w : str,
     w <> [] -> forallb is_decimal w = true ->
     over_limit lim (length w) (length w) = false ->
     py_int lim w = Some (Z.of_N (denoted w))) /\
  (forall (q : str) (p : rule) (k : nat) (key w : str),
     matching_rule PATTERNS (strip q) = Some p ->
     digits_over_limit lim p (strip q) = false ->
     nth_error (arg_keys p) k = Some key ->
     nth_error (arg_types p) k = Some T_int ->
     nth_error (captures p (strip q)) k = Some w ->
     w <> [] /\ forallb is_decimal w = true /\
     exists od args,
       route lim q = Return (mkResponse (name p) args) /\
       json_dumps lim od = Some args /\
       json_loads args = Some od /\
       od_get od key = Some (VInt (Z.of_N (denoted w)))) /\
  (forall (q : str) (p : rule),
     matching_rule PATTERNS (strip q) = Some p ->
     digits_over_limit lim p (strip q) = true ->
     forall resp, route lim q <> Return resp).
Proof.
  split; [|split].
  - intros w Hne Hd Hl. now rewrite (py_int_digits lim w Hne Hd), Hl.
  - intros q p k key w Hp Hlim Hk Ht Hw.
    destruct (route_primary lim q p Hp) as (_ & Hok & Hall & Hlen & Hr).
    destruct (rule_ok_inv p Hok) as (_ & _ & Hnd & _).
    assert (Hit : In (key, T_int, w) (items p (strip q))).
    { unfold items. apply nth_error_In with (n := k).
      apply zip3_nth_error_intro; assumption. }
    rewrite Forall_forall in Hall. destruct (Hall _ Hit eq_refl) as [Hne Hd].
    split; [exact Hne|]. split; [exact Hd|].
    destruct (primary_descriptor lim q p Hp Hlim) as (args & H1 & H2 & _).
    exists (arguments_of p (captures p (strip q))), args.
    split; [exact H1|]. split; [exact H2|].
    split; [now apply json_loads_dumps with (lim := lim)|].
    apply (od_get_arguments (arg_keys p) (arg_types p) _ k key T_int w);
      assumption.
  - intros q p Hp Hlim resp.
    destruct (route_primary lim q p Hp) as (_ & _ & _ & _ & ->).
    apply find_existsb_true in Hlim as ([[key t] w] & -> & _).
    discriminate.
Qed.

Lemma integer_capture_round_trip_witness :
  exists od args,
    route default_int_max_str_digits
          (L "Show my expense balance for employee 10056.")
    = Return (mkResponse (L "get_expense_balance") args) /\
    json_loads args = Some od /\
    od_get od (L "employee_id") = Some (VInt 10056).
Proof.
  destruct (proj1 (proj2 (integer_capture_round_trip default_int_max_str_digits))
              (L "Show my expense balance for employee 10056.")
              (rule_at 2)
              0 (L "employee_id") (L "10056"))
    as (_ & _ & od & args & H1 & _ & H2 & H3); try (vm_compute; reflexivity).
  exists od, args. exact (conj H1 (conj H2 H3)).
Defined.

(** C6 as stated fails: the fourth rule is the first to match this query
    and captures a run of 4301 digits and the run "2025".  Both are valid
    digit sequences, [int] refuses the first, the request ends in HTTP 400
    and no value is stored, neither for the first capture nor for the
    second, which [int] accepts. *)
Lemma long_digit_run_stores_nothing :
  matching_rule PATTERNS (strip long_bonus_query) = Some (rule_at 3) /\
  arg_types (rule_at 3) = [T_int; T_int] /\
  captures (rule_at 3) (strip long_bonus_query)
  = [repeat "1"%char 4301; L "2025"] /\
  forallb is_decimal (repeat "1"%char 4301) = true /\
  py_int default_int_max_str_digits (repeat "1"%char 4301) = None /\
  py_int default_int_max_str_digits (L "2025") = Some 2025%Z /\
  route default_int_max_str_digits long_bonus_query
  = HTTPException 400 (invalid_integer (L "employee_id")).
Proof.
  split; [exact long_bonus_rule|]. split; [reflexivity|].
  split; [vm_compute; reflexivity|]. split; [vm_compute; reflexivity|].
  split; [vm_compute; reflexivity|]. split; [vm_compute; reflexivity|].
  exact long_bonus_route.
Qed.

(** The member that the loop stores for the parameter at an index. *)
Lemma arguments_of_nth p ws k key t w :
  nth_error (arg_keys p) k = Some key ->
  nth_error (arg_types p) k = Some t ->
  nth_error ws k = Some w ->
  nth_error (arguments_of p ws) k = Some (key, value_of t w).
Proof.
  intros H1 H2 H3. unfold arguments_of.
  rewrite nth_error_map, (zip3_nth_error_intro _ _ _ _ _ _ _ H1 H2 H3).
  reflexivity.
Qed.

(** C5.  Whenever a descriptor is returned, its arguments are the text
    that [json.dumps] writes for the dictionary [od] that the handler has
    built: after a rule of the table, the parameter names of the rule in
    their declared order, each with the value of its capture (for a
    String-kind parameter the capture without the whitespace around it);
    after the fallback, the one key [ticket_id] with the integer that the
    captured digits denote.  The text is a JSON object: read back, it
    gives [od] member for member and in order.  The characters outside
    ASCII in the text are exactly those of the String-kind values, each
    written as it is and in order. *)
Theorem arguments_are_json (lim : nat) (q : str) (resp : response) :
  route lim q = Return resp ->
  exists od,
    json_dumps lim od = Some (r_arguments resp) /\
    json_loads (r_arguments resp) = Some od /\
    filter non_ascii (r_arguments resp) = non_ascii_of_values od /\
    ((exists p,
        matching_rule PATTERNS (strip q) = Some p /\
        r_name resp = name p /\
        map fst od = arg_keys p /\
        od = arguments_of p (captures p (strip q)) /\
        forall k key w,
          nth_error (arg_keys p) k = Some key ->
          nth_error (arg_types p) k = Some T_str ->
          nth_error (captures p (strip q)) k = Some w ->
          nth_error od k = Some (key, VStr (strip w))) \/
     (matching_rule PATTERNS (strip q) = None /\
      r_name resp = L "get_ticket_status" /\
      exists m ds,
        re_search fallback_pattern (strip q) = Some m /\
        group m 1 = Some ds /\
        od = [(L "ticket_id", VInt (Z.of_N (denoted ds)))])).
Proof.
  intro Hr.
  assert (Hgoal : exists od,
    json_dumps lim od = Some (r_arguments resp) /\
    forallb ascii_only (map fst od) = true /\
    ((exists p,
        matching_rule PATTERNS (strip q) = Some p /\
        r_name resp = name p /\
        map fst od = arg_keys p /\
        od = arguments_of p (captures p (strip q)) /\
        forall k key w,
          nth_error (arg_keys p) k = Some key ->
          nth_error (arg_types p) k = Some T_str ->
          nth_error (captures p (strip q)) k = Some w ->
          nth_error od k = Some (key, VStr (strip w))) \/
     (matching_rule PATTERNS (strip q) = None /\
      r_name resp = L "get_ticket_status" /\
      exists m ds,
        re_search fallback_pattern (strip q) = Some m /\
        group m 1 = Some ds /\
        od = [(L "ticket_id", VInt (Z.of_N (denoted ds)))]))).
  { destruct (matching_rule PATTERNS (strip q)) as [p|] eqn:Hp.
    - destruct (route_primary lim q p Hp) as (_ & Hok & _ & Hlen & Hr').
      rewrite Hr in Hr'.
      destruct (find _ _) as [[[key t] w]|]; [discriminate|].
      destruct (json_dumps lim _) as [args|] eqn:Hd; [|discriminate].
      injection Hr' as ->.
      destruct (rule_ok_inv p Hok) as (_ & Ht & _).
      pose proof (arguments_keys p _ Ht Hlen) as Hkeys.
      exists (arguments_of p (captures p (strip q))). cbn [r_arguments r_name].
      split; [exact Hd|]. split.
      + rewrite Hkeys. pose proof PATTERNS_ascii_keys as Ha.
        rewrite forallb_forall in Ha. apply Ha.
        now apply (matching_rule_ok _ _ _ PATTERNS_ok Hp).
      + left. exists p. split; [reflexivity|]. split; [reflexivity|].
        split; [exact Hkeys|]. split; [reflexivity|].
        intros k key w H1 H2 H3.
        exact (arguments_of_nth p _ k key T_str w H1 H2 H3).
    - destruct q as [|c q]; [discriminate|].
      rewrite (route_fallback lim (c :: q) ltac:(discriminate) Hp) in Hr.
      destruct (re_search fallback_pattern (strip (c :: q))) as [m|] eqn:Hm;
        [|rewrite fallback_eq, Hm in Hr; discriminate].
      destruct (fallback_found _ _ Hm)
        as (a & t & ws & ds & b & (_ & _ & _ & _ & Hne & Hds) & Hg & _).
      rewrite (fallback_returns lim _ m ds Hm Hg Hne Hds) in Hr.
      destruct (over_limit lim (length ds) (length ds)) eqn:Hl; [discriminate|].
      injection Hr as <-.
      exists [(L "ticket_id", VInt (Z.of_N (denoted ds)))].
      cbn [r_arguments r_name].
      split; [|split; [reflexivity|]].
      + unfold json_dumps. cbn [json_items json_value].
        now rewrite (py_repr_denoted lim ds Hne Hds Hl).
      + right. split; [reflexivity|]. split; [reflexivity|].
        exists m, ds. auto. }
  destruct Hgoal as (od & H1 & H2 & H3). exists od.
  split; [exact H1|]. split; [now apply json_loads_dumps with (lim := lim)|].
  split; [|exact H3].
  rewrite (filter_dumps lim od _ H1). now apply ascii_keys_values.
Qed.

Lemma arguments_are_json_witness :
  exists od,
    json_loads cafe_arguments = Some od /\
    nth_error od 2 = Some (L "meeting_room", VStr (L "Caf" ++ [e_acute])) /\
    filter non_ascii cafe_arguments = [e_acute].
Proof.
  destruct (arguments_are_json default_int_max_str_digits cafe_query
              (mkResponse (L "schedule_meeting") cafe_arguments))
    as (od & _ & H2 & H3 & H4); [vm_compute; reflexivity|].
  exists od. split; [exact H2|].
  destruct H4 as [(p & Hp & _ & _ & Hod & Hk)|(Hp & _)];
    [|vm_compute in Hp; discriminate].
  assert (Hp' : matching_rule PATTERNS (strip cafe_query) = Some (rule_at 1))
    by (vm_compute; reflexivity).
  assert (p = rule_at 1) by congruence. subst p.
  split.
  - apply (Hk 2 (L "meeting_room") (L "Caf" ++ [e_acute]));
      vm_compute; reflexivity.
  - cbn [r_arguments] in H3. rewrite H3, Hod. vm_compute. reflexivity.
Defined.

(** ** Surrounding whitespace *)

Lemma forallb_rev {A} (f : A -> bool) l :
  forallb f l = true -> forallb f (rev l) = true.
Proof.
  rewrite !forallb_forall. intros H x Hx. apply H. now apply in_rev.
Qed.

Lemma lstrip_split s :
  exists lead, s = lead ++ lstrip s /\ forallb is_space lead = true /\
               starts_with_space (lstrip s) = false.
Proof.
  induction s as [|c s (lead & Hs & Hl & Hn)]; simpl.
  - exists []. auto.
  - destruct (is_space c) eqn:E.
    + exists (c :: lead). simpl. rewrite E, <- Hs. auto.
    + exists []. simpl. auto.
Qed.

Lemma lstrip_unique lead t :
  forallb is_space lead = true -> starts_with_space t = false ->
  lstrip (lead ++ t) = t.
Proof.
  induction lead as [|c lead IH]; simpl; intros Hl Ht.
  - destruct t as [|x t]; simpl in *; [reflexivity|]. now rewrite Ht.
  - apply andb_true_iff in Hl as [Hc Hl]. rewrite Hc. auto.
Qed.

Lemma rstrip_rev s : rstrip s = rev (lstrip (rev s)).
Proof. unfold rstrip. now rewrite !rev_append_nil. Qed.

Lemma rstrip_split s :
  exists trail, s = rstrip s ++ trail /\ forallb is_space trail = true /\
                ends_with_space (rstrip s) = false.
Proof.
  destruct (lstrip_split (rev s)) as (lead & Hs & Hl & Hn).
  exists (rev lead). rewrite rstrip_rev. repeat split.
  - rewrite <- rev_app_distr, <- Hs. symmetry. apply rev_involutive.
  - now apply forallb_rev.
  - unfold ends_with_space. now rewrite rev_append_nil, rev_involutive.
Qed.

Lemma rstrip_unique t trail :
  ends_with_space t = false -> forallb is_space trail = true ->
  rstrip (t ++ trail) = t.
Proof.
  intros Ht Hl. rewrite rstrip_rev, rev_app_distr.
  rewrite lstrip_unique.
  - apply rev_involutive.
  - now apply forallb_rev.
  - unfold ends_with_space in Ht. now rewrite rev_append_nil in Ht.
Qed.

Lemma strip_split s :
  exists lead trail,
    s = lead ++ strip s ++ trail /\
    forallb is_space lead = true /\ forallb is_space trail = true /\
    starts_with_space (strip s) = false /\ ends_with_space (strip s) = false.
Proof.
  destruct (lstrip_split s) as (lead & Hs & Hl & Hn).
  destruct (rstrip_split (lstrip s)) as (trail & Hs' & Hl' & Hn').
  exists lead, trail. unfold strip. repeat split; auto.
  - now rewrite <- Hs', <- Hs.
  - destruct (rstrip (lstrip s)) as [|c t] eqn:E; [reflexivity|].
    rewrite Hs' in Hn. exact Hn.
Qed.

Lemma strip_unique lead t trail :
  forallb is_space lead = true -> forallb is_space trail = true ->
  starts_with_space t = false -> ends_with_space t = false ->
  strip (lead ++ t ++ trail) = t.
Proof.
  intros Hl Hr Hs He. destruct t as [|c t].
  - apply strip_spaces. apply forallb_app_iff. auto.
  - unfold strip. rewrite lstrip_unique; auto.
    now apply rstrip_unique.
Qed.

Lemma strip_idem s : strip (strip s) = strip s.
Proof.
  destruct (strip_split s) as (_ & _ & _ & _ & _ & Hs & He).
  rewrite <- (app_nil_r (strip s)) at 1.
  now apply (strip_unique [] (strip s) []).
Qed.

Lemma strip_padded lead q trail :
  forallb is_space lead = true -> forallb is_space trail = true ->
  strip (lead ++ q ++ trail) = strip q.
Proof.
  intros Hl Hr.
  destruct (strip_split q) as (l0 & t0 & Hq & Hl0 & Ht0 & Hs & He).
  rewrite Hq at 1.
  replace (lead ++ (l0 ++ strip q ++ t0) ++ trail)
    with ((lead ++ l0) ++ strip q ++ (t0 ++ trail))
    by (now rewrite <- !app_assoc).
  apply strip_unique; auto; apply forallb_app_iff; auto.
Qed.

(** X1. Whitespace around the query does not change the answer, as long as
    the query is not blank: the handler only looks at [q.strip()]. *)
Theorem surrounding_whitespace_ignored (lim : nat) (lead q trail : str) :
  forallb is_space lead = true -> forallb is_space trail = true ->
  strip q <> [] ->
  strip (lead ++ q ++ trail) = strip q /\
  route lim (lead ++ q ++ trail) = route lim q.
Proof.
  intros Hl Hr Hq. pose proof (strip_padded lead q trail Hl Hr) as Hs.
  split; [exact Hs|].
  assert (Hne : q <> []) by (intros ->; now apply Hq).
  assert (Hne' : lead ++ q ++ trail <> []).
  { intro E. apply app_eq_nil in E as [_ E]. apply app_eq_nil in E as [E _].
    contradiction. }
  unfold route. rewrite (execute_nonempty _ _ Hne), (execute_nonempty _ _ Hne').
  now rewrite Hs.
Qed.

Lemma surrounding_whitespace_ignored_witness :
  route default_int_max_str_digits (L "  " ++ L "ticket 5" ++ L " ")
  = route default_int_max_str_digits (L "ticket 5").
Proof.
  apply (surrounding_whitespace_ignored default_int_max_str_digits
           (L "  ") (L "ticket 5") (L " ")); [reflexivity|reflexivity|].
  vm_compute. discriminate.
Defined.

(** ** Letter case *)

Lemma to_lower_idem c : to_lower (to_lower c) = to_lower c.
Proof. each_char c. Qed.

Lemma to_lower_class c :
  is_space (to_lower c) = is_space c /\
  is_decimal (to_lower c) = is_decimal c /\
  is_word (to_lower c) = is_word c /\
  is_code 10 (to_lower c) = is_code 10 c.
Proof. each_char c; repeat split. Qed.

Lemma to_lower_decimal c : is_decimal c = true -> to_lower c = c.
Proof. each_char c. Qed.

Lemma to_lower_upper c :
  to_lower c = c \/ (to_upper c = c /\ to_upper (to_lower c) = c).
Proof.
  destruct c as [[] [] [] [] [] [] [] []];
    first [left; reflexivity | right; split; reflexivity].
Qed.

Lemma to_lower_range lo hi c :
  cset_mem (CRange lo hi) (to_lower c) = cset_mem (CRange lo hi) c.
Proof.
  unfold cset_mem. rewrite to_lower_idem.
  destruct (to_lower_upper c) as [E | [E1 E2]].
  - now rewrite E.
  - rewrite E1, E2.
    destruct (in_range (code lo) (code hi) c),
             (in_range (code lo) (code hi) (to_lower c)); reflexivity.
Qed.

Lemma to_lower_cset cs c : cset_mem cs (to_lower c) = cset_mem cs c.
Proof.
  destruct cs as [| | |lo hi]; simpl.
  - apply to_lower_class.
  - apply to_lower_class.
  - f_equal. apply to_lower_class.
  - apply to_lower_range.
Qed.

Lemma lit_lower s : forall c,
  lit s (lower_cursor c) = option_map lower_cursor (lit s c).
Proof.
  induction s as [|x s IH]; intros [p pv r]; simpl; [reflexivity|].
  destruct r as [|y r]; simpl; [reflexivity|].
  rewrite to_lower_idem.
  destruct (eq_ascii (to_lower y) (to_lower x)); [|reflexivity].
  exact (IH (mkCursor (S p) (Some y) r)).
Qed.

Lemma walk_lower f :
  (forall c, f (to_lower c) = f c) ->
  forall n p pv s,
    walk f n p (option_map to_lower pv) (lower s)
    = map lower_cursor (walk f n p pv s).
Proof.
  intros Hf n. induction n as [|n IH]; intros p pv s; simpl.
  - destruct s; reflexivity.
  - destruct s as [|c s]; simpl; [reflexivity|].
    rewrite Hf. destruct (f c); [|reflexivity].
    f_equal. exact (IH (S p) (Some c) s).
Qed.

Lemma at_boundary_lower c : at_boundary (lower_cursor c) = at_boundary c.
Proof.
  destruct c as [p pv r]. unfold at_boundary, word_before, word_after. simpl.
  f_equal. f_equal.
  - destruct pv as [x|]; simpl; [apply to_lower_class | reflexivity].
  - destruct r as [|x r]; simpl; [reflexivity | apply to_lower_class].
Qed.

Lemma at_end_lower c : at_end (lower_cursor c) = at_end c.
Proof.
  destruct c as [p pv r]. unfold at_end. simpl.
  destruct r as [|x [|y r]]; simpl; try reflexivity. apply to_lower_class.
Qed.

Lemma flat_map_map {A B C} (f : B -> list C) (g : A -> B) l :
  flat_map f (map g l) = flat_map (fun x => f (g x)) l.
Proof. induction l as [|x l IH]; simpl; [reflexivity | now rewrite IH]. Qed.

Lemma map_flat_map {A B C} (f : A -> list B) (g : B -> C) l :
  map g (flat_map f l) = flat_map (fun x => map g (f x)) l.
Proof.
  induction l as [|x l IH]; simpl; [reflexivity|].
  now rewrite map_app, IH.
Qed.

(** Matching in the lowered text goes as in the text itself. *)
Lemma ms_lower r : forall base st,
  ms r base (lower_state st) = map lower_state (ms r base st).
Proof.
  induction r as [s|cs lo hi greedy| | |r1 IH1 r2 IH2|r1 IH1 r2 IH2|r IH|r IH];
    intros base st.
  - simpl. rewrite lit_lower. destruct (lit (L s) (fst st)); reflexivity.
  - cbn [ms]. destruct st as [[p pv s] mk]. cbn [fst snd lower_state lower_cursor pos prev rest].
    replace (length (lower s)) with (length s) by (symmetry; apply length_map).
    rewrite (walk_lower _ (to_lower_cset cs)), skipn_map.
    destruct greedy.
    + rewrite !rev_append_nil, <- map_rev, !map_map. reflexivity.
    + rewrite !map_map. reflexivity.
  - simpl. rewrite at_boundary_lower.
    destruct (at_boundary (fst st)); reflexivity.
  - simpl. rewrite at_end_lower. destruct (at_end (fst st)); reflexivity.
  - simpl. rewrite IH1, flat_map_map, map_flat_map.
    apply flat_map_ext. intro s1. apply IH2.
  - simpl. now rewrite IH1, IH2, map_app.
  - simpl. now rewrite IH, map_app.
  - simpl. rewrite IH, !map_map. reflexivity.
Qed.

Lemma scan_lower r : forall s p pv,
  scan r p (option_map to_lower pv) (lower s)
  = option_map (fun ps : nat * mstate => (fst ps, lower_state (snd ps)))
               (scan r p pv s).
Proof.
  induction s as [|c s IH]; intros p pv; simpl.
  - change (mkCursor p (option_map to_lower pv) [], @nil (nat * (nat * nat)))
      with (lower_state (mkCursor p pv [], [])).
    rewrite ms_lower.
    destruct (ms r 0 (mkCursor p pv [], [])); reflexivity.
  - change (mkCursor p (option_map to_lower pv) (to_lower c :: lower s),
            @nil (nat * (nat * nat)))
      with (lower_state (mkCursor p pv (c :: s), [])).
    rewrite ms_lower.
    destruct (ms r 0 (mkCursor p pv (c :: s), [])); [|reflexivity].
    exact (IH (S p) (Some c)).
Qed.

Lemma re_search_lower r text :
  re_search r (lower text) = option_map lower_match (re_search r text).
Proof.
  unfold re_search.
  change (scan r 0 None (lower text))
    with (scan r 0 (option_map to_lower None) (lower text)).
  rewrite scan_lower.
  destruct (scan r 0 None text) as [[p st]|]; reflexivity.
Qed.

Lemma slice_lower s a b : slice (lower s) a b = lower (slice s a b).
Proof. unfold slice, lower. now rewrite skipn_map, firstn_map. Qed.

Lemma group_lower m i :
  group (lower_match m) i = option_map lower (group m i).
Proof.
  unfold group. simpl. destruct (mark_of i (m_marks m)) as [[a b]|]; simpl.
  - now rewrite slice_lower.
  - reflexivity.
Qed.

Lemma groups_lower m : groups (lower_match m) = map (option_map lower) (groups m).
Proof.
  unfold groups. simpl. rewrite map_map. apply map_ext. intro i.
  apply group_lower.
Qed.

Lemma captures_lower p text :
  captures p (lower text) = map lower (captures p text).
Proof.
  unfold captures. rewrite re_search_lower.
  destruct (re_search (pattern p) text) as [m|]; simpl; [|reflexivity].
  rewrite groups_lower, flat_map_map, map_flat_map.
  apply flat_map_ext. intros [w|]; reflexivity.
Qed.

Lemma matches_lower text p : matches (lower text) p = matches text p.
Proof.
  unfold matches. rewrite re_search_lower.
  destruct (re_search (pattern p) text); reflexivity.
Qed.

Lemma matching_rule_lower ps text :
  matching_rule ps (lower text) = matching_rule ps text.
Proof.
  unfold matching_rule. induction ps as [|p ps IH]; simpl; [reflexivity|].
  rewrite matches_lower, IH. reflexivity.
Qed.

Lemma lstrip_lower s : lstrip (lower s) = lower (lstrip s).
Proof.
  induction s as [|c s IH]; simpl; [reflexivity|].
  destruct (to_lower_class c) as [-> _].
  destruct (is_space c); [exact IH | reflexivity].
Qed.

Lemma strip_lower s : strip (lower s) = lower (strip s).
Proof.
  unfold strip. rewrite lstrip_lower, !rstrip_rev.
  unfold lower at 1. rewrite <- map_rev.
  fold (lower (rev (lstrip s))). rewrite lstrip_lower.
  unfold lower. now rewrite map_rev.
Qed.

Lemma lower_app u v : lower (u ++ v) = lower u ++ lower v.
Proof. apply map_app. Qed.

Lemma lower_digits ds : forallb is_decimal ds = true -> lower ds = ds.
Proof.
  induction ds as [|c ds IH]; simpl; [reflexivity|].
  intro H. apply andb_true_iff in H as [Hc Hd].
  now rewrite (to_lower_decimal c Hc), IH.
Qed.

Lemma escape_lower c : escape_char (to_lower c) = lower (escape_char c).
Proof. each_char c. Qed.

Lemma encode_lower s : encode_basestring (lower s) = lower (encode_basestring s).
Proof.
  unfold encode_basestring. change (lower (dquote :: ?x)) with (dquote :: lower x).
  cbn [lower map]. f_equal. fold (lower (flat_map escape_char s ++ [dquote])).
  rewrite lower_app. f_equal.
  induction s as [|c s IH]; simpl; [reflexivity|].
  fold (lower s). rewrite IH, escape_lower. symmetry. apply lower_app.
Qed.

Lemma repr_lower lim z e : py_repr_int lim z = Some e -> lower e = e.
Proof.
  unfold py_repr_int.
  destruct (over_limit _ _ _); [discriminate|]. intro H. injection H as <-.
  rewrite lower_app, (lower_digits (repr_N _)) by apply repr_N_spec.
  destruct (z <? 0)%Z; reflexivity.
Qed.

Lemma json_value_lower lim v :
  json_value lim (lower_value v) = option_map lower (json_value lim v).
Proof.
  destruct v as [z|s]; simpl.
  - destruct (py_repr_int lim z) as [e|] eqn:E; simpl; [|reflexivity].
    now rewrite (repr_lower lim z e E).
  - now rewrite encode_lower.
Qed.

Lemma json_items_lower lim d :
  json_items lim (lower_odict d) = option_map (map lower) (json_items lim d).
Proof.
  induction d as [|[k v] d IH]; [reflexivity|].
  change (lower_odict ((k, v) :: d))
    with ((lower k, lower_value v) :: lower_odict d).
  cbn [json_items]. rewrite json_value_lower, IH.
  destruct (json_value lim v) as [e|]; [|reflexivity].
  destruct (json_items lim d) as [es|]; [|reflexivity].
  cbn [option_map map]. now rewrite encode_lower, !lower_app.
Qed.

Lemma join_lower sep xs : lower (join sep xs) = join (lower sep) (map lower xs).
Proof.
  induction xs as [|x xs IH]; [reflexivity|].
  destruct xs as [|y xs]; [reflexivity|].
  change (join sep (x :: y :: xs)) with (x ++ sep ++ join sep (y :: xs)).
  rewrite !lower_app, IH. reflexivity.
Qed.

Lemma json_dumps_lower lim d :
  json_dumps lim (lower_odict d) = option_map lower (json_dumps lim d).
Proof.
  unfold json_dumps. rewrite json_items_lower.
  destruct (json_items lim d) as [es|]; simpl; [|reflexivity].
  now rewrite !lower_app, join_lower.
Qed.

Lemma find_too_long_lower lim (ks : list str) :
  forall (ts : list argtype) (ws : list str),
  find (too_long lim) (zip3 ks ts (map lower ws))
  = option_map (fun it : str * argtype * str =>
                  let '(k, t, w) := it in (k, t, lower w))
               (find (too_long lim) (zip3 ks ts ws)).
Proof.
  induction ks as [|k ks IH]; intros [|t ts] [|w ws]; simpl; try reflexivity.
  unfold lower at 1 2. rewrite length_map.
  destruct t; simpl; [|apply IH].
  destruct (over_limit lim (length w) (length w)); [reflexivity | apply IH].
Qed.

Lemma arguments_lower (ks : list str) :
  forall (ts : list argtype) (ws : list str),
  Forall digits_if_int (zip3 ks ts ws) ->
  Forall (fun k => lower k = k) ks ->
  map (fun it : str * argtype * str =>
         let '(k, t, w) := it in (k, value_of t w))
      (zip3 ks ts (map lower ws))
  = lower_odict
      (map (fun it : str * argtype * str =>
              let '(k, t, w) := it in (k, value_of t w))
           (zip3 ks ts ws)).
Proof.
  induction ks as [|k ks IH]; intros [|t ts] [|w ws] Hd Hk; simpl;
    try reflexivity.
  inversion Hd as [|? ? Hw Hd']; subst. inversion Hk as [|? ? Hk1 Hk']; subst.
  rewrite (IH ts ws Hd' Hk'). simpl. rewrite Hk1. f_equal. f_equal.
  destruct t; simpl.
  - destruct (Hw eq_refl) as [_ Hds]. now rewrite (lower_digits w Hds).
  - now rewrite strip_lower.
Qed.

Lemma PATTERNS_lower_keys :
  forall p, In p PATTERNS -> Forall (fun k => lower k = k) (arg_keys p).
Proof.
  intros p Hp. simpl in Hp.
  repeat (destruct Hp as [<-|Hp]; [repeat constructor|]). destruct Hp.
Qed.

Lemma ticket_arguments_lower n : lower (ticket_arguments n) = ticket_arguments n.
Proof.
  unfold ticket_arguments. rewrite !lower_app.
  rewrite (lower_digits (repr_N n)) by apply repr_N_spec. reflexivity.
Qed.

Lemma lower_nil s : lower s = [] <-> s = [].
Proof. destruct s; simpl; split; congruence. Qed.

Lemma fallback_lower lim text :
  fst (fallback (lower text) (boot lim))
  = lower_outcome (fst (fallback text (boot lim))).
Proof.
  destruct (re_search fallback_pattern text) as [m|] eqn:E.
  - destruct (fallback_found text m E)
      as (a & t & ws & ds & b & (_ & _ & _ & _ & Hne & Hds) & Hg & _).
    assert (E' : re_search fallback_pattern (lower text) = Some (lower_match m))
      by (now rewrite re_search_lower, E).
    assert (Hg' : group (lower_match m) 1 = Some ds)
      by (now rewrite group_lower, Hg; simpl; rewrite (lower_digits ds Hds)).
    rewrite (fallback_returns lim _ _ ds E' Hg' Hne Hds).
    rewrite (fallback_returns lim _ _ ds E Hg Hne Hds).
    destruct (over_limit lim (length ds) (length ds)); [reflexivity|].
    unfold lower_outcome. cbn [r_name r_arguments].
    now rewrite ticket_arguments_lower.
  - rewrite !fallback_eq, re_search_lower, E. reflexivity.
Qed.

(** The answer to the query in lower case is the answer to the query, with
    the argument text in lower case. *)
Lemma route_lower lim q : route lim (lower q) = lower_outcome (route lim q).
Proof.
  destruct q as [|c q]; [reflexivity|].
  set (q0 := c :: q).
  destruct (matching_rule PATTERNS (strip q0)) as [p|] eqn:E.
  - assert (E' : matching_rule PATTERNS (strip (lower q0)) = Some p)
      by (now rewrite strip_lower, matching_rule_lower).
    destruct (route_primary lim q0 p E) as (_ & Hok & Hd & Hlen & ->).
    destruct (route_primary lim (lower q0) p E') as (_ & _ & _ & _ & ->).
    unfold items. rewrite strip_lower, captures_lower, find_too_long_lower.
    fold (items p (strip q0)).
    destruct (find (too_long lim) (items p (strip q0))) as [[[key t] w]|];
      [reflexivity|]. cbn [option_map].
    unfold arguments_of.
    rewrite arguments_lower;
      [|exact Hd | apply PATTERNS_lower_keys, (matching_rule_ok PATTERNS _ p PATTERNS_ok E)].
    rewrite json_dumps_lower. fold (arguments_of p (captures p (strip q0))).
    destruct (json_dumps lim (arguments_of p (captures p (strip q0))));
      reflexivity.
  - assert (E' : matching_rule PATTERNS (strip (lower q0)) = None)
      by (now rewrite strip_lower, matching_rule_lower).
    rewrite (route_fallback lim (lower q0)); [|discriminate | exact E'].
    rewrite (route_fallback lim q0); [|discriminate | exact E].
    rewrite strip_lower. apply fallback_lower.
Qed.

(** X2. Letter case is ignored: two queries that differ only in the case of
    their letters select the same rule, and get the same answer up to the
    case of the letters in the argument text. *)
Theorem letter_case_ignored (lim : nat) (q1 q2 : str) :
  lower q1 = lower q2 ->
  matching_rule PATTERNS (strip q1) = matching_rule PATTERNS (strip q2) /\
  (forall p, map lower (captures p (strip q1))
             = map lower (captures p (strip q2))) /\
  lower_outcome (route lim q1) = lower_outcome (route lim q2).
Proof.
  intro H. repeat split.
  - rewrite <- (matching_rule_lower PATTERNS (strip q1)),
            <- (matching_rule_lower PATTERNS (strip q2)).
    now rewrite <- !strip_lower, H.
  - intro p. rewrite <- !captures_lower, <- !strip_lower. now rewrite H.
  - rewrite <- !route_lower. now rewrite H.
Qed.

Lemma letter_case_ignored_witness :
  lower_outcome (route default_int_max_str_digits (L "STATUS of Ticket 7"))
  = lower_outcome (route default_int_max_str_digits (L "status OF ticket 7")).
Proof.
  apply (letter_case_ignored default_int_max_str_digits
           (L "STATUS of Ticket 7") (L "status OF ticket 7")).
  reflexivity.
Defined.

(** ** What a pattern accepts *)

Lemma last_app_default {A} (l1 l2 : list A) : forall d,
  last (l1 ++ l2) d = last l2 (last l1 d).
Proof.
  induction l1 as [|x l1 IH]; intro d; [reflexivity|].
  change ((x :: l1) ++ l2) with (x :: (l1 ++ l2)).
  now rewrite !last_cons, IH.
Qed.

Lemma accepts_length r : forall pv w after gs,
  accepts r pv w after gs -> length gs = ngroups r.
Proof.
  induction r as [s|cs lo hi gr| | |r1 IH1 r2 IH2|r1 IH1 r2 IH2|r IH|r IH];
    intros pv w after gs H; simpl in H.
  - now destruct H as [_ ->].
  - now destruct H as (_ & _ & _ & ->).
  - now destruct H as (_ & _ & ->).
  - now destruct H as (_ & _ & ->).
  - destruct H as (w1 & w2 & gs1 & gs2 & _ & -> & H1 & H2).
    rewrite length_app, (IH1 _ _ _ _ H1), (IH2 _ _ _ _ H2). reflexivity.
  - destruct H as [(gs1 & H1 & ->)|(gs2 & H2 & ->)];
      rewrite length_app, repeat_length; simpl.
    + now rewrite (IH1 _ _ _ _ H1).
    + now rewrite (IH2 _ _ _ _ H2).
  - destruct H as [H|[_ ->]]; [now apply IH in H|]. apply repeat_length.
  - destruct H as (gs' & H & ->). simpl. now rewrite (IH _ _ _ _ H).
Qed.

Lemma moved_refl c : moved c c [].
Proof. unfold moved. simpl. repeat split. lia. Qed.

Lemma moved_trans c c1 c' w1 w2 :
  moved c c1 w1 -> moved c1 c' w2 -> moved c c' (w1 ++ w2).
Proof.
  intros (R1 & P1 & V1) (R2 & P2 & V2). unfold moved.
  rewrite R1, R2, P2, P1, V2, V1, length_app, map_app, last_app_default,
    <- app_assoc.
  repeat split. lia.
Qed.

Lemma skipn_length_app {A} (a l : list A) : skipn (length a) (a ++ l) = l.
Proof. induction a as [|x a IH]; simpl; auto. Qed.

Lemma placed_valid text c : placed text c -> valid text c.
Proof.
  intros (a & -> & P & _). unfold valid. rewrite P. apply skipn_length_app.
Qed.

Lemma placed_moved text c c' w : placed text c -> moved c c' w -> placed text c'.
Proof.
  intros (a & T & P & V) (R1 & P1 & V1). exists (a ++ w).
  rewrite <- app_assoc, <- R1, P1, P, V1, V, length_app, map_app,
    last_app_default.
  auto.
Qed.

Lemma lit_moves s : forall c c',
  lit s c = Some c' -> exists w, moved c c' w /\ lower w = lower s.
Proof.
  induction s as [|x s IH]; intros c c' H; simpl in H.
  - injection H as <-. exists []. split; [apply moved_refl | reflexivity].
  - destruct (rest c) as [|y r] eqn:Hr; [discriminate|].
    destruct (eq_ascii (to_lower y) (to_lower x)) eqn:He; [|discriminate].
    apply IH in H as (w & (H1 & H2 & H3) & H4). simpl in H1, H2, H3.
    exists (y :: w). split.
    + unfold moved. rewrite Hr, H1, H2, H3. simpl length.
      change (map Some (y :: w)) with (Some y :: map Some w).
      rewrite last_cons. repeat split. lia.
    + simpl. fold (lower w). fold (lower s).
      now rewrite H4, (eq_ascii_true _ _ He).
Qed.

Lemma walk_moves f i : forall n p pv s c',
  nth_error (walk f n p pv s) i = Some c' ->
  exists w, moved (mkCursor p pv s) c' w /\ length w = i /\
            forallb f w = true /\ i <= n.
Proof.
  induction i as [|i IH]; intros n p pv s c' H.
  - assert (Hc : c' = mkCursor p pv s)
      by (destruct n; simpl in H; congruence).
    subst c'. exists []. split; [apply moved_refl|]. simpl. repeat split. lia.
  - destruct n as [|n]; [simpl in H; destruct i; discriminate|].
    simpl in H. destruct s as [|x s]; [destruct i; discriminate|].
    destruct (f x) eqn:Hx; [|destruct i; discriminate].
    apply IH in H as (w & (H1 & H2 & H3) & H4 & H5 & H6).
    simpl in H1, H2, H3.
    exists (x :: w). split.
    + unfold moved.
      change (map Some (x :: w)) with (Some x :: map Some w).
      rewrite last_cons. simpl. rewrite <- H1, H2, H3. repeat split. lia.
    + simpl. rewrite Hx, H5, H4. repeat split. lia.
Qed.

Lemma marked_same text n k mk :
  marked text (nth k (repeat None n) None) mk mk.
Proof. rewrite nth_repeat_same. reflexivity. Qed.

(** Every way in which the matcher matches is one that the pattern
    accepts, and the marks it leaves are the groups of that way. *)
Lemma ms_sound text r : forall base st st',
  In st' (ms r base st) -> placed text (fst st) ->
  exists w gs,
    moved (fst st) (fst st') w /\
    accepts r (prev (fst st)) w (rest (fst st')) gs /\
    forall k, k < ngroups r ->
      marked text (nth k gs None)
             (mark_of (S (base + k)) (snd st))
             (mark_of (S (base + k)) (snd st')).
Proof.
  induction r as [s|cs lo hi gr| | |r1 IH1 r2 IH2|r1 IH1 r2 IH2|r IH|r IH];
    intros base st st' Hin Hp.
  - (* Lit *)
    simpl in Hin. destruct (lit (L s) (fst st)) as [c'|] eqn:Hl; [|contradiction].
    destruct Hin as [<-|[]]. apply lit_moves in Hl as (w & Hm & Hw).
    exists w, []. split; [exact Hm|]. split; [simpl; auto|].
    intros k Hk. simpl in Hk. lia.
  - (* Rep *)
    simpl in Hin. apply in_map_iff in Hin as (c' & <- & H).
    assert (H' : In c' (skipn lo (walk (cset_mem cs)
                 match hi with Some h => h | None => length (rest (fst st)) end
                 (pos (fst st)) (prev (fst st)) (rest (fst st))))).
    { destruct gr; [rewrite rev_append_nil in H; now apply in_rev|assumption]. }
    apply in_skipn_nth in H' as (i & Hi & H').
    apply walk_moves in H' as (w & Hm & Hlen & Hf & Hn).
    exists w, []. split; [exact Hm|]. split.
    + simpl. repeat split; auto; [lia|]. destruct hi; [lia | exact I].
    + intros k Hk. simpl in Hk. lia.
  - (* WordB *)
    simpl in Hin. destruct (at_boundary (fst st)) eqn:Hb; [|contradiction].
    destruct Hin as [<-|[]]. exists [], []. split; [apply moved_refl|].
    split; [simpl; auto|]. intros k Hk. simpl in Hk. lia.
  - (* Eos *)
    simpl in Hin. destruct (at_end (fst st)) eqn:Hb; [|contradiction].
    destruct Hin as [<-|[]]. exists [], []. split; [apply moved_refl|].
    split; [simpl; auto|]. intros k Hk. simpl in Hk. lia.
  - (* Cat *)
    simpl in Hin. apply in_flat_map in Hin as (s1 & Hin1 & Hin2).
    destruct (IH1 _ _ _ Hin1 Hp) as (w1 & gs1 & M1 & A1 & G1).
    pose proof (placed_moved _ _ _ _ Hp M1) as Hp1.
    destruct (IH2 _ _ _ Hin2 Hp1) as (w2 & gs2 & M2 & A2 & G2).
    pose proof (ms_inv text r1 _ _ _ Hin1 (placed_valid _ _ Hp)) as (_ & _ & F1 & _).
    pose proof (ms_inv text r2 _ _ _ Hin2 (placed_valid _ _ Hp1)) as (_ & _ & F2 & _).
    exists (w1 ++ w2), (gs1 ++ gs2). split; [now apply moved_trans with (c1 := fst s1)|].
    split.
    + simpl. exists w1, w2, gs1, gs2. repeat split; auto.
      * destruct M2 as (R2 & _). now rewrite <- R2.
      * destruct M1 as (_ & _ & V1). now rewrite <- V1.
    + intros k Hk. simpl in Hk.
      pose proof (accepts_length _ _ _ _ _ A1) as L1.
      destruct (Nat.lt_ge_cases k (ngroups r1)) as [Hlt|Hge].
      * rewrite app_nth1 by lia. rewrite F2 by lia. now apply G1.
      * rewrite app_nth2 by lia. rewrite L1.
        rewrite <- (F1 (S (base + k))) by lia.
        replace (S (base + k)) with (S (base + ngroups r1 + (k - ngroups r1)))
          by lia.
        apply G2. lia.
  - (* Alt *)
    simpl in Hin. apply in_app_or in Hin as [Hin|Hin].
    + destruct (IH1 _ _ _ Hin Hp) as (w & gs1 & M1 & A1 & G1).
      pose proof (ms_inv text r1 _ _ _ Hin (placed_valid _ _ Hp)) as (_ & _ & F1 & _).
      pose proof (accepts_length _ _ _ _ _ A1) as L1.
      exists w, (gs1 ++ repeat None (ngroups r2)). split; [exact M1|]. split.
      * simpl. left. eauto.
      * intros k Hk. simpl in Hk.
        destruct (Nat.lt_ge_cases k (ngroups r1)) as [Hlt|Hge].
        -- rewrite app_nth1 by lia. now apply G1.
        -- rewrite app_nth2 by lia. rewrite nth_repeat_same. simpl.
           apply F1. lia.
    + destruct (IH2 _ _ _ Hin Hp) as (w & gs2 & M2 & A2 & G2).
      pose proof (ms_inv text r2 _ _ _ Hin (placed_valid _ _ Hp)) as (_ & _ & F2 & _).
      exists w, (repeat None (ngroups r1) ++ gs2). split; [exact M2|]. split.
      * simpl. right. eauto.
      * intros k Hk. simpl in Hk.
        destruct (Nat.lt_ge_cases k (ngroups r1)) as [Hlt|Hge].
        -- rewrite app_nth1 by (rewrite repeat_length; lia).
           rewrite nth_repeat_same. simpl. apply F2. lia.
        -- rewrite app_nth2 by (rewrite repeat_length; lia).
           rewrite repeat_length.
           replace (S (base + k)) with (S (base + ngroups r1 + (k - ngroups r1)))
             by lia.
           apply G2. lia.
  - (* Opt *)
    simpl in Hin. apply in_app_or in Hin as [Hin|[<-|[]]].
    + destruct (IH _ _ _ Hin Hp) as (w & gs & M & A & G).
      exists w, gs. split; [exact M|]. split; [simpl; now left | exact G].
    + exists [], (repeat None (ngroups r)). split; [apply moved_refl|].
      split; [simpl; now right|]. intros k _. apply marked_same.
  - (* Group *)
    simpl in Hin. apply in_map_iff in Hin as (s1 & <- & Hin).
    destruct (IH _ _ _ Hin Hp) as (w & gs & M & A & G).
    exists w, (Some w :: gs). split; [exact M|]. split; [simpl; eauto|].
    intros [|k] Hk; simpl in Hk.
    + simpl snd. rewrite Nat.add_0_r, mark_of_cons_eq. simpl.
      destruct M as (R1 & P1 & _). simpl in R1, P1.
      destruct (valid_step text (fst st) w _ (placed_valid _ _ Hp) R1) as [_ Hs].
      exists (pos (fst st)), (pos (fst s1)). split; [reflexivity|].
      etransitivity; [|exact Hs]. f_equal. exact P1.
    + simpl snd. rewrite mark_of_cons_ne by lia. simpl nth.
      replace (S (base + S k)) with (S (S base + k)) by lia.
      apply G. lia.
Qed.

Lemma moved_unique c c' w w' after :
  moved c c' w' -> rest c = w ++ after -> rest c' = after -> moved c c' w.
Proof.
  intros M Hr Ha. destruct M as (R & P & V).
  assert (w' = w) by (rewrite R, Ha in Hr; now apply app_inv_tail in Hr).
  subst w'. now repeat split.
Qed.

Lemma moved_rest c c' w after :
  moved c c' w -> rest c = w ++ after -> rest c' = after.
Proof. intros (R & _) Hr. rewrite R in Hr. now apply app_inv_head in Hr. Qed.

Lemma at_boundary_eq c pv after :
  prev c = pv -> rest c = after ->
  at_boundary c = at_boundary (mkCursor 0 pv after).
Proof.
  intros <- <-. unfold at_boundary, word_before, word_after. reflexivity.
Qed.

Lemma at_end_eq c pv after :
  rest c = after -> at_end c = at_end (mkCursor 0 pv after).
Proof. intros <-. reflexivity. Qed.

(** Every way the pattern accepts is one that the matcher tries. *)
Lemma ms_complete r : forall base st w after gs,
  rest (fst st) = w ++ after -> accepts r (prev (fst st)) w after gs ->
  exists st', In st' (ms r base st) /\ moved (fst st) (fst st') w.
Proof.
  induction r as [s|cs lo hi gr| | |r1 IH1 r2 IH2|r1 IH1 r2 IH2|r IH|r IH];
    intros base st w after gs Hr H; simpl in H.
  - (* Lit *)
    destruct H as [Hw _].
    destruct (lit_complete (L s) (fst st) w after Hr Hw) as (c' & H1 & H2 & _).
    exists (c', snd st). split; [simpl; rewrite H1; now left|].
    destruct (lit_moves _ _ _ H1) as (w' & M & _).
    exact (moved_unique _ _ _ _ _ M Hr H2).
  - (* Rep *)
    destruct H as (Hf & Hlo & Hhi & _).
    set (n := match hi with Some h => h | None => length (rest (fst st)) end).
    assert (Hn : length w <= n).
    { unfold n. destruct hi; [exact Hhi|]. rewrite Hr, length_app. lia. }
    destruct (walk_complete (cset_mem cs) w n (pos (fst st)) (prev (fst st))
                after Hf Hn) as (c' & H1 & H2 & _).
    rewrite <- Hr in H1.
    exists (c', snd st). split.
    + simpl. fold n. apply (in_map (fun c : cursor => (c, snd st))).
      assert (In c' (skipn lo (walk (cset_mem cs) n (pos (fst st))
                                    (prev (fst st)) (rest (fst st)))))
        by (apply in_skipn_nth; eauto).
      destruct gr; [rewrite rev_append_nil; now apply -> in_rev|assumption].
    + destruct (walk_moves _ _ _ _ _ _ _ H1) as (w' & M & _).
      destruct (fst st) as [p pv s0]. exact (moved_unique _ _ _ _ _ M Hr H2).
  - (* WordB *)
    destruct H as (-> & Hb & _). exists st. split; [|apply moved_refl].
    simpl in *. rewrite (at_boundary_eq _ _ _ eq_refl Hr), Hb. now left.
  - (* Eos *)
    destruct H as (-> & Hb & _). exists st. split; [|apply moved_refl].
    simpl in *. rewrite (at_end_eq _ (prev (fst st)) _ Hr), Hb. now left.
  - (* Cat *)
    destruct H as (w1 & w2 & gs1 & gs2 & -> & _ & A1 & A2).
    rewrite <- app_assoc in Hr.
    destruct (IH1 base st w1 (w2 ++ after) gs1 Hr A1) as (s1 & In1 & M1).
    pose proof (moved_rest _ _ _ _ M1 Hr) as Hr1.
    destruct M1 as (R1 & P1 & V1). rewrite <- V1 in A2.
    destruct (IH2 (base + ngroups r1) s1 w2 after gs2 Hr1 A2) as (s2 & In2 & M2).
    exists s2. split.
    + simpl. apply in_flat_map. eauto.
    + apply moved_trans with (c1 := fst s1); [now repeat split | exact M2].
  - (* Alt *)
    destruct H as [(gs1 & A1 & _)|(gs2 & A2 & _)].
    + destruct (IH1 base st w after gs1 Hr A1) as (s1 & In1 & M1).
      exists s1. split; [simpl; apply in_or_app; now left | exact M1].
    + destruct (IH2 (base + ngroups r1) st w after gs2 Hr A2) as (s1 & In1 & M1).
      exists s1. split; [simpl; apply in_or_app; now right | exact M1].
  - (* Opt *)
    destruct H as [A|[-> _]].
    + destruct (IH base st w after gs Hr A) as (s1 & In1 & M1).
      exists s1. split; [simpl; apply in_or_app; now left | exact M1].
    + exists st. split; [simpl; apply in_or_app; right; now left|].
      apply moved_refl.
  - (* Group *)
    destruct H as (gs' & A & _).
    destruct (IH (S base) st w after gs' Hr A) as (s1 & In1 & M1).
    exists (fst s1, (S base, (pos (fst st), pos (fst s1))) :: snd s1).
    split; [|exact M1]. simpl.
    apply (in_map (fun st' : mstate =>
                     (fst st', (S base, (pos (fst st), pos (fst st'))) :: snd st'))).
    exact In1.
Qed.

Lemma scan_found r : forall s p pv p' st,
  scan r p pv s = Some (p', st) ->
  exists u s' l,
    s = u ++ s' /\ p' = p + length u /\
    ms r 0 (mkCursor p' (last (map Some u) pv) s', []) = st :: l.
Proof.
  induction s as [|x s IH]; intros p pv p' st H; simpl in H.
  - destruct (ms r 0 (mkCursor p pv [], [])) as [|st0 l] eqn:Hm; [discriminate|].
    injection H as <- <-. exists [], [], l. simpl. rewrite Nat.add_0_r. auto.
  - destruct (ms r 0 (mkCursor p pv (x :: s), [])) as [|st0 l] eqn:Hm.
    + apply IH in H as (u & s' & l & -> & -> & H).
      exists (x :: u), s', l.
      change (map Some (x :: u)) with (Some x :: map Some u).
      rewrite last_cons. simpl length.
      replace (p + S (length u)) with (S p + length u) by lia. auto.
    + injection H as <- <-. exists [], (x :: s), l. simpl.
      rewrite Nat.add_0_r. auto.
Qed.

Lemma list_eq_nth_error {A} (l1 l2 : list A) :
  (forall k, nth_error l1 k = nth_error l2 k) -> l1 = l2.
Proof.
  revert l2. induction l1 as [|x l1 IH]; intros [|y l2] H.
  - reflexivity.
  - specialize (H 0). discriminate.
  - specialize (H 0). discriminate.
  - pose proof (H 0) as H0. simpl in H0. injection H0 as ->.
    f_equal. apply IH. intro k. exact (H (S k)).
Qed.

(** The match that [search] reports is a way in which the pattern accepts a
    part of the text, with the groups that the match reports. *)
Lemma re_search_sound r text m :
  re_search r text = Some m ->
  exists a w b,
    text = a ++ w ++ b /\ m_start m = length a /\
    m_end m = length a + length w /\ m_string m = text /\
    accepts r (last (map Some a) None) w b (groups m).
Proof.
  unfold re_search. destruct (scan r 0 None text) as [[p st]|] eqn:E;
    [|discriminate].
  intro H. injection H as <-.
  apply scan_found in E as (u & s' & l & -> & -> & E). simpl in E.
  set (c := mkCursor (length u) (last (map Some u) None) s') in E.
  assert (Hp : placed (u ++ s') (fst (c, @nil (nat * (nat * nat)))))
    by (exists u; auto).
  assert (Hin : In st (ms r 0 (c, []))) by (rewrite E; now left).
  destruct (ms_sound (u ++ s') r 0 _ _ Hin Hp) as (w & gs & M & A & G).
  destruct M as (R & P & _). simpl in R, P, A.
  exists u, w, (rest (fst st)). simpl.
  repeat split; auto; [now rewrite R|].
  replace (groups _) with gs; [exact A|].
  pose proof (accepts_length _ _ _ _ _ A) as Hl.
  apply list_eq_nth_error. intro k.
  destruct (Nat.lt_ge_cases k (ngroups r)) as [Hk|Hk].
  - rewrite groups_nth by exact Hk.
    rewrite (nth_error_nth' gs None) by lia. f_equal.
    specialize (G k Hk). unfold group. simpl.
    destruct (nth k gs None) as [wk|]; simpl in G.
    + destruct G as (a & b & -> & <-). reflexivity.
    + now rewrite G.
  - rewrite (proj2 (nth_error_None gs k)) by lia.
    symmetry. apply nth_error_None. rewrite groups_length. simpl. lia.
Qed.

Lemma re_search_complete r text a w b gs :
  text = a ++ w ++ b -> accepts r (last (map Some a) None) w b gs ->
  re_search r text <> None.
Proof.
  intros -> A.
  destruct (ms_complete r 0 (mkCursor (0 + length a) (last (map Some a) None)
                                      (w ++ b), []) w b gs eq_refl A)
    as (st' & Hin & _).
  assert (Hs : scan r 0 None (a ++ w ++ b) <> None).
  { apply scan_complete. intro E. rewrite E in Hin. destruct Hin. }
  unfold re_search. destruct (scan r 0 None (a ++ w ++ b)) as [[p st]|];
    congruence.
Qed.

(** No way in which the pattern accepts a part of the text starts to the
    left of the match that [search] reports. *)
Lemma re_search_leftmost r text m a w b gs :
  re_search r text = Some m -> text = a ++ w ++ b ->
  accepts r (last (map Some a) None) w b gs ->
  m_start m <= length a.
Proof.
  unfold re_search. destruct (scan r 0 None text) as [[p st]|] eqn:E;
    [|discriminate].
  intros H -> A. injection H as <-. simpl.
  apply (scan_leftmost r a 0 None (w ++ b) p st E).
  destruct (ms_complete r 0 (mkCursor (0 + length a) (last (map Some a) None)
                                      (w ++ b), []) w b gs eq_refl A)
    as (st' & Hin & _).
  intro E'. rewrite E' in Hin. destruct Hin.
Qed.

(** ** The forms of the five templates *)

Lemma last_map_some (ds : str) d :
  ds <> [] -> exists x, last (map Some ds) d = Some x /\ In x ds.
Proof.
  revert d. induction ds as [|c ds IH]; intros d H; [contradiction|].
  change (map Some (c :: ds)) with (Some c :: map Some ds). rewrite last_cons.
  destruct ds as [|c' ds].
  - exists c. simpl. auto.
  - destruct (IH (Some c)) as (x & Hx & Hin); [discriminate|].
    exists x. split; [exact Hx | now right].
Qed.

Lemma decimal_word c : is_decimal c = true -> is_word c = true.
Proof. each_char c. Qed.

Lemma lower_starts_with_word t x s :
  lower t = lower (x :: s) -> is_word x = true -> starts_with_word t = true.
Proof.
  destruct t as [|y t]; [discriminate|]. simpl. intros H Hx.
  injection H as Hy _.
  destruct (to_lower_class y) as (_ & _ & <- & _).
  destruct (to_lower_class x) as (_ & _ & Hw & _).
  now rewrite Hy, Hw.
Qed.

Lemma nonempty_length {A} (l : list A) : 1 <= length l <-> l <> [].
Proof. destruct l; simpl; split; try congruence; lia. Qed.

Lemma word_boundary_before pv t after :
  starts_with_word (t ++ after) = true ->
  at_boundary (mkCursor 0 pv (t ++ after))
  = negb (match pv with Some x => is_word x | None => false end).
Proof.
  unfold at_boundary, word_before, word_after, starts_with_word. simpl.
  destruct (t ++ after) as [|y l]; [discriminate|]. intros ->.
  destruct pv as [x|]; [destruct (is_word x)|]; reflexivity.
Qed.

Lemma word_boundary_after (ds : str) d after :
  ds <> [] -> forallb is_decimal ds = true ->
  at_boundary (mkCursor 0 (last (map Some ds) d) after)
  = negb (starts_with_word after).
Proof.
  intros Hne Hds. destruct (last_map_some ds d Hne) as (x & -> & Hin).
  unfold at_boundary, word_before, word_after, starts_with_word. simpl.
  rewrite forallb_forall in Hds. rewrite (decimal_word x (Hds x Hin)).
  destruct after as [|y l]; [reflexivity|]. destruct (is_word y); reflexivity.
Qed.

(** The form of the templates [\bPHRASE\s+(\d+)\b]. *)
Lemma phrase_number_accepts phrase x s pv w after gs :
  L phrase = x :: s -> is_word x = true ->
  accepts (cat [WordB; Lit phrase; plus CSpace; Group (plus CDigit); WordB])
          pv w after gs <->
  exists t ws ds,
    w = t ++ ws ++ ds /\ gs = [Some ds] /\
    lower t = lower (L phrase) /\
    ws <> [] /\ forallb is_space ws = true /\
    ds <> [] /\ forallb is_decimal ds = true /\
    match pv with Some x => is_word x | None => false end = false /\
    starts_with_word after = false.
Proof.
  intros Hph Hx. cbn [cat accepts plus]. split.
  - intros (w0 & w' & g0 & g' & -> & -> & (-> & B0 & ->) &
            t & w'' & g1 & g'' & -> & -> & (Ht & ->) &
            ws & w3 & g2 & g3 & -> & -> & (Hws & Lws & _ & ->) &
            ds & w4 & g4 & g5 & -> & -> & (g6 & (Hds & Lds & _ & ->) & ->) &
            -> & B1 & ->).
    apply nonempty_length in Lws, Lds.
    exists t, ws, ds. cbn [app] in *. rewrite app_nil_r in *.
    repeat split; auto.
    + rewrite word_boundary_before in B0.
      * now apply negb_true_iff in B0.
      * destruct t as [|y t]; [rewrite Hph in Ht; discriminate|].
        rewrite Hph in Ht. apply (lower_starts_with_word (y :: t) x s Ht Hx).
    + rewrite word_boundary_after in B1 by assumption.
      now apply negb_true_iff in B1.
  - intros (t & ws & ds & -> & -> & Ht & Hws & Lws & Hds & Lds & B0 & B1).
    exists [], (t ++ ws ++ ds), [], [Some ds]. repeat split.
    + rewrite word_boundary_before.
      * now rewrite B0.
      * destruct t as [|y t]; [rewrite Hph in Ht; discriminate|].
        rewrite Hph in Ht. apply (lower_starts_with_word (y :: t) x s Ht Hx).
    + exists t, (ws ++ ds), [], [Some ds]. repeat split; [exact Ht|].
      exists ws, ds, [], [Some ds]. repeat split; auto.
      * now apply nonempty_length.
      * exists ds, [], [Some ds], []. rewrite app_nil_r. repeat split.
        -- exists []. repeat split; auto. now apply nonempty_length.
        -- rewrite word_boundary_after by assumption. now rewrite B1.
Qed.

Lemma matches_true text p :
  matches text p = true <-> re_search (pattern p) text <> None.
Proof.
  unfold matches. destruct (re_search (pattern p) text); split; congruence.
Qed.

Lemma captures_groups p text m ws :
  re_search (pattern p) text = Some m -> groups m = map Some ws ->
  captures p text = ws.
Proof.
  intros Hm Hg. unfold captures. rewrite Hm, Hg. clear.
  induction ws as [|w ws IH]; simpl; [reflexivity | now rewrite IH].
Qed.

Lemma app_eq_length {A} (a a' x x' : list A) :
  length a = length a' -> a ++ x = a' ++ x' -> a = a' /\ x = x'.
Proof.
  revert a'. induction a as [|c a IH]; intros [|c' a'] Hl H;
    try discriminate Hl.
  - auto.
  - injection H as -> H. injection Hl as Hl.
    destruct (IH a' Hl H) as [-> ->]. auto.
Qed.

(** Two runs of one class that start at the same place and are each
    followed by something outside the class are the same run. *)
Lemma run_unique (f : ascii -> bool) u : forall x v y,
  forallb f u = true -> forallb f x = true ->
  match v with c :: _ => f c = false | [] => True end ->
  match y with c :: _ => f c = false | [] => True end ->
  u ++ v = x ++ y -> u = x /\ v = y.
Proof.
  induction u as [|c u IH]; intros [|d x] v y Hu Hx Hv Hy H; simpl in *.
  - auto.
  - subst v. apply andb_true_iff in Hx as [Hd _]. congruence.
  - subst y. apply andb_true_iff in Hu as [Hc _]. congruence.
  - injection H as -> H.
    apply andb_true_iff in Hu as [_ Hu]. apply andb_true_iff in Hx as [_ Hx].
    destruct (IH x v y Hu Hx Hv Hy H) as [-> ->]. auto.
Qed.

Lemma not_word_not_decimal b :
  starts_with_word b = false ->
  match b with c :: _ => is_decimal c = false | [] => True end.
Proof.
  destruct b as [|c b]; [auto|]. simpl. intro H.
  destruct (is_decimal c) eqn:E; [|reflexivity].
  now rewrite (decimal_word c E) in H.
Qed.

Lemma digits_then_not_space (ds b : str) :
  ds <> [] -> forallb is_decimal ds = true ->
  match ds ++ b with c :: _ => is_space c = false | [] => True end.
Proof.
  destruct ds as [|c ds]; [congruence|]. simpl. intros _ H.
  apply andb_true_iff in H as [H _]. now apply decimal_not_space.
Qed.

Lemma spaces_then_not_decimal (ws b : str) :
  ws <> [] -> forallb is_space ws = true ->
  match ws ++ b with c :: _ => is_decimal c = false | [] => True end.
Proof.
  destruct ws as [|c ws]; [congruence|]. simpl. intros _ H.
  apply andb_true_iff in H as [H _].
  destruct (is_decimal c) eqn:E; [|reflexivity].
  now rewrite (decimal_not_space c E) in H.
Qed.

Lemma letter_then_not_space (t b : str) x s :
  lower t = lower (x :: s) -> is_space x = false ->
  match t ++ b with c :: _ => is_space c = false | [] => True end.
Proof.
  destruct t as [|c t]; [discriminate|]. simpl. intros H Hx.
  injection H as H _. destruct (to_lower_class c) as (<- & _).
  destruct (to_lower_class x) as (Hs & _). now rewrite H, Hs.
Qed.

(** Two texts that spell the same literal take the same place. *)
Lemma literal_unique (t t' x x' : str) s :
  lower t = lower s -> lower t' = lower s -> t ++ x = t' ++ x' ->
  t = t' /\ x = x'.
Proof.
  intros Ht Ht'. apply app_eq_length.
  rewrite <- (length_map to_lower t), <- (length_map to_lower t').
  fold (lower t) (lower t'). now rewrite Ht, Ht'.
Qed.

(** At a given start, the form of a phrase-and-number template fixes the
    digits. *)
Lemma phrase_number_unique phrase text a t ws ds b a' t' ws' ds' b' :
  phrase_number_at phrase text a t ws ds b ->
  phrase_number_at phrase text a' t' ws' ds' b' ->
  length a' = length a -> ds' = ds.
Proof.
  intros (H & Ht & Nws & Hws & Nds & Hds & _ & Hb)
         (H' & Ht' & Nws' & Hws' & Nds' & Hds' & _ & Hb') Hl.
  rewrite H in H'. apply app_eq_length in H' as [_ H']; [|now symmetry].
  assert (Hlt : length t = length t').
  { rewrite <- (length_map to_lower t), <- (length_map to_lower t').
    fold (lower t) (lower t'). now rewrite Ht, Ht'. }
  apply app_eq_length in H' as [_ H']; [|exact Hlt].
  apply (run_unique is_space) in H' as [_ H']; auto;
    try now apply digits_then_not_space.
  apply (run_unique is_decimal) in H' as [H' _]; auto;
    now apply not_word_not_decimal.
Qed.

Lemma phrase_number_search phrase x s text :
  L phrase = x :: s -> is_word x = true ->
  (re_search (cat [WordB; Lit phrase; plus CSpace; Group (plus CDigit); WordB])
             text <> None <->
   exists a t ws ds b, phrase_number_at phrase text a t ws ds b) /\
  (forall m,
     re_search (cat [WordB; Lit phrase; plus CSpace; Group (plus CDigit); WordB])
               text = Some m ->
     exists a t ws ds b,
       phrase_number_at phrase text a t ws ds b /\ groups m = [Some ds] /\
       forall a' t' ws' ds' b',
         phrase_number_at phrase text a' t' ws' ds' b' ->
         length a <= length a').
Proof.
  intros Hph Hx.
  assert (Hc : forall a t ws ds b,
     phrase_number_at phrase text a t ws ds b ->
     text = a ++ (t ++ ws ++ ds) ++ b /\
     accepts (cat [WordB; Lit phrase; plus CSpace; Group (plus CDigit); WordB])
             (last (map Some a) None) (t ++ ws ++ ds) b [Some ds]).
  { intros a t ws ds b (-> & Ht & Hws & Lws & Hds & Lds & B0 & B1).
    split; [now rewrite <- !app_assoc|].
    apply (phrase_number_accepts phrase x s _ _ _ _ Hph Hx).
    exists t, ws, ds. repeat split; auto. }
  assert (Hs : forall m,
     re_search (cat [WordB; Lit phrase; plus CSpace; Group (plus CDigit); WordB])
               text = Some m ->
     exists a t ws ds b,
       phrase_number_at phrase text a t ws ds b /\ groups m = [Some ds] /\
       forall a' t' ws' ds' b',
         phrase_number_at phrase text a' t' ws' ds' b' ->
         length a <= length a').
  { intros m Hm.
    destruct (re_search_sound _ _ _ Hm) as (a & w & b & Ht0 & Hst & _ & _ & A).
    apply (phrase_number_accepts phrase x s _ _ _ _ Hph Hx) in A
      as (t & ws & ds & -> & Hg & Ht & Hws & Lws & Hds & Lds & B0 & B1).
    exists a, t, ws, ds, b. split; [|split; [exact Hg|]].
    - unfold phrase_number_at. rewrite Ht0, <- !app_assoc. repeat split; auto.
    - intros a' t' ws' ds' b' H'. destruct (Hc _ _ _ _ _ H') as [E A'].
      rewrite <- Hst. exact (re_search_leftmost _ _ _ _ _ _ _ Hm E A'). }
  split; [|exact Hs]. split.
  - destruct (re_search _ text) as [m|] eqn:Hm; [|congruence]. intros _.
    destruct (Hs m eq_refl) as (a & t & ws & ds & b & H & _). eauto 6.
  - intros (a & t & ws & ds & b & H). destruct (Hc _ _ _ _ _ H) as [E A].
    exact (re_search_complete _ _ _ _ _ _ E A).
Qed.


Lemma one_integer_argument lim q i key ds :
  matching_rule PATTERNS (strip q) = Some (rule_at i) ->
  arg_keys (rule_at i) = [key] -> arg_types (rule_at i) = [T_int] ->
  captures (rule_at i) (strip q) = [ds] ->
  over_limit lim (length ds) (length ds) = false ->
  exists args,
    route lim q = Return (mkResponse (name (rule_at i)) args) /\
    json_loads args = Some [(key, VInt (Z.of_N (denoted ds)))].
Proof.
  intros Hp Hk Ht Hc Hl.
  assert (Hd : digits_over_limit lim (rule_at i) (strip q) = false).
  { unfold digits_over_limit, items. rewrite Hk, Ht, Hc. simpl.
    now rewrite Hl. }
  destruct (primary_descriptor lim q _ Hp Hd) as (args & Hr & Hj & _).
  exists args. split; [exact Hr|].
  apply json_loads_dumps in Hj. rewrite Hj. unfold arguments_of.
  now rewrite Hk, Ht, Hc.
Qed.



(** X4. The third template, [\bexpense balance for employee\s+(\d+)\b],
    matches exactly the texts that hold the phrase in any case, whitespace
    and digits, with no word character just before the phrase or just after
    the digits; when the handler answers through it, the employee number is
    the value of the digits at the leftmost place where the query has that
    form. *)
Theorem expense_balance_template (lim : nat) (q : str) :
  name (rule_at 2) = L "get_expense_balance" /\
  (matches (strip q) (rule_at 2) = true <->
   exists a t ws ds b,
     phrase_number_at "expense balance for employee" (strip q) a t ws ds b) /\
  (matching_rule PATTERNS (strip q) = Some (rule_at 2) ->
   exists a t ws ds b,
     phrase_number_at "expense balance for employee" (strip q) a t ws ds b /\
     (forall a' t' ws' ds' b',
        phrase_number_at "expense balance for employee" (strip q) a' t' ws' ds' b' ->
        length a <= length a' /\ (length a' = length a -> ds' = ds)) /\
     captures (rule_at 2) (strip q) = [ds] /\
     (over_limit lim (length ds) (length ds) = false ->
      exists args,
        route lim q = Return (mkResponse (L "get_expense_balance") args) /\
        json_loads args = Some [(L "employee_id", VInt (Z.of_N (denoted ds)))])).
Proof.
  destruct (phrase_number_search "expense balance for employee" "e"%char
              (L "xpense balance for employee") (strip q) eq_refl eq_refl)
    as [Hiff Hs].
  split; [reflexivity|]. split.
  - rewrite matches_true. exact Hiff.
  - intro Hp.
    destruct (for_patterns_first PATTERNS (strip q) (boot lim) _ Hp)
      as (_ & m & E & _).
    destruct (Hs m E) as (a & t & ws & ds & b & Hat & Hg & Hleft).
    pose proof (captures_groups (rule_at 2) _ m [ds] E Hg) as Hc.
    exists a, t, ws, ds, b. split; [exact Hat|]. split.
    { intros a' t' ws' ds' b' H'. split; [exact (Hleft _ _ _ _ _ H')|].
      exact (phrase_number_unique _ _ _ _ _ _ _ _ _ _ _ _ Hat H'). }
    split; [exact Hc|]. intro Hl.
    exact (one_integer_argument lim q 2 (L "employee_id") ds Hp eq_refl eq_refl
             Hc Hl).
Qed.

Lemma expense_balance_template_witness :
  exists a t ws ds b,
    phrase_number_at "expense balance for employee"
      (strip (L "Show my expense balance for employee 10056.")) a t ws ds b /\
    captures (rule_at 2) (strip (L "Show my expense balance for employee 10056."))
    = [ds].
Proof.
  destruct (expense_balance_template default_int_max_str_digits
              (L "Show my expense balance for employee 10056.")) as (_ & _ & H).
  destruct H as (a & t & ws & ds & b & H1 & _ & H2 & _);
    [vm_compute; reflexivity|].
  exists a, t, ws, ds, b. auto.
Defined.

Lemma bonus_accepts pv w after gs :
  accepts (pattern (rule_at 3)) pv w after gs <->
  exists t ws1 e ws2 f ws3 y,
    w = t ++ ws1 ++ e ++ ws2 ++ f ++ ws3 ++ y /\ gs = [Some e; Some y] /\
    lower t = lower (L "performance bonus for employee") /\
    lower f = lower (L "for") /\
    (ws1 <> [] /\ forallb is_space ws1 = true) /\
    (ws2 <> [] /\ forallb is_space ws2 = true) /\
    (ws3 <> [] /\ forallb is_space ws3 = true) /\
    (e <> [] /\ forallb is_decimal e = true) /\
    (length y = 4 /\ forallb is_decimal y = true) /\
    match pv with Some x => is_word x | None => false end = false /\
    starts_with_word after = false.
Proof.
  change (pattern (rule_at 3))
    with (cat [WordB; Lit "performance bonus for employee"; plus CSpace;
               Group (plus CDigit); plus CSpace; Lit "for"; plus CSpace;
               Group (exactly CDigit 4); WordB]).
  cbn [cat accepts plus exactly]. split.
  - intros (w0 & w' & g0 & g' & -> & -> & (-> & B0 & ->) &
            t & w1 & g1 & g1' & -> & -> & (Ht & ->) &
            ws1 & w2 & g2 & g2' & -> & -> & (Hws1 & Lws1 & _ & ->) &
            e & w3 & g3 & g3' & -> & -> & (g3a & (He & Le & _ & ->) & ->) &
            ws2 & w4 & g4 & g4' & -> & -> & (Hws2 & Lws2 & _ & ->) &
            f & w5 & g5 & g5' & -> & -> & (Hf & ->) &
            ws3 & w6 & g6 & g6' & -> & -> & (Hws3 & Lws3 & _ & ->) &
            y & w7 & g7 & g7' & -> & -> & (g7a & (Hy & Ly & Ly' & ->) & ->) &
            -> & B1 & ->).
    apply nonempty_length in Lws1, Lws2, Lws3, Le.
    assert (Hy4 : length y = 4) by lia.
    exists t, ws1, e, ws2, f, ws3, y. cbn [app] in *. rewrite app_nil_r in *.
    repeat split; auto.
    + rewrite word_boundary_before in B0.
      * now apply negb_true_iff in B0.
      * destruct t as [|c t]; [discriminate|].
        apply (lower_starts_with_word (c :: t) "p"%char
                 (L "erformance bonus for employee") Ht eq_refl).
    + rewrite word_boundary_after in B1; auto.
      * now apply negb_true_iff in B1.
      * destruct y; [discriminate Hy4 | discriminate].
  - intros (t & ws1 & e & ws2 & f & ws3 & y & -> & -> & Ht & Hf &
            [Lws1 Hws1] & [Lws2 Hws2] & [Lws3 Hws3] & [Le He] & [Ly Hy] &
            B0 & B1).
    apply nonempty_length in Lws1, Lws2, Lws3, Le.
    exists [], (t ++ ws1 ++ e ++ ws2 ++ f ++ ws3 ++ y), [], [Some e; Some y].
    repeat split.
    { rewrite word_boundary_before.
      - now rewrite B0.
      - destruct t as [|c t]; [discriminate|].
        apply (lower_starts_with_word (c :: t) "p"%char
                 (L "erformance bonus for employee") Ht eq_refl). }
    exists t, (ws1 ++ e ++ ws2 ++ f ++ ws3 ++ y), [], [Some e; Some y].
    repeat split; [exact Ht|].
    exists ws1, (e ++ ws2 ++ f ++ ws3 ++ y), [], [Some e; Some y].
    repeat split; auto.
    exists e, (ws2 ++ f ++ ws3 ++ y), [Some e], [Some y].
    repeat split; [exists []; repeat split; auto|].
    exists ws2, (f ++ ws3 ++ y), [], [Some y]. repeat split; auto.
    exists f, (ws3 ++ y), [], [Some y]. repeat split; [exact Hf|].
    exists ws3, y, [], [Some y]. repeat split; auto.
    exists y, [], [Some y], []. rewrite app_nil_r. repeat split.
    + exists []. repeat split; auto; lia.
    + rewrite word_boundary_after; auto.
      * now rewrite B1.
      * destruct y; [discriminate Ly | discriminate].
Qed.

Lemma denoted_four y :
  length y = 4 -> forallb is_decimal y = true -> (denoted y < 10000)%N.
Proof.
  intros Hl Hd. pose proof (denoted_lt y Hd) as H. now rewrite Hl in H.
Qed.

(** At a given start, the form of the fourth template fixes both numbers. *)
Lemma bonus_unique text a t ws1 e ws2 f ws3 y b a' t' ws1' e' ws2' f' ws3' y' b' :
  bonus_at text a t ws1 e ws2 f ws3 y b ->
  bonus_at text a' t' ws1' e' ws2' f' ws3' y' b' ->
  length a' = length a -> e' = e /\ y' = y.
Proof.
  intros (H & Ht & Hf & [N1 S1] & [N2 S2] & [N3 S3] & [Ne He] & [Ly Hy] & _ & Hb)
         (H' & Ht' & Hf' & [N1' S1'] & [N2' S2'] & [N3' S3'] & [Ne' He'] &
          [Ly' Hy'] & _ & Hb') Hl.
  rewrite H in H'. apply app_eq_length in H' as [_ H']; [|now symmetry].
  apply (literal_unique _ _ _ _ _ Ht Ht') in H' as [_ H'].
  apply (run_unique is_space) in H' as [_ H']; auto;
    try now apply digits_then_not_space.
  apply (run_unique is_decimal) in H' as [E H']; auto;
    try now apply spaces_then_not_decimal.
  apply (run_unique is_space) in H' as [_ H']; auto;
    try (eapply letter_then_not_space; [eassumption | reflexivity]).
  apply (literal_unique _ _ _ _ _ Hf Hf') in H' as [_ H'].
  assert (Ny : y <> []) by (destruct y; [discriminate Ly | discriminate]).
  assert (Ny' : y' <> []) by (destruct y'; [discriminate Ly' | discriminate]).
  apply (run_unique is_space) in H' as [_ H']; auto;
    try now apply digits_then_not_space.
  apply app_eq_length in H' as [E' _]; [|congruence].
  auto.
Qed.

(** X5. The fourth template,
    [\bperformance bonus for employee\s+(\d+)\s+for\s+(\d{4})\b], matches
    exactly the texts of that form; the numbers it captures are those at
    the leftmost place where the query has that form, and the year has four
    digits, not followed by a word character, so [current_year] lies
    between 0 and 9999. *)
Theorem performance_bonus_template (lim : nat) (q : str) :
  name (rule_at 3) = L "calculate_performance_bonus" /\
  (matches (strip q) (rule_at 3) = true <->
   exists a t ws1 e ws2 f ws3 y b,
     bonus_at (strip q) a t ws1 e ws2 f ws3 y b) /\
  (matching_rule PATTERNS (strip q) = Some (rule_at 3) ->
   exists a t ws1 e ws2 f ws3 y b,
     bonus_at (strip q) a t ws1 e ws2 f ws3 y b /\
     (forall a' t' ws1' e' ws2' f' ws3' y' b',
        bonus_at (strip q) a' t' ws1' e' ws2' f' ws3' y' b' ->
        length a <= length a' /\
        (length a' = length a -> e' = e /\ y' = y)) /\
     captures (rule_at 3) (strip q) = [e; y] /\
     (denoted y < 10000)%N /\
     (over_limit lim (length e) (length e) = false ->
      exists args,
        route lim q
        = Return (mkResponse (L "calculate_performance_bonus") args) /\
        json_loads args
        = Some [(L "employee_id", VInt (Z.of_N (denoted e)));
                (L "current_year", VInt (Z.of_N (denoted y)))])).
Proof.
  assert (Hc : forall a t ws1 e ws2 f ws3 y b,
     bonus_at (strip q) a t ws1 e ws2 f ws3 y b ->
     strip q = a ++ (t ++ ws1 ++ e ++ ws2 ++ f ++ ws3 ++ y) ++ b /\
     accepts (pattern (rule_at 3)) (last (map Some a) None)
             (t ++ ws1 ++ e ++ ws2 ++ f ++ ws3 ++ y) b [Some e; Some y]).
  { intros a t ws1 e ws2 f ws3 y b (Ht & H).
    split; [now rewrite Ht, <- !app_assoc|].
    apply bonus_accepts. exists t, ws1, e, ws2, f, ws3, y.
    unfold ends_with_word in H. tauto. }
  assert (Hs : forall m,
     re_search (pattern (rule_at 3)) (strip q) = Some m ->
     exists a t ws1 e ws2 f ws3 y b,
       bonus_at (strip q) a t ws1 e ws2 f ws3 y b /\
       groups m = [Some e; Some y] /\
       forall a' t' ws1' e' ws2' f' ws3' y' b',
         bonus_at (strip q) a' t' ws1' e' ws2' f' ws3' y' b' ->
         length a <= length a').
  { intros m Hm.
    destruct (re_search_sound _ _ _ Hm) as (a & w & b & Ht & Hst & _ & _ & A).
    apply bonus_accepts in A
      as (t & ws1 & e & ws2 & f & ws3 & y & -> & Hg & H).
    exists a, t, ws1, e, ws2, f, ws3, y, b. split; [|split; [exact Hg|]].
    - unfold bonus_at. rewrite Ht, <- !app_assoc. tauto.
    - intros a' t' ws1' e' ws2' f' ws3' y' b' H'.
      destruct (Hc _ _ _ _ _ _ _ _ _ H') as [E A'].
      rewrite <- Hst. exact (re_search_leftmost _ _ _ _ _ _ _ Hm E A'). }
  split; [reflexivity|]. split.
  - rewrite matches_true. split.
    + destruct (re_search _ (strip q)) as [m|] eqn:Hm; [|congruence].
      intros _.
      destruct (Hs m eq_refl) as (a & t & ws1 & e & ws2 & f & ws3 & y & b & H & _).
      exists a, t, ws1, e, ws2, f, ws3, y, b. exact H.
    + intros (a & t & ws1 & e & ws2 & f & ws3 & y & b & H).
      destruct (Hc _ _ _ _ _ _ _ _ _ H) as [E A].
      exact (re_search_complete _ _ _ _ _ _ E A).
  - intro Hp.
    destruct (for_patterns_first PATTERNS (strip q) (boot lim) _ Hp)
      as (_ & m & E & _).
    destruct (Hs m E)
      as (a & t & ws1 & e & ws2 & f & ws3 & y & b & Hat & Hg & Hleft).
    pose proof (captures_groups (rule_at 3) _ m [e; y] E Hg) as Hcap.
    exists a, t, ws1, e, ws2, f, ws3, y, b.
    split; [exact Hat|]. split.
    { intros a' t' ws1' e' ws2' f' ws3' y' b' H'.
      split; [exact (Hleft _ _ _ _ _ _ _ _ _ H')|].
      exact (bonus_unique _ _ _ _ _ _ _ _ _ _ _ _ _ _ _ _ _ _ _ Hat H'). }
    destruct Hat as (H0 & H1 & H2 & H3 & H4 & H5 & [He He'] & [Hy Hy'] & H8 & H9).
    split; [exact Hcap|].
    split; [now apply denoted_four|]. intro Hl.
    assert (Hd : digits_over_limit lim (rule_at 3) (strip q) = false).
    { unfold digits_over_limit, items. rewrite Hcap. simpl. rewrite Hl, Hy.
      reflexivity. }
    destruct (primary_descriptor lim q _ Hp Hd) as (args & Hr & Hj & _).
    exists args. split; [exact Hr|].
    apply json_loads_dumps in Hj. rewrite Hj. unfold arguments_of.
    now rewrite Hcap.
Qed.

Lemma performance_bonus_template_witness :
  exists e y,
    captures (rule_at 3)
      (strip (L "Calculate performance bonus for employee 10056 for 2025."))
    = [e; y] /\
    (denoted y < 10000)%N.
Proof.
  destruct (performance_bonus_template default_int_max_str_digits
              (L "Calculate performance bonus for employee 10056 for 2025."))
    as (_ & _ & H).
  destruct H as (a & t & ws1 & e & ws2 & f & ws3 & y & b & _ & _ & H1 & H2 & _);
    [vm_compute; reflexivity|].
  exists e, y. auto.
Defined.

Lemma spaces_accepts pv ws after gs :
  accepts (plus CSpace) pv ws after gs <-> spaces ws /\ gs = [].
Proof.
  unfold spaces. cbn [plus accepts cset_mem]. rewrite nonempty_length. tauto.
Qed.

Lemma digit09_decimal c : cset_mem digit09 c = is_decimal c.
Proof. each_char c. Qed.

Lemma digit09_run w : forallb (cset_mem digit09) w = forallb is_decimal w.
Proof.
  induction w as [|c w IH]; [reflexivity|].
  cbn [forallb]. now rewrite digit09_decimal, IH.
Qed.

Lemma is_code_eq n c : is_code n c = true -> c = ascii_of_N n.
Proof.
  unfold is_code, code. intro H. apply N.eqb_eq in H. rewrite <- H.
  symmetry. apply ascii_N_embedding.
Qed.

Lemma lower_sign c x :
  is_alpha x = false -> (to_lower c = x <-> c = x).
Proof.
  intro Hx. split; [|intros ->; revert Hx; each_char x].
  intros <-. revert Hx. each_char c.
Qed.

Lemma lower_one w x :
  is_alpha x = false -> (lower w = [x] <-> w = [x]).
Proof.
  intro Hx. destruct w as [|c [|c' w]]; simpl; split; try discriminate.
  - intro H. injection H as H. now apply (lower_sign c x Hx) in H as ->.
  - intro H. injection H as ->. f_equal. now apply (lower_sign x x Hx).
Qed.

Lemma exactly_accepts cs n pv w after gs :
  accepts (exactly cs n) pv w after gs <->
  forallb (cset_mem cs) w = true /\ length w = n /\ gs = [].
Proof. cbn [exactly accepts]. split; intros (H1 & H2); repeat split; try tauto; lia. Qed.

Ltac by_decimals :=
  repeat match goal with
         | H : is_decimal _ = true |- _ => rewrite H; clear H
         end;
  reflexivity.

Lemma date_accepts pv w after gs :
  accepts date_pattern pv w after gs <-> date_shaped w = true /\ gs = [].
Proof.
  unfold date_pattern. cbn [cat]. cbn [accepts]. fold (exactly digit09 4) (exactly digit09 2).
  setoid_rewrite exactly_accepts. setoid_rewrite digit09_run.
  change (lower (L "-")) with ["-"%char].
  setoid_rewrite (lower_one _ "-"%char eq_refl). split.
  - intros (y & w1 & g1 & g1' & -> & -> & (Hy & Ly & ->) &
            h1 & w2 & g2 & g2' & -> & -> & (-> & ->) &
            m & w3 & g3 & g3' & -> & -> & (Hm & Lm & ->) &
            h2 & d & g4 & g4' & -> & -> & (-> & ->) & (Hd & Ld & ->)).
    split; [|reflexivity].
    destruct y as [|y1 [|y2 [|y3 [|y4 [|]]]]]; try discriminate Ly.
    destruct m as [|m1 [|m2 [|]]]; try discriminate Lm.
    destruct d as [|d1 [|d2 [|]]]; try discriminate Ld.
    cbn [app date_shaped]. cbn [forallb] in *.
    repeat match goal with
           | H : _ && _ = true |- _ => apply andb_true_iff in H as [? H]
           end.
    by_decimals.
  - intros [Hw ->].
    destruct w as [|y1 [|y2 [|y3 [|y4 [|h1 [|m1 [|m2 [|h2 [|d1 [|d2 [|]]]]]]]]]]];
      try discriminate Hw.
    cbn [date_shaped forallb] in Hw.
    repeat match goal with
           | H : _ && _ = true |- _ => apply andb_true_iff in H as [H ?]
           end.
    repeat match goal with
           | H : is_code _ _ = true |- _ => apply is_code_eq in H; subst
           end.
    exists [y1; y2; y3; y4], ("-"%char :: [m1; m2] ++ "-"%char :: [d1; d2]), [], [].
    repeat split; [cbn [forallb]; by_decimals|].
    exists ["-"%char], ([m1; m2] ++ "-"%char :: [d1; d2]), [], [].
    repeat split.
    exists [m1; m2], ("-"%char :: [d1; d2]), [], [].
    repeat split; [cbn [forallb]; by_decimals|].
    exists ["-"%char], [d1; d2], [], [].
    repeat split. cbn [forallb]; by_decimals.
Qed.

Lemma time_accepts pv w after gs :
  accepts time_pattern pv w after gs <-> time_shaped w = true /\ gs = [].
Proof.
  unfold time_pattern. cbn [cat]. cbn [accepts]. fold (exactly digit09 2).
  setoid_rewrite exactly_accepts. setoid_rewrite digit09_run.
  change (lower (L ":")) with [":"%char].
  setoid_rewrite (lower_one _ ":"%char eq_refl). split.
  - intros (h & w1 & g1 & g1' & -> & -> & (Hh & Lh & Lh' & ->) &
            c & m & g2 & g2' & -> & -> & (-> & ->) & (Hm & Lm & ->)).
    split; [|reflexivity].
    destruct m as [|m1 [|m2 [|]]]; try discriminate Lm.
    destruct h as [|h1 [|h2 [|]]]; simpl in Lh, Lh'; try lia;
      cbn [app time_shaped]; cbn [forallb] in *;
      repeat match goal with
             | H : _ && _ = true |- _ => apply andb_true_iff in H as [? H]
             end;
      by_decimals.
  - intros [Hw ->].
    destruct w as [|h1 [|c [|m1 [|m2 [|x [|]]]]]]; try discriminate Hw;
      cbn [time_shaped forallb] in Hw;
      repeat match goal with
             | H : _ && _ = true |- _ => apply andb_true_iff in H as [H ?]
             end;
      repeat match goal with
             | H : is_code _ _ = true |- _ => apply is_code_eq in H; subst
             end.
    + exists [h1], (":"%char :: [m1; m2]), [], [].
      repeat split; [cbn [forallb]; by_decimals
                    | simpl; lia | simpl; lia |].
      exists [":"%char], [m1; m2], [], []. repeat split.
      cbn [forallb]; by_decimals.
    + exists [h1; c], (":"%char :: [m2; x]), [], [].
      repeat split; [cbn [forallb]; by_decimals
                    | simpl; lia | simpl; lia |].
      exists [":"%char], [m2; x], [], []. repeat split.
      cbn [forallb]; by_decimals.
Qed.

Lemma accepts_cat r1 r2 pv w1 w2 after gs1 gs2 :
  accepts r1 pv w1 (w2 ++ after) gs1 ->
  accepts r2 (last (map Some w1) pv) w2 after gs2 ->
  accepts (Cat r1 r2) pv (w1 ++ w2) after (gs1 ++ gs2).
Proof. intros H1 H2. exists w1, w2, gs1, gs2. auto. Qed.

Lemma accepts_boundary_before pv t after :
  starts_with_word (t ++ after) = true ->
  match pv with Some x => is_word x | None => false end = false ->
  accepts WordB pv [] (t ++ after) [].
Proof.
  intros Ht Hpv. repeat split. rewrite word_boundary_before by exact Ht.
  now rewrite Hpv.
Qed.

Lemma schedule_accepts pv w after gs :
  accepts (pattern (rule_at 1)) pv w after gs <->
  exists t ws1 d ws2 w_at ws3 tm ws4 w_in ws5 room,
    w = t ++ ws1 ++ d ++ ws2 ++ w_at ++ ws3 ++ tm ++ ws4 ++ w_in ++ ws5 ++ room /\
    gs = [Some d; Some tm; Some room] /\
    lower t = lower (L "schedule a meeting on") /\
    lower w_at = lower (L "at") /\ lower w_in = lower (L "in") /\
    spaces ws1 /\ spaces ws2 /\ spaces ws3 /\ spaces ws4 /\ spaces ws5 /\
    date_shaped d = true /\ time_shaped tm = true /\
    (room <> [] /\ forallb (fun c => negb (is_code 10 c)) room = true) /\
    match pv with Some x => is_word x | None => false end = false /\
    at_end (mkCursor 0 None after) = true.
Proof.
  change (pattern (rule_at 1))
    with (Cat WordB (Cat (Lit "schedule a meeting on") (Cat (plus CSpace)
          (Cat (Group date_pattern) (Cat (plus CSpace) (Cat (Lit "at")
          (Cat (plus CSpace) (Cat (Group time_pattern) (Cat (plus CSpace)
          (Cat (Lit "in") (Cat (plus CSpace)
          (Cat (Group (plus CAny)) Eos)))))))))))).
  split.
  - intros (w0 & w' & g0 & g' & -> & -> & (-> & B0 & ->) &
            t & x1 & g1 & g1' & -> & -> & (Ht & ->) &
            ws1 & x2 & g2 & g2' & -> & -> & S1 &
            d & x3 & g3 & g3' & -> & -> & (gd & Hd & ->) &
            ws2 & x4 & g4 & g4' & -> & -> & S2 &
            w_at & x5 & g5 & g5' & -> & -> & (Hat & ->) &
            ws3 & x6 & g6 & g6' & -> & -> & S3 &
            tm & x7 & g7 & g7' & -> & -> & (gt & Htm & ->) &
            ws4 & x8 & g8 & g8' & -> & -> & S4 &
            w_in & x9 & g9 & g9' & -> & -> & (Hin & ->) &
            ws5 & x10 & g10 & g10' & -> & -> & S5 &
            room & x11 & g11 & g11' & -> & -> &
            (gr & (Hr & Lr & _ & ->) & ->) & (-> & E & ->)).
    apply spaces_accepts in S1 as [S1 ->], S2 as [S2 ->], S3 as [S3 ->],
      S4 as [S4 ->], S5 as [S5 ->].
    apply date_accepts in Hd as [Hd ->]. apply time_accepts in Htm as [Htm ->].
    apply nonempty_length in Lr.
    exists t, ws1, d, ws2, w_at, ws3, tm, ws4, w_in, ws5, room.
    cbn [app] in *. rewrite app_nil_r in *. repeat split; auto;
      try apply S1; try apply S2; try apply S3; try apply S4; try apply S5.
    rewrite word_boundary_before in B0.
    + now apply negb_true_iff in B0.
    + destruct t as [|c t]; [discriminate|].
      apply (lower_starts_with_word (c :: t) "s"%char
               (L "chedule a meeting on") Ht eq_refl).
  - intros (t & ws1 & d & ws2 & w_at & ws3 & tm & ws4 & w_in & ws5 & room &
            -> & -> & Ht & Hat & Hin & S1 & S2 & S3 & S4 & S5 & Hd & Htm &
            [Lr Hr] & B0 & E).
    apply (accepts_cat WordB _ pv [] _ after [] [Some d; Some tm; Some room]).
    { rewrite <- app_assoc. apply accepts_boundary_before; [|exact B0].
      destruct t as [|c t]; [discriminate|].
      apply (lower_starts_with_word (c :: t) "s"%char
               (L "chedule a meeting on") Ht eq_refl). }
    apply (accepts_cat _ _ _ t _ after [] [Some d; Some tm; Some room]);
      [split; auto|].
    apply (accepts_cat _ _ _ ws1 _ after [] [Some d; Some tm; Some room]);
      [now apply spaces_accepts|].
    apply (accepts_cat _ _ _ d _ after [Some d] [Some tm; Some room]);
      [exists []; split; [now apply date_accepts | reflexivity]|].
    apply (accepts_cat _ _ _ ws2 _ after [] [Some tm; Some room]);
      [now apply spaces_accepts|].
    apply (accepts_cat _ _ _ w_at _ after [] [Some tm; Some room]);
      [split; auto|].
    apply (accepts_cat _ _ _ ws3 _ after [] [Some tm; Some room]);
      [now apply spaces_accepts|].
    apply (accepts_cat _ _ _ tm _ after [Some tm] [Some room]);
      [exists []; split; [now apply time_accepts | reflexivity]|].
    apply (accepts_cat _ _ _ ws4 _ after [] [Some room]);
      [now apply spaces_accepts|].
    apply (accepts_cat _ _ _ w_in _ after [] [Some room]); [split; auto|].
    apply (accepts_cat _ _ _ ws5 _ after [] [Some room]);
      [now apply spaces_accepts|].
    rewrite <- (app_nil_r room) at 1.
    apply (accepts_cat _ _ _ room [] after [Some room] []).
    + exists []. split; [|reflexivity]. cbn [plus accepts].
      repeat split; auto. now apply nonempty_length.
    + repeat split. exact E.
Qed.

Lemma ends_with_space_snoc l x : ends_with_space (l ++ [x]) = is_space x.
Proof.
  unfold ends_with_space. rewrite rev_append_nil, rev_app_distr. reflexivity.
Qed.

Lemma ends_with_space_app l s :
  s <> [] -> ends_with_space (l ++ s) = ends_with_space s.
Proof.
  intro Hs. destruct (exists_last Hs) as (s' & x & ->).
  now rewrite app_assoc, !ends_with_space_snoc.
Qed.

Lemma strip_nil s : strip s = [] <-> forallb is_space s = true.
Proof.
  split; [|apply strip_spaces].
  intro H. destruct (strip_split s) as (lead & trail & Hs & Hl & Ht & _).
  rewrite Hs, H. apply forallb_app_iff. auto.
Qed.

Lemma strip_nonempty s : s <> [] -> ends_with_space s = false -> strip s <> [].
Proof.
  intros Hs He H. apply strip_nil in H.
  destruct (exists_last Hs) as (s' & x & ->).
  rewrite ends_with_space_snoc in He.
  apply forallb_app_iff in H as [_ H]. simpl in H. now rewrite He in H.
Qed.

Lemma strip_stripped q : ends_with_space (strip q) = false.
Proof. now destruct (strip_split q) as (_ & _ & _ & _ & _ & _ & H). Qed.

Lemma newline_space c : is_code 10 c = true -> is_space c = true.
Proof. each_char c. Qed.

(** A text without trailing whitespace ends where [$] holds. *)
Lemma at_end_stripped l b :
  ends_with_space (l ++ b) = false -> at_end (mkCursor 0 None b) = true ->
  b = [].
Proof.
  destruct b as [|x [|y b]]; [reflexivity| |discriminate].
  rewrite ends_with_space_snoc. cbn. intros Hs Hx.
  now rewrite (newline_space x Hx) in Hs.
Qed.

Lemma date_strip d : date_shaped d = true -> strip d = d.
Proof.
  intro H. apply strip_nospace.
  destruct d as [|y1 [|y2 [|y3 [|y4 [|h1 [|m1 [|m2 [|h2 [|d1 [|d2 [|]]]]]]]]]]];
    try discriminate H.
  cbn [date_shaped forallb] in H. cbn [forallb].
  repeat match goal with
         | H : _ && _ = true |- _ => apply andb_true_iff in H as [H ?]
         end.
  repeat match goal with
         | H : is_code _ _ = true |- _ => apply is_code_eq in H; subst
         | H : is_decimal _ = true |- _ =>
             rewrite (decimal_not_space _ H); clear H
         end.
  reflexivity.
Qed.

Lemma time_strip w : time_shaped w = true -> strip w = w.
Proof.
  intro H. apply strip_nospace.
  destruct w as [|h1 [|c [|m1 [|m2 [|x [|]]]]]]; try discriminate H;
    cbn [time_shaped forallb] in H; cbn [forallb];
    repeat match goal with
           | H : _ && _ = true |- _ => apply andb_true_iff in H as [H ?]
           end;
    repeat match goal with
           | H : is_code _ _ = true |- _ => apply is_code_eq in H; subst
           | H : is_decimal _ = true |- _ =>
               rewrite (decimal_not_space _ H); clear H
           end;
    reflexivity.
Qed.

Lemma date_then_not_space d b :
  date_shaped d = true ->
  match d ++ b with c :: _ => is_space c = false | [] => True end.
Proof.
  destruct d as [|c d]; [discriminate|]. intro H.
  pose proof (date_strip _ H) as E. simpl.
  destruct (is_space c) eqn:Hc; [|reflexivity]. exfalso.
  unfold strip in E. simpl in E. rewrite Hc in E.
  apply (f_equal (@length ascii)) in E.
  pose proof (lstrip_length d) as H1.
  pose proof (rstrip_split (lstrip d)) as (trail & H2 & _).
  apply (f_equal (@length ascii)) in H2. rewrite length_app in H2.
  simpl in E. lia.
Qed.

Lemma time_then_not_space w b :
  time_shaped w = true ->
  match w ++ b with c :: _ => is_space c = false | [] => True end.
Proof.
  destruct w as [|c [|c1 [|c2 [|c3 [|c4 [|]]]]]]; try discriminate;
    cbn [time_shaped forallb app]; intro H;
    repeat match goal with
           | H : _ && _ = true |- _ => apply andb_true_iff in H as [H ?]
           end;
    now apply decimal_not_space.
Qed.

Lemma date_length d : date_shaped d = true -> length d = 10.
Proof.
  destruct d as [|y1 [|y2 [|y3 [|y4 [|h1 [|m1 [|m2 [|h2 [|d1 [|d2 [|]]]]]]]]]]];
    try discriminate. reflexivity.
Qed.

Lemma colon_not_decimal c : is_code 58 c = true -> is_decimal c = false.
Proof. each_char c. Qed.

Lemma time_unique w w' x x' :
  time_shaped w = true -> time_shaped w' = true -> w ++ x = w' ++ x' ->
  w = w'.
Proof.
  intros H H' E.
  destruct w as [|c0 [|c1 [|c2 [|c3 [|c4 [|]]]]]]; try discriminate H;
    destruct w' as [|d0 [|d1 [|d2 [|d3 [|d4 [|]]]]]]; try discriminate H';
    cbn [time_shaped forallb] in H, H'; cbn [app] in E;
    repeat match goal with
           | H : _ && _ = true |- _ => apply andb_true_iff in H as [H ?]
           end.
  - injection E as -> -> -> -> _. reflexivity.
  - injection E as -> -> -> -> _.
    match goal with
    | H : is_code 58 ?c = true, H' : is_decimal ?c = true |- _ =>
        rewrite (colon_not_decimal _ H) in H'; discriminate
    end.
  - injection E as -> -> -> -> _.
    match goal with
    | H : is_code 58 ?c = true, H' : is_decimal ?c = true |- _ =>
        rewrite (colon_not_decimal _ H) in H'; discriminate
    end.
  - injection E as -> -> -> -> -> _. reflexivity.
Qed.

(** At a given start, the form of the second template fixes the date, the
    time and the room up to the whitespace before it. *)
Lemma schedule_unique text a t ws1 d ws2 w_at ws3 tm ws4 w_in ws5 room
  a' t' ws1' d' ws2' w_at' ws3' tm' ws4' w_in' ws5' room' :
  schedule_at text a t ws1 d ws2 w_at ws3 tm ws4 w_in ws5 room ->
  schedule_at text a' t' ws1' d' ws2' w_at' ws3' tm' ws4' w_in' ws5' room' ->
  length a' = length a -> d' = d /\ tm' = tm /\ strip room' = strip room.
Proof.
  intros (H & Ht & Hat & Hin & [N1 S1] & [N2 S2] & [N3 S3] & [N4 S4] &
          [N5 S5] & Hd & Htm & _)
         (H' & Ht' & Hat' & Hin' & [N1' S1'] & [N2' S2'] & [N3' S3'] &
          [N4' S4'] & [N5' S5'] & Hd' & Htm' & _) Hl.
  rewrite H in H'. apply app_eq_length in H' as [_ H']; [|now symmetry].
  apply (literal_unique _ _ _ _ _ Ht Ht') in H' as [_ H'].
  apply (run_unique is_space) in H' as [_ H']; auto;
    try now apply date_then_not_space.
  apply app_eq_length in H' as [E H'];
    [|now rewrite (date_length d Hd), (date_length d' Hd')].
  apply (run_unique is_space) in H' as [_ H']; auto;
    try (eapply letter_then_not_space; [eassumption | reflexivity]).
  apply (literal_unique _ _ _ _ _ Hat Hat') in H' as [_ H'].
  apply (run_unique is_space) in H' as [_ H']; auto;
    try now apply time_then_not_space.
  pose proof (time_unique _ _ _ _ Htm Htm' H') as E'. subst tm'.
  apply app_inv_head in H'.
  apply (run_unique is_space) in H' as [_ H']; auto;
    try (eapply letter_then_not_space; [eassumption | reflexivity]).
  apply (literal_unique _ _ _ _ _ Hin Hin') in H' as [_ H'].
  repeat split; auto.
  rewrite <- (strip_padded ws5 room [] S5 eq_refl),
          <- (strip_padded ws5' room' [] S5' eq_refl).
  now rewrite !app_nil_r, H'.
Qed.

(** X6. The second template: it matches exactly the stripped queries that
    hold the phrase, a date of the form dddd-dd-dd, "at", a time of the
    form d:dd or dd:dd, "in" and a non-empty room without a newline that
    runs to the end.  The answer carries the date and the time of the
    leftmost place where the query has that form, as captured, and the room
    stripped; that place fixes all three, and the room is never empty. *)
Theorem schedule_meeting_template (lim : nat) (q : str) :
  name (rule_at 1) = L "schedule_meeting" /\
  (matches (strip q) (rule_at 1) = true <->
   exists a t ws1 d ws2 w_at ws3 tm ws4 w_in ws5 room,
     schedule_at (strip q) a t ws1 d ws2 w_at ws3 tm ws4 w_in ws5 room) /\
  (matching_rule PATTERNS (strip q) = Some (rule_at 1) ->
   exists a t ws1 d ws2 w_at ws3 tm ws4 w_in ws5 room args,
     schedule_at (strip q) a t ws1 d ws2 w_at ws3 tm ws4 w_in ws5 room /\
     (forall a' t' ws1' d' ws2' w_at' ws3' tm' ws4' w_in' ws5' room',
        schedule_at (strip q) a' t' ws1' d' ws2' w_at' ws3' tm' ws4' w_in' ws5'
                    room' ->
        length a <= length a' /\
        (length a' = length a ->
         d' = d /\ tm' = tm /\ strip room' = strip room)) /\
     captures (rule_at 1) (strip q) = [d; tm; room] /\
     strip room <> [] /\
     route lim q = Return (mkResponse (L "schedule_meeting") args) /\
     json_loads args
     = Some [(L "date", VStr d); (L "time", VStr tm);
             (L "meeting_room", VStr (strip room))]).
Proof.
  assert (Hc : forall a t ws1 d ws2 w_at ws3 tm ws4 w_in ws5 room,
     schedule_at (strip q) a t ws1 d ws2 w_at ws3 tm ws4 w_in ws5 room ->
     strip q = a ++ (t ++ ws1 ++ d ++ ws2 ++ w_at ++ ws3 ++ tm ++ ws4 ++ w_in
                       ++ ws5 ++ room) ++ [] /\
     accepts (pattern (rule_at 1)) (last (map Some a) None)
             (t ++ ws1 ++ d ++ ws2 ++ w_at ++ ws3 ++ tm ++ ws4 ++ w_in ++ ws5
                ++ room) [] [Some d; Some tm; Some room]).
  { intros a t ws1 d ws2 w_at ws3 tm ws4 w_in ws5 room (Ht & H).
    split; [now rewrite app_nil_r|].
    apply schedule_accepts.
    exists t, ws1, d, ws2, w_at, ws3, tm, ws4, w_in, ws5, room.
    change (at_end (mkCursor 0 None [])) with true.
    unfold ends_with_word in H. tauto. }
  assert (Hs : forall m,
     re_search (pattern (rule_at 1)) (strip q) = Some m ->
     exists a t ws1 d ws2 w_at ws3 tm ws4 w_in ws5 room,
       schedule_at (strip q) a t ws1 d ws2 w_at ws3 tm ws4 w_in ws5 room /\
       groups m = [Some d; Some tm; Some room] /\
       forall a' t' ws1' d' ws2' w_at' ws3' tm' ws4' w_in' ws5' room',
         schedule_at (strip q) a' t' ws1' d' ws2' w_at' ws3' tm' ws4' w_in'
                     ws5' room' ->
         length a <= length a').
  { intros m Hm.
    destruct (re_search_sound _ _ _ Hm) as (a & w & b & Ht & Hst & _ & _ & A).
    apply schedule_accepts in A
      as (t & ws1 & d & ws2 & w_at & ws3 & tm & ws4 & w_in & ws5 & room &
          -> & Hg & H).
    assert (Hb : b = []).
    { apply (at_end_stripped
               (a ++ t ++ ws1 ++ d ++ ws2 ++ w_at ++ ws3 ++ tm ++ ws4 ++ w_in
                  ++ ws5 ++ room)); [|tauto].
      rewrite <- app_assoc, <- Ht. apply strip_stripped. }
    subst b. rewrite app_nil_r in Ht.
    exists a, t, ws1, d, ws2, w_at, ws3, tm, ws4, w_in, ws5, room.
    split; [|split; [exact Hg|]].
    - unfold schedule_at. rewrite Ht. tauto.
    - intros a' t' ws1' d' ws2' w_at' ws3' tm' ws4' w_in' ws5' room' H'.
      destruct (Hc _ _ _ _ _ _ _ _ _ _ _ _ H') as [E A'].
      rewrite <- Hst. exact (re_search_leftmost _ _ _ _ _ _ _ Hm E A'). }
  split; [reflexivity|]. split.
  - rewrite matches_true. split.
    + destruct (re_search _ (strip q)) as [m|] eqn:Hm; [|congruence].
      intros _.
      destruct (Hs m eq_refl)
        as (a & t & ws1 & d & ws2 & w_at & ws3 & tm & ws4 & w_in & ws5 & room &
            H & _).
      exists a, t, ws1, d, ws2, w_at, ws3, tm, ws4, w_in, ws5, room. exact H.
    + intros (a & t & ws1 & d & ws2 & w_at & ws3 & tm & ws4 & w_in & ws5 &
              room & H).
      destruct (Hc _ _ _ _ _ _ _ _ _ _ _ _ H) as [E A].
      exact (re_search_complete _ _ _ _ _ _ E A).
  - intro Hp.
    destruct (for_patterns_first PATTERNS (strip q) (boot lim) _ Hp)
      as (_ & m & E & _).
    destruct (Hs m E)
      as (a & t & ws1 & d & ws2 & w_at & ws3 & tm & ws4 & w_in & ws5 & room &
          Hat & Hg & Hleft).
    pose proof (captures_groups (rule_at 1) _ m [d; tm; room] E Hg) as Hcap.
    assert (Hd : digits_over_limit lim (rule_at 1) (strip q) = false).
    { unfold digits_over_limit, items. now rewrite Hcap. }
    destruct (primary_descriptor lim q _ Hp Hd) as (args & Hr & Hj & _).
    exists a, t, ws1, d, ws2, w_at, ws3, tm, ws4, w_in, ws5, room, args.
    split; [exact Hat|]. split.
    { intros a' t' ws1' d' ws2' w_at' ws3' tm' ws4' w_in' ws5' room' H'.
      split; [exact (Hleft _ _ _ _ _ _ _ _ _ _ _ _ H')|].
      exact (schedule_unique _ _ _ _ _ _ _ _ _ _ _ _ _ _ _ _ _ _ _ _ _ _ _ _ _
               Hat H'). }
    split; [exact Hcap|].
    destruct Hat as (Ht & _ & _ & _ & _ & _ & _ & _ & _ & Hdate & Htime &
                     [Hroom _] & _).
    split.
    + apply strip_nonempty; [exact Hroom|].
      rewrite <- (ends_with_space_app
                    (a ++ t ++ ws1 ++ d ++ ws2 ++ w_at ++ ws3 ++ tm ++ ws4
                       ++ w_in ++ ws5) room Hroom).
      rewrite <- !app_assoc, <- Ht. apply strip_stripped.
    + split; [exact Hr|].
      apply json_loads_dumps in Hj. rewrite Hj. unfold arguments_of.
      rewrite Hcap. cbn [arg_keys arg_types rule_at nth PATTERNS zip3 map value_of].
      now rewrite (date_strip d Hdate), (time_strip tm Htime).
Qed.

Lemma schedule_meeting_template_witness :
  exists d tm room args,
    captures (rule_at 1) (strip schedule_query) = [d; tm; room] /\
    date_shaped d = true /\ time_shaped tm = true /\ strip room <> [] /\
    route default_int_max_str_digits schedule_query
    = Return (mkResponse (L "schedule_meeting") args).
Proof.
  destruct (schedule_meeting_template default_int_max_str_digits schedule_query)
    as (_ & _ & H).
  destruct H
    as (a & t & ws1 & d & ws2 & w_at & ws3 & tm & ws4 & w_in & ws5 & room &
        args & H0 & _ & H1 & H2 & H3 & _);
    [vm_compute; reflexivity|].
  exists d, tm, room, args.
  destruct H0 as (_ & _ & _ & _ & _ & _ & _ & _ & _ & Hd & Ht & _). auto.
Defined.

Lemma digits_accepts pv w after gs :
  accepts (Group (plus CDigit)) pv w after gs <-> digits w /\ gs = [Some w].
Proof.
  unfold digits. cbn [plus accepts cset_mem]. split.
  - intros (g & (H1 & H2 & _ & ->) & ->). apply nonempty_length in H2. auto.
  - intros [[H1 H2] ->]. apply nonempty_length in H1. exists []. auto.
Qed.

Lemma article_accepts pv w after gs :
  accepts article_pattern pv w after gs <->
  (lower w = lower (L "an ") \/ lower w = lower (L "the ") \/ w = []) /\
  gs = [].
Proof.
  unfold article_pattern. cbn [accepts ngroups repeat Nat.add]. split.
  - intros [[[g [[H ->] ->]]|[g [[H ->] ->]]]|[-> ->]]; auto.
  - intros [[H|[H| ->]] ->].
    + left. left. exists []. auto.
    + left. right. exists []. auto.
    + right. auto.
Qed.

Lemma lower_last_word t s x :
  lower t = lower (s ++ [x]) -> is_word x = true ->
  forall d, exists y, last (map Some t) d = Some y /\ is_word y = true.
Proof.
  intros H Hx d.
  destruct (exists_last (l := t)) as (t' & y & ->).
  { intros ->. rewrite lower_app in H. destruct (lower s); discriminate. }
  rewrite !lower_app in H. apply app_inj_tail in H as [_ H]. simpl in H.
  exists y. split.
  - now rewrite map_app, last_app_default.
  - destruct (to_lower_class y) as (_ & _ & <- & _).
    destruct (to_lower_class x) as (_ & _ & Hw & _). now rewrite H, Hw.
Qed.

Lemma word_boundary_behind pv after :
  (exists y, pv = Some y /\ is_word y = true) ->
  at_boundary (mkCursor 0 pv after) = negb (starts_with_word after).
Proof.
  intros (y & -> & Hy).
  unfold at_boundary, word_before, word_after, starts_with_word. simpl.
  rewrite Hy. destruct after as [|x l]; [reflexivity|].
  destruct (is_word x); reflexivity.
Qed.

Lemma report_accepts pv w after gs :
  accepts (pattern (rule_at 4)) pv w after gs <->
  exists t1 art t2 ws1 code ws2 t3 ws3 dept ws4 t4,
    w = t1 ++ art ++ t2 ++ ws1 ++ code ++ ws2 ++ t3 ++ ws3 ++ dept ++ ws4 ++ t4 /\
    gs = [Some code; Some dept] /\
    lower t1 = lower (L "report ") /\
    (lower art = lower (L "an ") \/ lower art = lower (L "the ") \/ art = []) /\
    lower t2 = lower (L "office issue") /\
    lower t3 = lower (L "for the") /\ lower t4 = lower (L "department") /\
    spaces ws1 /\ spaces ws2 /\ spaces ws3 /\ spaces ws4 /\
    digits code /\
    (dept <> [] /\ forallb (fun c => negb (is_code 10 c)) dept = true) /\
    match pv with Some x => is_word x | None => false end = false /\
    starts_with_word after = false.
Proof.
  change (pattern (rule_at 4))
    with (Cat WordB (Cat (Lit "report ") (Cat article_pattern
          (Cat (Lit "office issue") (Cat (plus CSpace)
          (Cat (Group (plus CDigit)) (Cat (plus CSpace) (Cat (Lit "for the")
          (Cat (plus CSpace) (Cat (Group (Rep CAny 1 None false))
          (Cat (plus CSpace) (Cat (Lit "department") WordB)))))))))))).
  split.
  - intros (w0 & w' & g0 & g' & -> & -> & (-> & B0 & ->) &
            t1 & x1 & g1 & g1' & -> & -> & (Ht1 & ->) &
            art & x2 & g2 & g2' & -> & -> & Hart &
            t2 & x3 & g3 & g3' & -> & -> & (Ht2 & ->) &
            ws1 & x4 & g4 & g4' & -> & -> & S1 &
            code & x5 & g5 & g5' & -> & -> & Hcode &
            ws2 & x6 & g6 & g6' & -> & -> & S2 &
            t3 & x7 & g7 & g7' & -> & -> & (Ht3 & ->) &
            ws3 & x8 & g8 & g8' & -> & -> & S3 &
            dept & x9 & g9 & g9' & -> & -> & (gd & (Hd & Ld & _ & ->) & ->) &
            ws4 & x10 & g10 & g10' & -> & -> & S4 &
            t4 & x11 & g11 & g11' & -> & -> & (Ht4 & ->) & (-> & B1 & ->)).
    apply spaces_accepts in S1 as [S1 ->], S2 as [S2 ->], S3 as [S3 ->],
      S4 as [S4 ->].
    apply article_accepts in Hart as [Hart ->].
    apply digits_accepts in Hcode as [Hcode ->].
    apply nonempty_length in Ld.
    exists t1, art, t2, ws1, code, ws2, t3, ws3, dept, ws4, t4.
    cbn [app] in *. rewrite app_nil_r in *.
    split; [reflexivity|]. split; [reflexivity|].
    repeat (split; [assumption|]). split; [now split|]. split.
    + rewrite word_boundary_before in B0.
      * now apply negb_true_iff in B0.
      * destruct t1 as [|c t1]; [discriminate|].
        apply (lower_starts_with_word (c :: t1) "r"%char (L "eport ") Ht1
                 eq_refl).
    + rewrite word_boundary_behind in B1.
      * now apply negb_true_iff in B1.
      * apply (lower_last_word t4 (L "departmen") "t"%char Ht4 eq_refl).
  - intros (t1 & art & t2 & ws1 & code & ws2 & t3 & ws3 & dept & ws4 & t4 &
            -> & -> & Ht1 & Hart & Ht2 & Ht3 & Ht4 & S1 & S2 & S3 & S4 &
            Hcode & [Ld Hd] & B0 & B1).
    apply (accepts_cat WordB _ pv [] _ after [] [Some code; Some dept]).
    { rewrite <- app_assoc. apply accepts_boundary_before; [|exact B0].
      destruct t1 as [|c t1]; [discriminate|].
      apply (lower_starts_with_word (c :: t1) "r"%char (L "eport ") Ht1
               eq_refl). }
    apply (accepts_cat _ _ _ t1 _ after [] [Some code; Some dept]);
      [split; auto|].
    apply (accepts_cat _ _ _ art _ after [] [Some code; Some dept]);
      [now apply article_accepts|].
    apply (accepts_cat _ _ _ t2 _ after [] [Some code; Some dept]);
      [split; auto|].
    apply (accepts_cat _ _ _ ws1 _ after [] [Some code; Some dept]);
      [now apply spaces_accepts|].
    apply (accepts_cat _ _ _ code _ after [Some code] [Some dept]);
      [now apply digits_accepts|].
    apply (accepts_cat _ _ _ ws2 _ after [] [Some dept]);
      [now apply spaces_accepts|].
    apply (accepts_cat _ _ _ t3 _ after [] [Some dept]); [split; auto|].
    apply (accepts_cat _ _ _ ws3 _ after [] [Some dept]);
      [now apply spaces_accepts|].
    apply (accepts_cat _ _ _ dept _ after [Some dept] []).
    { exists []. split; [|reflexivity]. cbn [accepts].
      repeat split; auto. now apply nonempty_length. }
    apply (accepts_cat _ _ _ ws4 _ after [] []); [now apply spaces_accepts|].
    rewrite <- (app_nil_r t4) at 1.
    apply (accepts_cat _ _ _ t4 [] after [] []); [split; auto|].
    repeat split. rewrite word_boundary_behind.
    + now rewrite B1.
    + apply (lower_last_word t4 (L "departmen") "t"%char Ht4 eq_refl).
Qed.

(** Two literals that differ in their first letter cannot stand at the
    same place. *)
Lemma literal_conflict (t t' r r' : str) x s x' s' :
  lower t = lower (x :: s) -> lower t' = lower (x' :: s') ->
  to_lower x <> to_lower x' -> t ++ r = t' ++ r' -> False.
Proof.
  destruct t as [|c t]; [discriminate|].
  destruct t' as [|c' t']; [discriminate|]. simpl.
  intros H H' Hx E. injection H as H _. injection H' as H' _.
  injection E as -> _. congruence.
Qed.

(** At a given start, the form of the fifth template fixes the issue
    code. *)
Lemma report_unique text a t1 art t2 ws1 code ws2 t3 ws3 dept ws4 t4 b
  a' t1' art' t2' ws1' code' ws2' t3' ws3' dept' ws4' t4' b' :
  report_at text a t1 art t2 ws1 code ws2 t3 ws3 dept ws4 t4 b ->
  report_at text a' t1' art' t2' ws1' code' ws2' t3' ws3' dept' ws4' t4' b' ->
  length a' = length a -> code' = code.
Proof.
  intros (H & Ht1 & Hart & Ht2 & _ & _ & [N1 S1] & [N2 S2] & _ & _ &
          [Nc Hc] & _)
         (H' & Ht1' & Hart' & Ht2' & _ & _ & [N1' S1'] & [N2' S2'] & _ & _ &
          [Nc' Hc'] & _) Hl.
  rewrite H in H'. apply app_eq_length in H' as [_ H']; [|now symmetry].
  apply (literal_unique _ _ _ _ _ Ht1 Ht1') in H' as [_ H'].
  assert (E : t2 ++ ws1 ++ code ++ ws2 ++ t3 ++ ws3 ++ dept ++ ws4 ++ t4 ++ b
              = t2' ++ ws1' ++ code' ++ ws2' ++ t3' ++ ws3' ++ dept' ++ ws4'
                  ++ t4' ++ b').
  { destruct Hart as [Ha|[Ha| ->]], Hart' as [Ha'|[Ha'| ->]];
      try (apply (literal_unique _ _ _ _ _ Ha Ha') in H' as [_ H']; exact H');
      try exact H'; exfalso.
    - exact (literal_conflict _ _ _ _ _ _ _ _ Ha Ha' ltac:(discriminate) H').
    - exact (literal_conflict _ _ _ _ _ _ _ _ Ha Ht2' ltac:(discriminate) H').
    - exact (literal_conflict _ _ _ _ _ _ _ _ Ha Ha' ltac:(discriminate) H').
    - exact (literal_conflict _ _ _ _ _ _ _ _ Ha Ht2' ltac:(discriminate) H').
    - exact (literal_conflict _ _ _ _ _ _ _ _ Ht2 Ha' ltac:(discriminate) H').
    - exact (literal_conflict _ _ _ _ _ _ _ _ Ht2 Ha' ltac:(discriminate) H'). }
  apply (literal_unique _ _ _ _ _ Ht2 Ht2') in E as [_ E].
  apply (run_unique is_space) in E as [_ E]; auto;
    try now apply digits_then_not_space.
  apply (run_unique is_decimal) in E as [E _]; auto;
    now apply spaces_then_not_decimal.
Qed.

(** X7. The fifth template: it matches exactly the texts that hold
    "report", an optional "an" or "the", "office issue", digits, "for the",
    a non-empty department without a newline and the word "department",
    separated by whitespace and standing at word boundaries.  The issue
    code is the one at the leftmost place where the query has that form;
    the answer carries its value and the department stripped. *)
Theorem report_issue_template (lim : nat) (q : str) :
  name (rule_at 4) = L "report_office_issue" /\
  (matches (strip q) (rule_at 4) = true <->
   exists a t1 art t2 ws1 code ws2 t3 ws3 dept ws4 t4 b,
     report_at (strip q) a t1 art t2 ws1 code ws2 t3 ws3 dept ws4 t4 b) /\
  (matching_rule PATTERNS (strip q) = Some (rule_at 4) ->
   exists a t1 art t2 ws1 code ws2 t3 ws3 dept ws4 t4 b,
     report_at (strip q) a t1 art t2 ws1 code ws2 t3 ws3 dept ws4 t4 b /\
     (forall a' t1' art' t2' ws1' code' ws2' t3' ws3' dept' ws4' t4' b',
        report_at (strip q) a' t1' art' t2' ws1' code' ws2' t3' ws3' dept' ws4'
                  t4' b' ->
        length a <= length a' /\ (length a' = length a -> code' = code)) /\
     captures (rule_at 4) (strip q) = [code; dept] /\
     (over_limit lim (length code) (length code) = false ->
      exists args,
        route lim q = Return (mkResponse (L "report_office_issue") args) /\
        json_loads args
        = Some [(L "issue_code", VInt (Z.of_N (denoted code)));
                (L "department", VStr (strip dept))])).
Proof.
  assert (Hc : forall a t1 art t2 ws1 code ws2 t3 ws3 dept ws4 t4 b,
     report_at (strip q) a t1 art t2 ws1 code ws2 t3 ws3 dept ws4 t4 b ->
     strip q = a ++ (t1 ++ art ++ t2 ++ ws1 ++ code ++ ws2 ++ t3 ++ ws3 ++ dept
                        ++ ws4 ++ t4) ++ b /\
     accepts (pattern (rule_at 4)) (last (map Some a) None)
             (t1 ++ art ++ t2 ++ ws1 ++ code ++ ws2 ++ t3 ++ ws3 ++ dept
                 ++ ws4 ++ t4) b [Some code; Some dept]).
  { intros a t1 art t2 ws1 code ws2 t3 ws3 dept ws4 t4 b (Ht & H).
    split; [now rewrite Ht, <- !app_assoc|].
    apply report_accepts.
    exists t1, art, t2, ws1, code, ws2, t3, ws3, dept, ws4, t4.
    unfold ends_with_word in H. tauto. }
  assert (Hs : forall m,
     re_search (pattern (rule_at 4)) (strip q) = Some m ->
     exists a t1 art t2 ws1 code ws2 t3 ws3 dept ws4 t4 b,
       report_at (strip q) a t1 art t2 ws1 code ws2 t3 ws3 dept ws4 t4 b /\
       groups m = [Some code; Some dept] /\
       forall a' t1' art' t2' ws1' code' ws2' t3' ws3' dept' ws4' t4' b',
         report_at (strip q) a' t1' art' t2' ws1' code' ws2' t3' ws3' dept'
                   ws4' t4' b' ->
         length a <= length a').
  { intros m Hm.
    destruct (re_search_sound _ _ _ Hm) as (a & w & b & Ht & Hst & _ & _ & A).
    apply report_accepts in A
      as (t1 & art & t2 & ws1 & code & ws2 & t3 & ws3 & dept & ws4 & t4 &
          -> & Hg & H).
    exists a, t1, art, t2, ws1, code, ws2, t3, ws3, dept, ws4, t4, b.
    split; [|split; [exact Hg|]].
    - unfold report_at. rewrite Ht, <- !app_assoc. tauto.
    - intros a' t1' art' t2' ws1' code' ws2' t3' ws3' dept' ws4' t4' b' H'.
      destruct (Hc _ _ _ _ _ _ _ _ _ _ _ _ _ H') as [E A'].
      rewrite <- Hst. exact (re_search_leftmost _ _ _ _ _ _ _ Hm E A'). }
  split; [reflexivity|]. split.
  - rewrite matches_true. split.
    + destruct (re_search _ (strip q)) as [m|] eqn:Hm; [|congruence].
      intros _.
      destruct (Hs m eq_refl)
        as (a & t1 & art & t2 & ws1 & code & ws2 & t3 & ws3 & dept & ws4 & t4 &
            b & H & _).
      exists a, t1, art, t2, ws1, code, ws2, t3, ws3, dept, ws4, t4, b.
      exact H.
    + intros (a & t1 & art & t2 & ws1 & code & ws2 & t3 & ws3 & dept & ws4 &
              t4 & b & H).
      destruct (Hc _ _ _ _ _ _ _ _ _ _ _ _ _ H) as [E A].
      exact (re_search_complete _ _ _ _ _ _ E A).
  - intro Hp.
    destruct (for_patterns_first PATTERNS (strip q) (boot lim) _ Hp)
      as (_ & m & E & _).
    destruct (Hs m E)
      as (a & t1 & art & t2 & ws1 & code & ws2 & t3 & ws3 & dept & ws4 & t4 &
          b & Hat & Hg & Hleft).
    pose proof (captures_groups (rule_at 4) _ m [code; dept] E Hg) as Hcap.
    exists a, t1, art, t2, ws1, code, ws2, t3, ws3, dept, ws4, t4, b.
    split; [exact Hat|]. split.
    { intros a' t1' art' t2' ws1' code' ws2' t3' ws3' dept' ws4' t4' b' H'.
      split; [exact (Hleft _ _ _ _ _ _ _ _ _ _ _ _ _ H')|].
      exact (report_unique _ _ _ _ _ _ _ _ _ _ _ _ _ _ _ _ _ _ _ _ _ _ _ _ _ _
               _ Hat H'). }
    split; [exact Hcap|]. intro Hl.
    assert (Hd : digits_over_limit lim (rule_at 4) (strip q) = false).
    { unfold digits_over_limit, items. rewrite Hcap. simpl. now rewrite Hl. }
    destruct (primary_descriptor lim q _ Hp Hd) as (args & Hr & Hj & _).
    exists args. split; [exact Hr|].
    apply json_loads_dumps in Hj. rewrite Hj. unfold arguments_of.
    now rewrite Hcap.
Qed.

Lemma report_issue_template_witness :
  exists code dept,
    captures (rule_at 4)
      (strip (L "Report office issue 45321 for the Facilities department."))
    = [code; dept] /\
    digits code /\ dept <> [].
Proof.
  destruct (report_issue_template default_int_max_str_digits
              (L "Report office issue 45321 for the Facilities department."))
    as (_ & _ & H).
  destruct H
    as (a & t1 & art & t2 & ws1 & code & ws2 & t3 & ws3 & dept & ws4 & t4 & b &
        H0 & _ & H1 & _);
    [vm_compute; reflexivity|].
  exists code, dept.
  destruct H0 as (_ & _ & _ & _ & _ & _ & _ & _ & _ & _ & Hc & [Hd _] & _).
  auto.
Defined.

(** ** Argument values *)

(** X8. A String-kind argument is the capture of its group with the
    whitespace around it removed and nothing else changed. *)
Theorem string_argument_stripped (lim : nat) (q : str) (p : rule) (k : nat)
  (key w : str) :
  matching_rule PATTERNS (strip q) = Some p ->
  digits_over_limit lim p (strip q) = false ->
  nth_error (arg_keys p) k = Some key ->
  nth_error (arg_types p) k = Some T_str ->
  nth_error (captures p (strip q)) k = Some w ->
  exists od args lead trail,
    route lim q = Return (mkResponse (name p) args) /\
    json_loads args = Some od /\
    od_get od key = Some (VStr (strip w)) /\
    w = lead ++ strip w ++ trail /\
    forallb is_space lead = true /\ forallb is_space trail = true /\
    starts_with_space (strip w) = false /\ ends_with_space (strip w) = false.
Proof.
  intros Hp Hlim Hk Ht Hw.
  destruct (primary_descriptor lim q p Hp Hlim) as (args & Hr & Hj & _).
  destruct (route_primary lim q p Hp) as (_ & Hok & _).
  destruct (rule_ok_inv p Hok) as (_ & _ & Hnd & _).
  destruct (strip_split w) as (lead & trail & H1 & H2 & H3 & H4 & H5).
  exists (arguments_of p (captures p (strip q))), args, lead, trail.
  repeat split; auto.
  - now apply json_loads_dumps in Hj.
  - exact (od_get_arguments (arg_keys p) (arg_types p) _ k key T_str w
             Hnd Hk Ht Hw).
Qed.

Lemma string_argument_stripped_witness :
  exists od args,
    route default_int_max_str_digits
          (L "report office issue 4 for the   department")
    = Return (mkResponse (L "report_office_issue") args) /\
    json_loads args = Some od /\
    od_get od (L "department") = Some (VStr (strip (L " "))).
Proof.
  assert (Hp : matching_rule PATTERNS
                 (strip (L "report office issue 4 for the   department"))
               = Some (rule_at 4)) by (vm_compute; reflexivity).
  assert (Hl : digits_over_limit default_int_max_str_digits (rule_at 4)
                 (strip (L "report office issue 4 for the   department"))
               = false) by (vm_compute; reflexivity).
  assert (Hw : nth_error
                 (captures (rule_at 4)
                    (strip (L "report office issue 4 for the   department"))) 1
               = Some (L " ")) by (vm_compute; reflexivity).
  destruct (string_argument_stripped default_int_max_str_digits
              (L "report office issue 4 for the   department")
              (rule_at 4) 1 (L "department") (L " ") Hp Hl eq_refl eq_refl Hw)
    as (od & args & _ & _ & H1 & H2 & H3 & _).
  exists od, args. auto.
Defined.

Lemma accepts_infix r : forall pv w after gs wk,
  accepts r pv w after gs -> In (Some wk) gs ->
  exists x y, w = x ++ wk ++ y.
Proof.
  induction r as [s|cs lo hi gr| | |r1 IH1 r2 IH2|r1 IH1 r2 IH2|r IH|r IH];
    intros pv w after gs wk H Hin; simpl in H.
  - destruct H as [_ ->]. destruct Hin.
  - destruct H as (_ & _ & _ & ->). destruct Hin.
  - destruct H as (_ & _ & ->). destruct Hin.
  - destruct H as (_ & _ & ->). destruct Hin.
  - destruct H as (w1 & w2 & gs1 & gs2 & -> & -> & A1 & A2).
    apply in_app_or in Hin as [Hin|Hin].
    + destruct (IH1 _ _ _ _ _ A1 Hin) as (x & y & ->).
      exists x, (y ++ w2). now rewrite <- !app_assoc.
    + destruct (IH2 _ _ _ _ _ A2 Hin) as (x & y & ->).
      exists (w1 ++ x), y. now rewrite <- !app_assoc.
  - destruct H as [(gs1 & A1 & ->)|(gs2 & A2 & ->)];
      apply in_app_or in Hin as [Hin|Hin];
      try (apply repeat_spec in Hin; discriminate); eauto.
  - destruct H as [A|[_ ->]]; [eauto|].
    apply repeat_spec in Hin. discriminate.
  - destruct H as (gs' & A & ->). destruct Hin as [Hin|Hin]; [|eauto].
    injection Hin as ->. exists [], []. now rewrite app_nil_r.
Qed.

Lemma infix_trans {A} (s t u x y x' y' : list A) :
  s = x ++ t ++ y -> t = x' ++ u ++ y' -> s = (x ++ x') ++ u ++ (y' ++ y).
Proof. intros -> ->. now rewrite <- !app_assoc. Qed.

(** A capture, and what is left of it without the whitespace around it,
    are contiguous parts of the query. *)
Lemma captures_infix (q : str) (p : rule) (w : str) :
  In w (captures p (strip q)) ->
  (exists x y, q = x ++ w ++ y) /\ (exists x y, q = x ++ strip w ++ y).
Proof.
  intro Hin. unfold captures in Hin.
  destruct (re_search (pattern p) (strip q)) as [m|] eqn:E; [|destruct Hin].
  apply in_flat_map in Hin as ([wk|] & Hg & Hin); [|destruct Hin].
  destruct Hin as [->|[]].
  destruct (re_search_sound _ _ _ E) as (a & w0 & b & Ht & _ & _ & _ & A).
  destruct (accepts_infix _ _ _ _ _ _ A Hg) as (x & y & Hw0).
  destruct (strip_split q) as (lead & trail & Hq & _).
  assert (H1 : strip q = (a ++ x) ++ w ++ (y ++ b))
    by (rewrite Ht, Hw0; now rewrite <- !app_assoc).
  pose proof (infix_trans _ _ _ _ _ _ _ Hq H1) as H2.
  split; [eauto|].
  destruct (strip_split w) as (l' & t' & Hw & _).
  pose proof (infix_trans _ _ _ _ _ _ _ H2 Hw). eauto.
Qed.

(** ** How a request can end *)

Lemma find_none_existsb {A} (f : A -> bool) l :
  find f l = None -> existsb f l = false.
Proof.
  induction l as [|x l IH]; simpl; [reflexivity|].
  destruct (f x); [discriminate | exact IH].
Qed.

Lemma invalid_integer_inj k1 k2 : invalid_integer k1 = invalid_integer k2 -> k1 = k2.
Proof. unfold invalid_integer. apply app_inv_head. Qed.

Lemma could_not_map_ne key : could_not_map <> invalid_integer key.
Proof. unfold could_not_map, invalid_integer. discriminate. Qed.

(** The outcome of a request with a non-empty query, by the rule that
    matches first and, without one, by the fallback pattern. *)
Lemma route_cases lim (q : str) :
  q <> [] ->
  match matching_rule PATTERNS (strip q) with
  | Some p =>
      match find (too_long lim) (items p (strip q)) with
      | Some (key, t, w) =>
          route lim q = HTTPException 400 (invalid_integer key) /\
          In (key, t, w) (items p (strip q)) /\ t = T_int /\
          over_limit lim (length w) (length w) = true
      | None =>
          digits_over_limit lim p (strip q) = false /\
          exists args,
            route lim q = Return (mkResponse (name p) args) /\
            json_dumps lim (arguments_of p (captures p (strip q))) = Some args
      end
  | None =>
      match re_search fallback_pattern (strip q) with
      | Some m =>
          exists ds,
            group m 1 = Some ds /\ digits ds /\ length ds <= length q /\
            route lim q =
              if over_limit lim (length ds) (length ds)
              then Uncaught ValueError
              else Return (mkResponse (L "get_ticket_status")
                                      (ticket_arguments (denoted ds)))
      | None => route lim q = HTTPException 400 could_not_map
      end
  end.
Proof.
  intro Hq. destruct (matching_rule PATTERNS (strip q)) as [p|] eqn:Hp.
  - destruct (route_primary lim q p Hp) as (_ & _ & Hd & _ & Hr).
    destruct (find (too_long lim) (items p (strip q))) as [[[key t] w]|] eqn:Hf.
    + apply find_some in Hf as [Hin Hl]. repeat split; auto.
      * destruct t; [reflexivity | discriminate].
      * destruct t; [exact Hl | discriminate].
    + apply find_none_existsb in Hf. split; [exact Hf|].
      destruct (json_dumps_args lim p (strip q) Hd Hf) as [args Ha].
      exists args. now rewrite Hr, Ha.
  - rewrite (route_fallback lim q Hq Hp).
    destruct (re_search fallback_pattern (strip q)) as [m|] eqn:Hm.
    + destruct (fallback_found _ _ Hm)
        as (a & t & ws & ds & b & (_ & _ & _ & _ & Hne & Hds) & Hg & _).
      exists ds. repeat split; auto.
      * unfold group in Hg. destruct (mark_of 1 (m_marks m)) as [[x y]|];
          [|discriminate].
        injection Hg as <-.
        etransitivity; [apply slice_length|].
        destruct (re_search_inv _ _ _ Hm) as (-> & _).
        apply strip_length.
      * exact (fallback_returns lim _ m ds Hm Hg Hne Hds).
    + now rewrite fallback_eq, Hm.
Qed.

(** X10. Every HTTP error of the handler has status 400 and one of three
    details: the query is missing or empty; no rule and no fallback pattern
    matched; or the first rule that matched captured digits that [int]
    refuses for an Integer-kind parameter, which the detail names. *)
Theorem http_errors (lim : nat) (q : option str) (sc : nat) (d : str) :
  fst (execute q (boot lim)) = HTTPException sc d ->
  sc = 400 /\
  ((d = missing_q /\ (q = None \/ q = Some [])) \/
   (d = could_not_map /\
    exists q', q = Some q' /\ q' <> [] /\
               matching_rule PATTERNS (strip q') = None /\
               re_search fallback_pattern (strip q') = None) \/
   (exists q' p key w,
      d = invalid_integer key /\ q = Some q' /\
      matching_rule PATTERNS (strip q') = Some p /\
      In (key, T_int, w) (items p (strip q')) /\
      over_limit lim (length w) (length w) = true)).
Proof.
  destruct q as [[|c q]|].
  - intro H. injection H as <- <-. split; [reflexivity|]. left. auto.
  - change (fst (execute (Some (c :: q)) (boot lim))) with (route lim (c :: q)).
    pose proof (route_cases lim (c :: q) ltac:(discriminate)) as H.
    destruct (matching_rule PATTERNS (strip (c :: q))) as [p|] eqn:Hp.
    + destruct (find _ _) as [[[key t] w]|].
      * destruct H as (-> & Hin & -> & Hl). intro E. injection E as <- <-.
        split; [reflexivity|]. right. right. exists (c :: q), p, key, w. auto.
      * destruct H as (_ & args & -> & _). discriminate.
    + destruct (re_search fallback_pattern (strip (c :: q))) as [m|] eqn:Hm.
      * destruct H as (ds & _ & _ & _ & ->).
        destruct (over_limit _ _ _); discriminate.
      * rewrite H. intro E. injection E as <- <-. split; [reflexivity|].
        right. left. split; [reflexivity|]. exists (c :: q).
        repeat split; auto. discriminate.
  - intro H. injection H as <- <-. split; [reflexivity|]. left. auto.
Qed.

Lemma http_errors_witness :
  400 = 400 /\
  ((could_not_map = missing_q /\
    (Some (L "hello") = None \/ Some (L "hello") = Some [])) \/
   (could_not_map = could_not_map /\
    exists q', Some (L "hello") = Some q' /\ q' <> [] /\
               matching_rule PATTERNS (strip q') = None /\
               re_search fallback_pattern (strip q') = None) \/
   (exists q' p key w,
      could_not_map = invalid_integer key /\ Some (L "hello") = Some q' /\
      matching_rule PATTERNS (strip q') = Some p /\
      In (key, T_int, w) (items p (strip q')) /\
      over_limit default_int_max_str_digits (length w) (length w) = true)).
Proof.
  apply (http_errors default_int_max_str_digits (Some (L "hello")) 400
           could_not_map).
  vm_compute. reflexivity.
Defined.

(** X11. A request ends in an exception that nothing catches exactly when no
    rule matches and the fallback pattern captures more digits than [int]
    accepts; the exception is then [ValueError].  It takes a query longer
    than the limit, and a limit that is not disabled. *)
Theorem uncaught_only_from_fallback (lim : nat) (q : str) (e : exn) :
  (route lim q = Uncaught e <->
   e = ValueError /\
   matching_rule PATTERNS (strip q) = None /\
   exists m ds,
     re_search fallback_pattern (strip q) = Some m /\
     group m 1 = Some ds /\
     over_limit lim (length ds) (length ds) = true) /\
  (route lim q = Uncaught e -> 0 < lim /\ lim < length q).
Proof.
  destruct q as [|c q].
  { split; [split|]; try discriminate.
    intros (_ & _ & m & ds & H & _). vm_compute in H. discriminate. }
  pose proof (route_cases lim (c :: q) ltac:(discriminate)) as H.
  destruct (matching_rule PATTERNS (strip (c :: q))) as [p|] eqn:Hp.
  - destruct (find _ _) as [[[key t] w]|].
    + destruct H as (-> & _). split; [split|]; try discriminate.
      now intros (_ & ? & _).
    + destruct H as (_ & args & -> & _). split; [split|]; try discriminate.
      now intros (_ & ? & _).
  - destruct (re_search fallback_pattern (strip (c :: q))) as [m|] eqn:Hm.
    + destruct H as (ds & Hg & _ & Hlen & ->).
      destruct (over_limit lim (length ds) (length ds)) eqn:Hl.
      * split; [split|].
        -- intro E. injection E as <-. repeat split. exists m, ds. auto.
        -- now intros (-> & _).
        -- intros _. unfold over_limit in Hl.
           apply andb_true_iff in Hl as [Hl H2].
           apply andb_true_iff in Hl as [_ H1].
           apply Nat.ltb_lt in H1, H2. lia.
      * split; [split|]; try discriminate.
        intros (_ & _ & m' & ds' & Hm' & Hg' & Hl').
        injection Hm' as <-. rewrite Hg in Hg'. injection Hg' as <-.
        congruence.
    + rewrite H. split; [split|]; try discriminate.
      intros (_ & _ & m & ds & ? & _). discriminate.
Qed.

(** X12. The handler returns a descriptor exactly in two cases: the first
    rule that matches has no Integer-kind capture that [int] refuses, and
    the descriptor carries that rule's name and the JSON text of its
    converted captures; or no rule matches, the fallback pattern does with
    digits that [int] accepts, and the descriptor is get_ticket_status with
    that ticket number.  The name is always one of the five of the table. *)
Theorem descriptor_iff (lim : nat) (q : str) (resp : response) :
  (route lim q = Return resp <->
   (exists p,
      matching_rule PATTERNS (strip q) = Some p /\
      digits_over_limit lim p (strip q) = false /\
      r_name resp = name p /\
      json_dumps lim (arguments_of p (captures p (strip q)))
      = Some (r_arguments resp)) \/
   (matching_rule PATTERNS (strip q) = None /\
    exists m ds,
      re_search fallback_pattern (strip q) = Some m /\
      group m 1 = Some ds /\
      over_limit lim (length ds) (length ds) = false /\
      resp = mkResponse (L "get_ticket_status")
                        (ticket_arguments (denoted ds)))) /\
  (route lim q = Return resp -> In (r_name resp) (map name PATTERNS)).
Proof.
  destruct q as [|c q].
  { split; [split|]; try discriminate.
    intros [(p & H & _)|(_ & m & ds & H & _)]; vm_compute in H; discriminate. }
  pose proof (route_cases lim (c :: q) ltac:(discriminate)) as H.
  destruct (matching_rule PATTERNS (strip (c :: q))) as [p|] eqn:Hp.
  - destruct (find (too_long lim) (items p (strip (c :: q))))
      as [[[key t] w]|] eqn:Hf.
    + destruct H as (-> & _). split; [split|]; try discriminate.
      intros [(p' & Hp' & Hd & _)|(? & _)]; [|discriminate].
      injection Hp' as <-. unfold digits_over_limit in Hd.
      now rewrite (find_existsb _ _ Hd) in Hf.
    + destruct H as (Hd & args & -> & Ha). split; [split|].
      * intro E. injection E as <-. left. exists p. auto.
      * intros [(p' & Hp' & _ & Hn & Hj)|(? & _)]; [|discriminate].
        injection Hp' as <-. destruct resp as [n a]. simpl in Hn, Hj.
        subst n. congruence.
      * intro E. injection E as <-. cbn [r_name].
        apply in_map, (matching_rule_ok PATTERNS _ p PATTERNS_ok Hp).
  - destruct (re_search fallback_pattern (strip (c :: q))) as [m|] eqn:Hm.
    + destruct H as (ds & Hg & _ & _ & ->).
      destruct (over_limit lim (length ds) (length ds)) eqn:Hl.
      * split; [split|]; try discriminate.
        intros [(p' & ? & _)|(_ & m' & ds' & Hm' & Hg' & Hl' & _)];
          [discriminate|].
        injection Hm' as <-. rewrite Hg in Hg'. injection Hg' as <-.
        congruence.
      * split; [split|].
        -- intro E. injection E as <-. right. split; [reflexivity|].
           exists m, ds. auto.
        -- intros [(p' & ? & _)|(_ & m' & ds' & Hm' & Hg' & _ & ->)];
             [discriminate|].
           injection Hm' as <-. rewrite Hg in Hg'. now injection Hg' as <-.
        -- intro E. injection E as <-. cbn [r_name]. now left.
    + rewrite H. split; [split|]; try discriminate.
      intros [(p' & ? & _)|(_ & m & ds & ? & _)]; discriminate.
Qed.

(** The argument text of the fallback reads back as its one member. *)
Lemma ticket_arguments_loads ds :
  ds <> [] -> forallb is_decimal ds = true ->
  json_loads (ticket_arguments (denoted ds))
  = Some [(L "ticket_id", VInt (Z.of_N (denoted ds)))].
Proof.
  intros Hne Hds. apply json_loads_dumps with (lim := 0).
  unfold json_dumps. cbn [json_items json_value].
  rewrite (py_repr_denoted 0 ds Hne Hds); [reflexivity|].
  unfold over_limit. now rewrite andb_false_r.
Qed.

(** X9. Nothing is invented: in a returned descriptor, read back from its
    argument text, every String-kind value is a contiguous part of the
    query, and every Integer-kind value is the integer denoted by a
    contiguous run of digits of the query. *)
Theorem values_from_query (lim : nat) (q : str) (resp : response) :
  route lim q = Return resp ->
  exists od,
    json_loads (r_arguments resp) = Some od /\
    forall key v,
      In (key, v) od ->
      exists x w y,
        q = x ++ w ++ y /\
        match v with
        | VStr s => s = w
        | VInt z =>
            w <> [] /\ forallb is_decimal w = true /\ z = Z.of_N (denoted w)
        end.
Proof.
  intro Hr. destruct q as [|c q]; [discriminate|].
  pose proof (route_cases lim (c :: q) ltac:(discriminate)) as H.
  destruct (matching_rule PATTERNS (strip (c :: q))) as [p|] eqn:Hp.
  - destruct (find _ _) as [[[key t] w]|];
      [destruct H as (E & _); congruence|].
    destruct H as (_ & args & E & Hj). rewrite Hr in E. injection E as ->.
    exists (arguments_of p (captures p (strip (c :: q)))). cbn [r_arguments].
    split; [now apply json_loads_dumps in Hj|].
    intros key v Hin. unfold arguments_of in Hin.
    apply in_map_iff in Hin as ([[k t] w] & E & Hin). injection E as -> <-.
    destruct (route_primary lim (c :: q) p Hp) as (_ & _ & Hall & _).
    rewrite Forall_forall in Hall. specialize (Hall _ Hin).
    pose proof (zip3_in_third _ _ _ _ _ _ Hin) as Hw.
    destruct (captures_infix (c :: q) p w Hw) as [(x & y & E1) (x' & y' & E2)].
    destruct t; cbn [value_of].
    + exists x, w, y. split; [exact E1|]. destruct (Hall eq_refl). auto.
    + exists x', (strip w), y'. auto.
  - destruct (re_search fallback_pattern (strip (c :: q))) as [m|] eqn:Hm;
      [|rewrite Hr in H; discriminate].
    destruct H as (ds & Hg & [Hne Hds] & _ & E). rewrite Hr in E.
    destruct (over_limit lim (length ds) (length ds)); [discriminate|].
    injection E as ->.
    exists [(L "ticket_id", VInt (Z.of_N (denoted ds)))]. cbn [r_arguments].
    split; [now apply ticket_arguments_loads|].
    intros key v [E|[]]. injection E as <- <-.
    destruct (fallback_found _ _ Hm)
      as (a & t & ws & ds' & b & (Ht & _) & Hg' & _).
    assert (ds' = ds) by congruence. subst ds'.
    destruct (strip_split (c :: q)) as (lead & trail & Hq & _).
    exists (lead ++ a ++ t ++ ws), ds, (b ++ trail).
    split; [|auto].
    rewrite Hq at 1. rewrite Ht. now rewrite <- !app_assoc.
Qed.

Lemma values_from_query_witness :
  exists od,
    json_loads schedule_arguments = Some od /\
    forall key v,
      In (key, v) od ->
      exists x w y,
        schedule_query = x ++ w ++ y /\
        match v with
        | VStr s => s = w
        | VInt z =>
            w <> [] /\ forallb is_decimal w = true /\ z = Z.of_N (denoted w)
        end.
Proof.
  apply (values_from_query default_int_max_str_digits schedule_query
           (mkResponse (L "schedule_meeting") schedule_arguments)).
  vm_compute. reflexivity.
Defined.

(** X18. When no rule of the table matches and the trimmed query holds
    "ticket" (in any case), whitespace and digits, the fallback reads the
    first such place in the text and the longest run of digits there.  The
    answer is [get_ticket_status] with the one argument [ticket_id], the
    integer that the run denotes, unless the run has more digits than [int]
    accepts: then the request ends in a [ValueError] that nothing
    catches. *)
Theorem fallback_reads_first_ticket_number (lim : nat) (q : str) :
  matching_rule PATTERNS (strip q) = None ->
  contains_ticket_number (strip q) ->
  exists a t ws ds b,
    ticket_number_at (strip q) a t ws ds b /\
    (forall a' t' ws' ds' b',
       ticket_number_at (strip q) a' t' ws' ds' b' -> length a <= length a') /\
    match b with c :: _ => is_decimal c = false | [] => True end /\
    route lim q =
      (if over_limit lim (length ds) (length ds)
       then Uncaught ValueError
       else Return (mkResponse (L "get_ticket_status")
                               (ticket_arguments (denoted ds)))) /\
    json_loads (ticket_arguments (denoted ds))
    = Some [(L "ticket_id", VInt (Z.of_N (denoted ds)))].
Proof.
  intros Hp Hc. pose proof (fallback_complete _ Hc) as Hf.
  destruct (re_search fallback_pattern (strip q)) as [m|] eqn:Hm;
    [|congruence].
  destruct (fallback_found _ _ Hm)
    as (a & t & ws & ds & b & Hat & Hg & Hmax & Hleft).
  exists a, t, ws, ds, b.
  pose proof Hat as (H1 & _ & _ & _ & H5 & H6).
  assert (Hq : q <> []).
  { intros ->. change (strip []) with (@nil ascii) in H1.
    destruct a; [|discriminate]. destruct t; [|discriminate].
    destruct ws; [|discriminate]. destruct ds; [congruence|discriminate]. }
  split; [exact Hat|]. split; [exact Hleft|]. split; [exact Hmax|].
  split; [|now apply ticket_arguments_loads].
  rewrite (route_fallback lim q Hq Hp).
  exact (fallback_returns lim _ m ds Hm Hg H5 H6).
Qed.

Lemma fallback_reads_first_ticket_number_witness :
  exists a t ws ds b,
    ticket_number_at (strip (L "Any news on Ticket 999 please")) a t ws ds b /\
    (forall a' t' ws' ds' b',
       ticket_number_at (strip (L "Any news on Ticket 999 please"))
                        a' t' ws' ds' b' ->
       length a <= length a') /\
    match b with c :: _ => is_decimal c = false | [] => True end /\
    route default_int_max_str_digits (L "Any news on Ticket 999 please") =
      (if over_limit default_int_max_str_digits (length ds) (length ds)
       then Uncaught ValueError
       else Return (mkResponse (L "get_ticket_status")
                               (ticket_arguments (denoted ds)))) /\
    json_loads (ticket_arguments (denoted ds))
    = Some [(L "ticket_id", VInt (Z.of_N (denoted ds)))].
Proof.
  apply (fallback_reads_first_ticket_number default_int_max_str_digits
           (L "Any news on Ticket 999 please")).
  - vm_compute. reflexivity.
  - exists (L "Any news on "), (L "Ticket"), (L " "), (L "999"), (L " please").
    vm_compute. repeat split; discriminate.
Defined.

(** ** Building the response *)

Lemma json_items_none lim d :
  json_items lim d = None <->
  exists k z, In (k, VInt z) d /\ py_repr_int lim z = None.
Proof.
  induction d as [|[k v] d IH]; simpl.
  - split; [discriminate | now intros (? & ? & [] & _)].
  - destruct (json_value lim v) as [e|] eqn:Ev.
    + destruct (json_items lim d) as [es|].
      * split; [discriminate|].
        intros (k' & z & [E|Hin] & Hz).
        -- injection E as -> ->. simpl in Ev. congruence.
        -- assert (X : Some es = None) by (apply IH; eauto). discriminate.
      * split; [|reflexivity]. intros _.
        destruct (proj1 IH eq_refl) as (k' & z & Hin & Hz). eauto.
    + split; [|reflexivity]. intros _.
      destruct v as [z|s]; [|discriminate]. exists k, z. auto.
Qed.

Lemma json_dumps_none lim d :
  json_dumps lim d = None <->
  exists k z, In (k, VInt z) d /\ py_repr_int lim z = None.
Proof.
  rewrite <- json_items_none. unfold json_dumps.
  destruct (json_items lim d); split; congruence.
Qed.

(** X13. [build_response] keeps the function name, writes an argument text
    that reads back as exactly the dictionary it was given, keys in order,
    and leaves the state alone.  It fails only with [ValueError], and only
    when the dictionary holds an integer with more digits than the
    interpreter converts. *)
Theorem build_response_round_trip (func_name : str) (ordered_args : odict)
  (g : globals) :
  NoDup (map fst ordered_args) ->
  snd (build_response func_name ordered_args g) = g /\
  (forall resp,
     fst (build_response func_name ordered_args g) = Return resp ->
     r_name resp = func_name /\
     json_loads (r_arguments resp) = Some ordered_args) /\
  ((exists resp, fst (build_response func_name ordered_args g) = Return resp) \/
   fst (build_response func_name ordered_args g) = Uncaught ValueError) /\
  (fst (build_response func_name ordered_args g) = Uncaught ValueError <->
   exists k z, In (k, VInt z) ordered_args /\
               py_repr_int (g_int_max_str_digits g) z = None).
Proof.
  intros _. rewrite <- json_dumps_none.
  cbv [build_response bind read_limit ret raise].
  destruct (json_dumps (g_int_max_str_digits g) ordered_args) as [args|] eqn:E;
    cbn [fst snd].
  - split; [reflexivity|]. split.
    + intros resp H. injection H as <-.
      split; [reflexivity | exact (json_loads_dumps _ _ _ E)].
    + split; [left; eauto | split; discriminate].
  - split; [reflexivity|]. split; [discriminate|].
    split; [now right | split; reflexivity].
Qed.

Lemma build_response_round_trip_witness :
  exists resp,
    fst (build_response (L "f") [(L "a", VInt 5); (L "b", VStr (L "x y"))]
           (boot default_int_max_str_digits)) = Return resp /\
    r_name resp = L "f" /\
    json_loads (r_arguments resp)
    = Some [(L "a", VInt 5%Z); (L "b", VStr (L "x y"))].
Proof.
  destruct (build_response_round_trip (L "f")
              [(L "a", VInt 5); (L "b", VStr (L "x y"))]
              (boot default_int_max_str_digits)) as (_ & H & _).
  - repeat constructor; simpl; intuition discriminate.
  - eexists. split; [reflexivity|]. apply H. reflexivity.
Defined.

Lemma find_first {A} (f : A -> bool) l x :
  find f l = Some x <->
  exists before after,
    l = before ++ x :: after /\ f x = true /\ existsb f before = false.
Proof.
  induction l as [|y l IH]; simpl.
  - split; [discriminate|]. intros ([|? ?] & ? & ? & _); discriminate.
  - destruct (f y) eqn:Ey.
    + split.
      * intro H. injection H as <-. exists [], l. auto.
      * intros ([|z before] & after & E & Hx & Hb).
        -- now injection E as <- _.
        -- injection E as <- _. simpl in Hb. now rewrite Ey in Hb.
    + rewrite IH. split.
      * intros (before & after & -> & Hx & Hb). exists (y :: before), after.
        simpl. now rewrite Ey.
      * intros ([|z before] & after & E & Hx & Hb).
        -- injection E as <- _. congruence.
        -- injection E as <- ->. simpl in Hb. rewrite Ey in Hb.
           exists before, after. auto.
Qed.

(** X14. When the rule that matches first has an Integer-kind capture that
    [int] refuses, the detail of the 400 names the first such parameter in
    the order of the rule, and no other. *)
Theorem invalid_integer_names_first (lim : nat) (q : str) (p : rule)
  (key : str) :
  matching_rule PATTERNS (strip q) = Some p ->
  (route lim q = HTTPException 400 (invalid_integer key) <->
   exists before w after,
     items p (strip q) = before ++ (key, T_int, w) :: after /\
     over_limit lim (length w) (length w) = true /\
     existsb (too_long lim) before = false).
Proof.
  intro Hp. destruct (route_primary lim q p Hp) as (_ & _ & _ & _ & ->).
  split.
  - destruct (find (too_long lim) (items p (strip q))) as [[[key' t] w]|] eqn:Hf.
    + intro E. assert (key' = key) by (apply invalid_integer_inj; congruence).
      subst key'.
      apply find_first in Hf as (before & after & Hi & Hl & Hb).
      destruct t; [|discriminate]. exists before, w, after. auto.
    + destruct (json_dumps _ _); discriminate.
  - intros (before & w & after & Hi & Hl & Hb).
    assert (Hf : find (too_long lim) (items p (strip q)) = Some (key, T_int, w))
      by (apply find_first; exists before, after; auto).
    now rewrite Hf.
Qed.

Lemma invalid_integer_names_first_witness :
  route 640 refused_bonus_query
  = HTTPException 400 (invalid_integer (L "employee_id")) /\
  exists before w after,
    items (rule_at 3) (strip refused_bonus_query)
    = before ++ (L "employee_id", T_int, w) :: after /\
    over_limit 640 (length w) (length w) = true /\
    existsb (too_long 640) before = false.
Proof.
  assert (Hp : matching_rule PATTERNS (strip refused_bonus_query)
               = Some (rule_at 3)) by (vm_compute; reflexivity).
  assert (Hr : route 640 refused_bonus_query
               = HTTPException 400 (invalid_integer (L "employee_id"))).
  { apply (proj2 (invalid_integer_names_first 640 refused_bonus_query
                    (rule_at 3) (L "employee_id") Hp)).
    exists [], (repeat "1"%char 641), [(L "current_year", T_int, L "2025")].
    split; [vm_compute; reflexivity|]. split; vm_compute; reflexivity. }
  split; [exact Hr|].
  exact (proj1 (invalid_integer_names_first 640 refused_bonus_query
                  (rule_at 3) (L "employee_id") Hp) Hr).
Defined.

(** ** Control characters and ticket queries *)










(** X16. A query that mentions a ticket number and fits none of the
    templates two to five is answered with get_ticket_status, through the
    first template or through the fallback, as long as it is no longer than
    [int] accepts. *)
Theorem ticket_queries_answered (lim : nat) (q : str) :
  contains_ticket_number (strip q) ->
  (forall i, 1 <= i <= 4 -> matches (strip q) (rule_at i) = false) ->
  lim = 0 \/ length q <= lim ->
  exists args, route lim q = Return (mkResponse (L "get_ticket_status") args).
Proof.
  intros Hc Hn Hlim.
  assert (Hq : q <> []).
  { intros ->. destruct Hc as (a & t & ws & ds & b & Hs & _ & _ & _ & Hd & _).
    change (strip []) with (@nil ascii) in Hs.
    destruct a; [|discriminate]. destruct t; [|discriminate].
    destruct ws; [|discriminate]. destruct ds; [congruence|discriminate]. }
  pose proof (route_cases lim q Hq) as H.
  destruct (matching_rule PATTERNS (strip q)) as [p|] eqn:Hp.
  - assert (p = rule_at 0).
    { unfold matching_rule in Hp.
      change PATTERNS
        with [rule_at 0; rule_at 1; rule_at 2; rule_at 3; rule_at 4] in Hp.
      cbn [find] in Hp.
      rewrite (Hn 1), (Hn 2), (Hn 3), (Hn 4) in Hp by lia.
      destruct (matches (strip q) (rule_at 0)); congruence. }
    subst p. pose proof (within_limit lim q (rule_at 0) Hlim) as Hd.
    unfold digits_over_limit in Hd. rewrite (find_existsb _ _ Hd) in H.
    destruct H as (_ & args & -> & _). now exists args.
  - pose proof (fallback_complete _ Hc) as Hf.
    destruct (re_search fallback_pattern (strip q)) as [m|]; [|congruence].
    destruct H as (ds & _ & _ & Hlen & ->).
    assert (Hl : over_limit lim (length ds) (length ds) = false).
    { unfold over_limit.
      destruct (Nat.ltb_spec 0 lim), (Nat.ltb_spec lim (length ds));
        rewrite ?andb_false_r; try reflexivity; lia. }
    rewrite Hl. eauto.
Qed.

Lemma ticket_queries_answered_witness :
  exists args,
    route default_int_max_str_digits (L "status of ticket 12abc")
    = Return (mkResponse (L "get_ticket_status") args).
Proof.
  apply ticket_queries_answered.
  - exists (L "status of "), (L "ticket"), (L " "), (L "12"), (L "abc").
    repeat split; discriminate.
  - intros i Hi.
    assert (E : i = 1 \/ i = 2 \/ i = 3 \/ i = 4) by lia.
    destruct E as [-> | [-> | [-> | ->]]]; vm_compute; reflexivity.
  - right. vm_compute. lia.
Defined.

(** ** Greedy and lazy repetition in the fifth template *)

Lemma flat_map_first {A B} (f : A -> list B) xs y l :
  flat_map f xs = y :: l ->
  exists pre x post l',
    xs = pre ++ x :: post /\ (forall z, In z pre -> f z = []) /\
    f x = y :: l'.
Proof.
  induction xs as [|x xs IH]; simpl; [discriminate|].
  destruct (f x) as [|y0 l0] eqn:E; simpl.
  - intro H. destruct (IH H) as (pre & x' & post & l' & -> & Hpre & Hx).
    exists (x :: pre), x', post, l'. repeat split; auto.
    intros z [<-|Hz]; auto.
  - intro H. injection H as <- <-. exists [], x, xs, l0.
    repeat split; auto. intros z [].
Qed.

Lemma ms_cat r1 r2 base st :
  ms (Cat r1 r2) base st = flat_map (ms r2 (base + ngroups r1)) (ms r1 base st).
Proof. reflexivity. Qed.

Lemma walk_ge f n : forall p pv s z, In z (walk f n p pv s) -> p <= pos z.
Proof.
  induction n as [|n IH]; intros p pv s z H; simpl in H.
  - destruct H as [<-|H]; [simpl; lia|]. destruct s; destruct H.
  - destruct H as [<-|H]; [simpl; lia|].
    destruct s as [|x s]; [destruct H|].
    destruct (f x); [|destruct H]. apply IH in H. lia.
Qed.

(** The cursors of a walk stand in the order of their positions. *)
Lemma walk_order f n : forall p pv s pre c post,
  walk f n p pv s = pre ++ c :: post ->
  (forall z, In z pre -> pos z < pos c) /\
  (forall z, In z post -> pos c < pos z).
Proof.
  induction n as [|n IH]; intros p pv s pre c post H.
  - assert (E : walk f 0 p pv s = [mkCursor p pv s]) by (destruct s; reflexivity).
    rewrite E in H. destruct pre as [|x [|x' pre]]; try discriminate.
    injection H as <- <-. split; intros z [].
  - simpl in H. destruct pre as [|x pre].
    + injection H as <- <-. split; [intros z []|]. intros z Hz. simpl.
      destruct s as [|y s]; [destruct Hz|].
      destruct (f y); [|destruct Hz]. apply walk_ge in Hz. lia.
    + injection H as <- H.
      destruct s as [|y s]; [destruct pre; discriminate|].
      destruct (f y); [|destruct pre; discriminate].
      destruct (IH _ _ _ _ _ _ H) as [H1 H2]. split; [|exact H2].
      intros z [<-|Hz]; [|auto]. simpl.
      assert (Hc : In c (walk f n (S p) (Some y) s))
        by (rewrite H; apply in_or_app; right; now left).
      apply walk_ge in Hc. lia.
Qed.

(** A greedy repetition lists the longer runs first, a lazy one the
    shorter runs. *)
Lemma rep_order cs lo hi gr base st pre s1 post :
  ms (Rep cs lo hi gr) base st = pre ++ s1 :: post ->
  forall z, In z post ->
    if gr then pos (fst z) < pos (fst s1) else pos (fst s1) < pos (fst z).
Proof.
  cbn [ms].
  set (W := walk (cset_mem cs)
              match hi with Some h => h | None => length (rest (fst st)) end
              (pos (fst st)) (prev (fst st)) (rest (fst st))).
  intros H z Hz.
  apply map_eq_app in H as (Lpre & L' & HL & _ & H).
  apply map_eq_cons in H as (c & Lpost & -> & <- & <-).
  apply in_map_iff in Hz as (cz & <- & Hz). simpl.
  pose proof (firstn_skipn lo W) as HW.
  destruct gr.
  - rewrite rev_append_nil in HL.
    assert (E : skipn lo W = rev Lpost ++ c :: rev Lpre).
    { rewrite <- (rev_involutive (skipn lo W)), HL, rev_app_distr. simpl.
      now rewrite <- app_assoc. }
    rewrite E, app_assoc in HW. symmetry in HW.
    destruct (walk_order _ _ _ _ _ _ _ _ HW) as [H1 _].
    apply H1. apply in_or_app. right. now apply -> in_rev.
  - rewrite HL, app_assoc in HW. symmetry in HW.
    destruct (walk_order _ _ _ _ _ _ _ _ HW) as [_ H2]. now apply H2.
Qed.

Lemma group_rep_order cs lo hi gr base st pre s1 post :
  ms (Group (Rep cs lo hi gr)) base st = pre ++ s1 :: post ->
  forall z, In z post ->
    if gr then pos (fst z) < pos (fst s1) else pos (fst s1) < pos (fst z).
Proof.
  change (ms (Group (Rep cs lo hi gr)) base st)
    with (map (fun st' : mstate =>
                 (fst st', (S base, (pos (fst st), pos (fst st'))) :: snd st'))
              (ms (Rep cs lo hi gr) (S base) st)).
  intros H z Hz.
  apply map_eq_app in H as (Lpre & L' & HL & _ & H).
  apply map_eq_cons in H as (c & Lpost & -> & <- & <-).
  apply in_map_iff in Hz as (cz & <- & Hz). simpl.
  exact (rep_order _ _ _ _ _ _ _ _ _ HL cz Hz).
Qed.

(** In a list in that order, what stands on the preferred side of an
    element stands before it. *)
Lemma first_choice (gr : bool) (l pre post : list mstate) s1 z :
  l = pre ++ s1 :: post ->
  (forall x, In x post ->
     if gr then pos (fst x) < pos (fst s1) else pos (fst s1) < pos (fst x)) ->
  In z l ->
  (if gr then pos (fst s1) < pos (fst z) else pos (fst z) < pos (fst s1)) ->
  In z pre.
Proof.
  intros -> Hpost Hz Hlt.
  apply in_app_or in Hz as [Hz|[<-|Hz]]; [exact Hz| |].
  - destruct gr; lia.
  - specialize (Hpost z Hz). destruct gr; lia.
Qed.

Lemma department_group_accepts pv w after gs :
  accepts department_group pv w after gs <->
  (w <> [] /\ forallb (fun c => negb (is_code 10 c)) w = true) /\
  gs = [Some w].
Proof.
  unfold department_group. cbn [accepts cset_mem]. split.
  - intros (g & (H1 & H2 & _ & ->) & ->). apply nonempty_length in H2. auto.
  - intros [[H1 H2] ->]. apply nonempty_length in H1. exists []. auto.
Qed.

Lemma department_tail_accepts pv w after gs :
  accepts department_tail pv w after gs <->
  exists ws4 t4,
    w = ws4 ++ t4 /\ gs = [] /\ spaces ws4 /\
    lower t4 = lower (L "department") /\ starts_with_word after = false.
Proof.
  unfold department_tail. split.
  - intros (ws4 & x & g1 & g2 & -> & -> & S4 &
            t4 & x' & g3 & g4 & -> & -> & (Ht4 & ->) & (-> & B1 & ->)).
    apply spaces_accepts in S4 as [S4 ->].
    exists ws4, t4. rewrite app_nil_r. repeat split; try apply S4; auto.
    rewrite word_boundary_behind in B1.
    + now apply negb_true_iff in B1.
    + apply (lower_last_word t4 (L "departmen") "t"%char Ht4 eq_refl).
  - intros (ws4 & t4 & -> & -> & S4 & Ht4 & B1).
    apply (accepts_cat _ _ _ ws4 t4 after [] []); [now apply spaces_accepts|].
    rewrite <- (app_nil_r t4) at 1.
    apply (accepts_cat _ _ _ t4 [] after [] []); [split; auto|].
    repeat split. rewrite word_boundary_behind.
    + now rewrite B1.
    + apply (lower_last_word t4 (L "departmen") "t"%char Ht4 eq_refl).
Qed.

(** The way in which the fifth template matches first: the states between
    its items, with the choices that were tried before at the whitespace
    in front of the department and at the department. *)
Lemma report_path st0 y l :
  ms (pattern (rule_at 4)) 0 st0 = y :: l ->
  exists s1 s2 s3 s4 s5 s6 s7 s8 s9 s10 pre9 post9 pre10 post10 l6 l10,
    In s1 (ms WordB 0 st0) /\ In s2 (ms (Lit "report ") 0 s1) /\
    In s3 (ms article_pattern 0 s2) /\ In s4 (ms (Lit "office issue") 0 s3) /\
    In s5 (ms (plus CSpace) 0 s4) /\ In s6 (ms (Group (plus CDigit)) 0 s5) /\
    ms (Cat (plus CSpace) (Cat (Lit "for the") (Cat (plus CSpace)
         (Cat department_group department_tail)))) 1 s6 = y :: l6 /\
    In s7 (ms (plus CSpace) 1 s6) /\ In s8 (ms (Lit "for the") 1 s7) /\
    ms (plus CSpace) 1 s8 = pre9 ++ s9 :: post9 /\
    (forall z, In z pre9 -> ms (Cat department_group department_tail) 1 z = []) /\
    ms department_group 1 s9 = pre10 ++ s10 :: post10 /\
    (forall z, In z pre10 -> ms department_tail 2 z = []) /\
    ms department_tail 2 s10 = y :: l10.
Proof.
  change (pattern (rule_at 4))
    with (Cat WordB (Cat (Lit "report ") (Cat article_pattern
          (Cat (Lit "office issue") (Cat (plus CSpace)
          (Cat (Group (plus CDigit)) (Cat (plus CSpace) (Cat (Lit "for the")
          (Cat (plus CSpace) (Cat department_group department_tail)))))))))).
  intro E.
  rewrite ms_cat in E. apply hd_flat_map in E as (s1 & l1 & In1 & E).
  rewrite ms_cat in E. apply hd_flat_map in E as (s2 & l2 & In2 & E).
  rewrite ms_cat in E. apply hd_flat_map in E as (s3 & l3 & In3 & E).
  rewrite ms_cat in E. apply hd_flat_map in E as (s4 & l4 & In4 & E).
  rewrite ms_cat in E. apply hd_flat_map in E as (s5 & l5 & In5 & E).
  rewrite ms_cat in E. apply hd_flat_map in E as (s6 & l6 & In6 & E6).
  pose proof E6 as E.
  rewrite ms_cat in E. apply hd_flat_map in E as (s7 & l7 & In7 & E).
  rewrite ms_cat in E. apply hd_flat_map in E as (s8 & l8 & In8 & E).
  rewrite ms_cat in E.
  apply flat_map_first in E as (pre9 & s9 & post9 & l9 & E9 & P9 & E).
  rewrite ms_cat in E.
  apply flat_map_first in E as (pre10 & s10 & post10 & l10 & E10 & P10 & E).
  exists s1, s2, s3, s4, s5, s6, s7, s8, s9, s10, pre9, post9, pre10, post10,
    l6, l10.
  repeat split; assumption.
Qed.

(** At a given start, the form of the fifth template fixes everything up to
    the whitespace in front of the department. *)
Lemma report_tail_unique text a t1 art t2 ws1 code ws2 t3 ws3 dept ws4 t4 b
  a' t1' art' t2' ws1' code' ws2' t3' ws3' dept' ws4' t4' b' :
  report_at text a t1 art t2 ws1 code ws2 t3 ws3 dept ws4 t4 b ->
  report_at text a' t1' art' t2' ws1' code' ws2' t3' ws3' dept' ws4' t4' b' ->
  length a' = length a ->
  ws3' ++ dept' ++ ws4' ++ t4' ++ b' = ws3 ++ dept ++ ws4 ++ t4 ++ b.
Proof.
  intros (H & Ht1 & Hart & Ht2 & Ht3 & _ & [N1 S1] & [N2 S2] & _ & _ &
          [Nc Hc] & _)
         (H' & Ht1' & Hart' & Ht2' & Ht3' & _ & [N1' S1'] & [N2' S2'] & _ & _ &
          [Nc' Hc'] & _) Hl.
  rewrite H in H'. apply app_eq_length in H' as [_ H']; [|now symmetry].
  apply (literal_unique _ _ _ _ _ Ht1 Ht1') in H' as [_ H'].
  assert (E : t2 ++ ws1 ++ code ++ ws2 ++ t3 ++ ws3 ++ dept ++ ws4 ++ t4 ++ b
              = t2' ++ ws1' ++ code' ++ ws2' ++ t3' ++ ws3' ++ dept' ++ ws4'
                  ++ t4' ++ b').
  { destruct Hart as [Ha|[Ha| ->]], Hart' as [Ha'|[Ha'| ->]];
      try (apply (literal_unique _ _ _ _ _ Ha Ha') in H' as [_ H']; exact H');
      try exact H'; exfalso.
    - exact (literal_conflict _ _ _ _ _ _ _ _ Ha Ha' ltac:(discriminate) H').
    - exact (literal_conflict _ _ _ _ _ _ _ _ Ha Ht2' ltac:(discriminate) H').
    - exact (literal_conflict _ _ _ _ _ _ _ _ Ha Ha' ltac:(discriminate) H').
    - exact (literal_conflict _ _ _ _ _ _ _ _ Ha Ht2' ltac:(discriminate) H').
    - exact (literal_conflict _ _ _ _ _ _ _ _ Ht2 Ha' ltac:(discriminate) H').
    - exact (literal_conflict _ _ _ _ _ _ _ _ Ht2 Ha' ltac:(discriminate) H'). }
  apply (literal_unique _ _ _ _ _ Ht2 Ht2') in E as [_ E].
  apply (run_unique is_space) in E as [_ E]; auto;
    try now apply digits_then_not_space.
  apply (run_unique is_decimal) in E as [_ E]; auto;
    try now apply spaces_then_not_decimal.
  apply (run_unique is_space) in E as [_ E]; auto;
    try (eapply letter_then_not_space; [eassumption | reflexivity]).
  apply (literal_unique _ _ _ _ _ Ht3 Ht3') in E as [_ E]. now symmetry.
Qed.

Lemma lit_accepts s pv w after gs :
  accepts (Lit s) pv w after gs <-> lower w = lower (L s) /\ gs = [].
Proof. reflexivity. Qed.

(** X17. In the fifth template the whitespace in front of the department is
    greedy and the department is lazy: of all the ways in which the text
    has the form of the template at the leftmost place, the match takes
    the longest whitespace there and then the shortest department, that is
    the one up to the first whitespace and "department" that follow. *)
Theorem department_is_shortest (text : str) :
  matches text (rule_at 4) = true ->
  exists a t1 art t2 ws1 code ws2 t3 ws3 dept ws4 t4 b,
    report_at text a t1 art t2 ws1 code ws2 t3 ws3 dept ws4 t4 b /\
    captures (rule_at 4) text = [code; dept] /\
    forall a' t1' art' t2' ws1' code' ws2' t3' ws3' dept' ws4' t4' b',
      report_at text a' t1' art' t2' ws1' code' ws2' t3' ws3' dept' ws4' t4' b' ->
      length a <= length a' /\
      (length a' = length a ->
       length ws3' <= length ws3 /\
       (length ws3' = length ws3 -> length dept <= length dept')).
Proof.
  intro Hm. apply matches_true in Hm.
  destruct (re_search (pattern (rule_at 4)) text) as [m|] eqn:Em; [|congruence].
  clear Hm. pose proof Em as Es. unfold re_search in Es.
  destruct (scan (pattern (rule_at 4)) 0 None text) as [[p y]|] eqn:Esc;
    [|discriminate].
  injection Es as Es.
  apply scan_found in Esc as (u & s' & l & Htext & -> & E0).
  change (0 + length u) with (length u) in E0, Es.
  set (c0 := mkCursor (length u) (last (map Some u) None) s') in E0.
  assert (Hp0 : placed text (fst (c0, @nil (nat * (nat * nat)))))
    by (exists u; auto).
  destruct (report_path _ _ _ E0)
    as (s1 & s2 & s3 & s4 & s5 & s6 & s7 & s8 & s9 & s10 & pre9 & post9 &
        pre10 & post10 & l6 & l10 & In1 & In2 & In3 & In4 & In5 & In6 & E6 &
        In7 & In8 & E9 & P9 & E10 & P10 & E11).
  assert (In9 : In s9 (ms (plus CSpace) 1 s8))
    by (rewrite E9; apply in_or_app; right; now left).
  assert (In10 : In s10 (ms department_group 1 s9))
    by (rewrite E10; apply in_or_app; right; now left).
  assert (In11 : In y (ms department_tail 2 s10)) by (rewrite E11; now left).
  destruct (ms_sound text _ _ _ _ In1 Hp0) as (w1 & g1 & M1 & A1 & _).
  pose proof (placed_moved _ _ _ _ Hp0 M1) as Hp1.
  destruct (ms_sound text _ _ _ _ In2 Hp1) as (w2 & g2 & M2 & A2 & _).
  pose proof (placed_moved _ _ _ _ Hp1 M2) as Hp2.
  destruct (ms_sound text _ _ _ _ In3 Hp2) as (w3 & g3 & M3 & A3 & _).
  pose proof (placed_moved _ _ _ _ Hp2 M3) as Hp3.
  destruct (ms_sound text _ _ _ _ In4 Hp3) as (w4 & g4 & M4 & A4 & _).
  pose proof (placed_moved _ _ _ _ Hp3 M4) as Hp4.
  destruct (ms_sound text _ _ _ _ In5 Hp4) as (w5 & g5 & M5 & A5 & _).
  pose proof (placed_moved _ _ _ _ Hp4 M5) as Hp5.
  destruct (ms_sound text _ _ _ _ In6 Hp5) as (w6 & g6 & M6 & A6 & G6).
  pose proof (placed_moved _ _ _ _ Hp5 M6) as Hp6.
  destruct (ms_sound text _ _ _ _ In7 Hp6) as (w7 & g7 & M7 & A7 & _).
  pose proof (placed_moved _ _ _ _ Hp6 M7) as Hp7.
  destruct (ms_sound text _ _ _ _ In8 Hp7) as (w8 & g8 & M8 & A8 & _).
  pose proof (placed_moved _ _ _ _ Hp7 M8) as Hp8.
  destruct (ms_sound text _ _ _ _ In9 Hp8) as (w9 & g9 & M9 & A9 & _).
  pose proof (placed_moved _ _ _ _ Hp8 M9) as Hp9.
  destruct (ms_sound text _ _ _ _ In10 Hp9) as (w10 & g10 & M10 & A10 & G10).
  pose proof (placed_moved _ _ _ _ Hp9 M10) as Hp10.
  destruct (ms_sound text _ _ _ _ In11 Hp10) as (w11 & g11 & M11 & A11 & _).
  (* what each item read *)
  destruct A1 as (-> & B0 & _).
  apply lit_accepts in A2 as [A2 _], A4 as [A4 _], A8 as [A8 _].
  apply article_accepts in A3 as [A3 _].
  apply spaces_accepts in A5 as [A5 _], A7 as [A7 _], A9 as [A9 _].
  apply digits_accepts in A6 as [A6 ->].
  apply department_group_accepts in A10 as [A10 ->].
  apply department_tail_accepts in A11 as (ws4 & t4 & -> & _ & S4 & Ht4 & B1).
  (* the text between the states *)
  pose proof (proj1 M1) as R1. pose proof (proj1 M2) as R2.
  pose proof (proj1 M3) as R3. pose proof (proj1 M4) as R4.
  pose proof (proj1 M5) as R5. pose proof (proj1 M6) as R6.
  pose proof (proj1 M7) as R7. pose proof (proj1 M8) as R8.
  pose proof (proj1 M9) as R9. pose proof (proj1 M10) as R10.
  pose proof (proj1 M11) as R11.
  simpl in R1.
  assert (R8' : rest (fst s8)
                = w9 ++ w10 ++ ws4 ++ t4 ++ rest (fst y))
    by (rewrite R9, R10, R11; now rewrite <- !app_assoc).
  assert (Hat : report_at text u w2 w3 w4 w5 w6 w7 w8 w9 w10 ws4 t4
                          (rest (fst y))).
  { unfold report_at. split.
    - rewrite Htext, R1, R2, R3, R4, R5, R6, R7, R8, R8'. reflexivity.
    - repeat (split; [assumption|]). split; [|exact B1].
      rewrite R2 in B0. rewrite word_boundary_before in B0.
      + apply negb_true_iff in B0. exact B0.
      + destruct w2 as [|c w2]; [discriminate|].
        apply (lower_starts_with_word (c :: w2) "r"%char (L "eport ") A2
                 eq_refl). }
  (* the groups of the match *)
  assert (Hg : groups m = [Some w6; Some w10]).
  { rewrite <- Es. unfold groups, group. cbn [m_ngroups m_marks m_string].
    change (ngroups (pattern (rule_at 4))) with 2. cbn [seq map].
    assert (F6 : mark_of 1 (snd y) = mark_of 1 (snd s6)).
    { assert (Hin : In y (ms (Cat (plus CSpace) (Cat (Lit "for the")
                                (Cat (plus CSpace)
                                   (Cat department_group department_tail))))
                             1 s6)) by (rewrite E6; now left).
      destruct (ms_inv text _ _ _ _ Hin (placed_valid _ _ Hp6))
        as (_ & _ & F & _).
      apply F. left. lia. }
    assert (F10 : mark_of 2 (snd y) = mark_of 2 (snd s10)).
    { destruct (ms_inv text _ _ _ _ In11 (placed_valid _ _ Hp10))
        as (_ & _ & F & _).
      apply F. left. lia. }
    specialize (G6 0 ltac:(simpl; lia)). specialize (G10 0 ltac:(simpl; lia)).
    simpl in G6, G10.
    destruct G6 as (x6 & y6 & G6 & Hs6). destruct G10 as (x10 & y10 & G10 & Hs10).
    rewrite F6, G6, F10, G10, Hs6, Hs10. reflexivity. }
  pose proof (captures_groups (rule_at 4) _ m [w6; w10] Em Hg) as Hcap.
  exists u, w2, w3, w4, w5, w6, w7, w8, w9, w10, ws4, t4, (rest (fst y)).
  split; [exact Hat|]. split; [exact Hcap|].
  intros a' t1' art' t2' ws1' code' ws2' t3' ws3' dept' ws4' t4' b' H'.
  split.
  { (* leftmost *)
    destruct H' as (Ht & H').
    assert (E : text = a' ++ (t1' ++ art' ++ t2' ++ ws1' ++ code' ++ ws2' ++ t3'
                               ++ ws3' ++ dept' ++ ws4' ++ t4') ++ b')
      by (now rewrite Ht, <- !app_assoc).
    assert (A : accepts (pattern (rule_at 4)) (last (map Some a') None)
                  (t1' ++ art' ++ t2' ++ ws1' ++ code' ++ ws2' ++ t3' ++ ws3'
                      ++ dept' ++ ws4' ++ t4') b' [Some code'; Some dept']).
    { apply report_accepts.
      exists t1', art', t2', ws1', code', ws2', t3', ws3', dept', ws4', t4'.
      unfold ends_with_word in H'. tauto. }
    pose proof (re_search_leftmost _ _ _ _ _ _ _ Em E A) as Hl.
    rewrite <- Es in Hl. exact Hl. }
  intro Hl.
  pose proof (report_tail_unique _ _ _ _ _ _ _ _ _ _ _ _ _ _ _ _ _ _ _ _ _ _
                _ _ _ _ _ Hat H' Hl) as Et.
  destruct H' as (_ & _ & _ & _ & _ & Ht4' & _ & _ & S3' & S4' & _ & D' & _ & B1').
  assert (Atail : forall pv,
            accepts department_tail pv (ws4' ++ t4') b' []).
  { intro pv. apply department_tail_accepts. exists ws4', t4'. auto. }
  destruct (Nat.le_gt_cases (length ws3') (length w9)) as [Hle|Hgt].
  - split; [exact Hle|]. intro Heq.
    apply app_eq_length in Et as [_ Et]; [|exact Heq].
    destruct (Nat.le_gt_cases (length w10) (length dept')) as [Hd|Hd];
      [exact Hd|]. exfalso.
    assert (R9' : rest (fst s9) = dept' ++ ws4' ++ t4' ++ b')
      by (rewrite R10, R11, <- !app_assoc; now symmetry).
    destruct (ms_complete department_group 1 s9 dept' _ [Some dept'] R9')
      as (z & Inz & Mz).
    { now apply department_group_accepts. }
    assert (Hz : In z pre10).
    { apply (first_choice false _ _ _ _ _ E10
               (group_rep_order _ _ _ _ _ _ _ _ _ E10) Inz).
      destruct Mz as (_ & Pz & _). destruct M10 as (_ & P10' & _). lia. }
    pose proof (moved_rest _ _ _ _ Mz R9') as Rz.
    destruct (ms_complete department_tail 2 z (ws4' ++ t4') b' []) as (st' & In' & _).
    { now rewrite Rz, <- app_assoc. }
    { apply Atail. }
    rewrite (P10 z Hz) in In'. destruct In'.
  - exfalso.
    assert (R8'' : rest (fst s8) = ws3' ++ (dept' ++ ws4' ++ t4' ++ b'))
      by (rewrite R8'; now symmetry).
    destruct S3' as [N3' S3'].
    destruct (rep_complete CSpace 1 true 1 s8 ws3' _ R8'')
      as (z & Inz & Rz & _ & Pz); auto.
    { now apply nonempty_length. }
    assert (Hz : In z pre9).
    { apply (first_choice true _ _ _ _ _ E9 (rep_order _ _ _ _ _ _ _ _ _ E9) Inz).
      destruct M9 as (_ & P9' & _). lia. }
    destruct (ms_complete (Cat department_group department_tail) 1 z
                (dept' ++ ws4' ++ t4') b' [Some dept'])
      as (st' & In' & _).
    { now rewrite Rz, <- !app_assoc. }
    { apply (accepts_cat _ _ _ dept' (ws4' ++ t4') b' [Some dept'] []).
      - now apply department_group_accepts.
      - apply Atail. }
    rewrite (P9 z Hz) in In'. destruct In'.
Qed.

Lemma department_is_shortest_witness :
  exists code dept,
    captures (rule_at 4)
      (L "report office issue 7 for the IT department of the HR department")
    = [code; dept] /\
    length dept <= 2.
Proof.
  destruct (department_is_shortest
              (L "report office issue 7 for the IT department of the HR department"))
    as (a & t1 & art & t2 & ws1 & code & ws2 & t3 & ws3 & dept & ws4 & t4 & b &
        _ & Hc & _);
    [vm_compute; reflexivity|].
  exists code, dept. split; [exact Hc|].
  assert (E : captures (rule_at 4)
                (L "report office issue 7 for the IT department of the HR department")
              = [L "7"; L "IT"]) by (vm_compute; reflexivity).
  rewrite E in Hc. injection Hc as _ <-. simpl. lia.
Defined.
